(** * The password generator worker (src/util/generate-password.worker.js)

    A shallow embedding of the worker that produces constrained random
    passwords: the pool of random bytes and its refill protocol with the main
    thread, the rejection sampler, the validator and the generation loop.

    Conventions of the embedding.
    - A JavaScript string is a [string]; [charCodeAt] is [N_of_ascii].
    - A byte of a [Uint8Array] is a [byte]; its numeric value is [byteValue].
    - A JavaScript number that need not be an integer (a proportion, the
      timeout, a quotient, the product [timeout * 1000]) is an IEEE 754
      binary64 value, [JsNumber.number]: the [spec_float] of the Standard
      Library at precision 53 and maximal exponent 1024, with its operations,
      which round to nearest, ties to even.
    - Counts, lengths, bytes and the readings of the clock are integers far
      below 2^53, which a double holds exactly, and so are their sums and
      differences: they are kept in [nat], [N] and [Z], and converted
      ([JsNumber.ofNat], [JsNumber.ofZ]) where the code divides them or
      compares them with a number. The sampler can return [NaN] ([JNaN]).
      [passwordLength] is a natural number.
    - A loop that need not end takes a [fuel]: [OutOfFuel] says that the
      loop was not unfolded far enough, and nothing about the code. A call
      that waits for an answer the main thread never gives is [Pending].
    - The worker is single threaded. An [await] is the only place where other
      code (another suspended call, a message from the main thread) can run. *)

From Stdlib Require Import ZArith NArith QArith Qabs List String Ascii Bool Lia Arith.
From Stdlib.Strings Require Import Byte.
From Stdlib.Floats Require Import SpecFloat.
From Stdlib Require Import Permutation.
Import ListNotations.

Local Open Scope Z_scope.

(* ================================================================= *)
(** * Definitions *)
(* ================================================================= *)

(** ** JavaScript numbers *)

Module JsNumber.

(** binary64: 53 bits of precision, exponents up to 1024. *)
Definition prec : Z := 53.
Definition emax : Z := 1024.

Definition number : Type := spec_float.

Definition NaN : number := S754_nan.
Definition Infinity : number := S754_infinity false.

(** An integer as a number: itself up to 2^53 in magnitude, the nearest
    double beyond. *)
Definition ofZ (z : Z) : number := binary_normalize prec emax z 0 false.

Definition ofNat (n : nat) : number := ofZ (Z.of_nat n).

(** [x / y] *)
Definition div (x y : number) : number := SFdiv prec emax x y.

(** [x * y] *)
Definition mul (x y : number) : number := SFmul prec emax x y.

(** [x - y] *)
Definition sub (x y : number) : number := SFsub prec emax x y.

(** [Math.abs(x)] *)
Definition abs (x : number) : number := SFabs x.

(** [x <= y]: every comparison with [NaN] is false. *)
Definition leb (x y : number) : bool := SFleb x y.

(** [x >= y] *)
Definition geb (x y : number) : bool := SFleb y x.

(** The decimal literal that denotes [n / d], [d] being a power of ten
    (0.01 is [decimal 1 100]): the double nearest to the quotient. For [n]
    and [d] below 2^53 it is the quotient of the two doubles, which is
    rounded once. *)
Definition decimal (n : Z) (d : positive) : number :=
  div (ofZ n) (ofZ (Z.pos d)).

(** The number is one of the doubles: its mantissa and exponent are those
    of the binary64 format. *)
Definition isDouble (x : number) : Prop := valid_binary prec emax x = true.

(** The value of a number that is neither infinite nor [NaN]. *)
Definition exactValue (x : number) : option Q :=
  match x with
  | S754_zero _ => Some 0%Q
  | S754_finite s m e =>
      Some ((if s then inject_Z (Z.neg m) else inject_Z (Z.pos m)) * Qpower 2 e)%Q
  | S754_infinity _ | S754_nan => None
  end.

(** [q >= x] for a rational [q], without rounding. *)
Definition exactly_geb (q : Q) (x : number) : bool :=
  match x with
  | S754_nan => false
  | S754_infinity s => s
  | _ => match exactValue x with Some v => Qle_bool v q | None => false end
  end.

(** [q <= x] for a rational [q], without rounding. *)
Definition exactly_leb (q : Q) (x : number) : bool :=
  match x with
  | S754_nan => false
  | S754_infinity s => negb s
  | _ => match exactValue x with Some v => Qle_bool q v | None => false end
  end.

End JsNumber.

(** The number is not [NaN] and carries the sign [s]. *)
Definition signed (s : bool) (x : JsNumber.number) : Prop :=
  match x with
  | S754_zero s' | S754_infinity s' | S754_finite s' _ _ => s' = s
  | S754_nan => False
  end.

(** *** The steps of a rounding, to reason about it *)

(** [mrs] is what is left of [P] after [k] shifts to the right: the
    quotient, the last bit shifted out, and whether a bit shifted out
    before it was set. *)
Definition shifted (P k : Z) (mrs : shr_record) : Prop :=
  exists t,
    2 * P = shr_m mrs * 2 ^ (k + 1) + (if shr_r mrs then 2 ^ k else 0) + t
    /\ 0 <= t < 2 ^ k /\ (shr_s mrs = true <-> 0 < t) /\ 0 <= shr_m mrs.

(** [N] is [P / 2 ^ k] rounded to the nearest integer, to the even one
    when there are two. *)
Definition rounds (P k N : Z) : Prop :=
  0 <= N
  /\ (2 * N - 1) * 2 ^ k <= 2 * P <= (2 * N + 1) * 2 ^ k
  /\ (2 * P = (2 * N - 1) * 2 ^ k \/ 2 * P = (2 * N + 1) * 2 ^ k -> Z.even N = true).

(** The number of sign [s] with mantissa [N] at the exponent [f], the
    mantissa 2^53 being written with 53 bits at the next exponent, and an
    exponent above 971 giving an infinity. *)
Definition rounded (s : bool) (N f : Z) : JsNumber.number :=
  match N with
  | Z0 => S754_zero s
  | Z.pos q =>
      if N <? 2 ^ 53
      then if f <=? 971 then S754_finite s q f else S754_infinity s
      else if f + 1 <=? 971 then S754_finite s 4503599627370496 (f + 1)
           else S754_infinity s
  | Z.neg _ => S754_nan
  end.

(** ** Options and character classes *)

(** [PasswordGenerationOptions] (PasswordGeneratorUtil.js, referenced by the
    worker): the fields the worker reads. *)
Record PasswordGenerationOptions : Type := {
  passwordLength : nat;
  useUppercase : bool;
  useLowercase : bool;
  useDigits : bool;
  useSymbols : bool;
  symbols : string;
  minDigitProportion : JsNumber.number;
  minSymbolProportion : JsNumber.number;
  maxCaseVariance : JsNumber.number
}.

(** Modelled from the spec: the results of [classifyCharacter], whose file
    (util/classifyCharacter) is not among the sources. "Given a character
    code, deterministically returns exactly one of: uppercase, lowercase,
    digit, symbol, other." The validator looks up the first four. *)
Inductive classification : Type :=
| uppercase | lowercase | digit | symbol | other.

Definition classification_eqb (a b : classification) : bool :=
  match a, b with
  | uppercase, uppercase | lowercase, lowercase | digit, digit
  | symbol, symbol | other, other => true
  | _, _ => false
  end.

(** [classifyCharacter], imported by the worker from util/classifyCharacter:
    a pure function from a character code to its class. The development is
    parametric in it. *)
Class CharacterClassifier : Type :=
  classifyCharacter : N -> classification.

(** [Date.now()]: the reading returned by the [k]-th call, in milliseconds. *)
Class Clock : Type :=
  Date_now : nat -> Z.

(** ** passwordIsValid *)

(** The [Map] from classification to count built by the validator. *)
Definition Map : Type := classification -> option nat.

Definition Map_new : Map := fun _ => None.

Definition Map_get (m : Map) (k : classification) : option nat := m k.

Definition Map_set (m : Map) (k : classification) (v : nat) : Map :=
  fun k' => if classification_eqb k' k then Some v else m k'.

(** [m.get(k) || 0] *)
Definition get_or_0 (m : Map) (k : classification) : nat :=
  match Map_get m k with Some n => n | None => 0%nat end.

Section Validator.
Context `{CharacterClassifier}.

(** One iteration of the counting loop (lines 126-134): a class seen for
    the first time is set to 1, otherwise its count is incremented. *)
Definition count_character (characterCount : Map) (c : ascii) : Map :=
  let currentCharClassification := classifyCharacter (N_of_ascii c) in
  match Map_get characterCount currentCharClassification with
  | None => Map_set characterCount currentCharClassification 1
  | Some n => Map_set characterCount currentCharClassification (n + 1)
  end.

(** Lines 124-135. *)
Definition characterCount (password : string) : Map :=
  fold_left count_character (list_ascii_of_string password) Map_new.

(** Lines 122-153. The counts are converted where they are divided;
    [0.5] and [2] are the literals of line 150. *)
Definition passwordIsValid (password : string)
           (options : PasswordGenerationOptions) : bool :=
  let digits := get_or_0 (characterCount password) digit in
  let symbols_ := get_or_0 (characterCount password) symbol in
  let lowercase_ := get_or_0 (characterCount password) lowercase in
  let uppercase_ := get_or_0 (characterCount password) uppercase in
  let letters := (lowercase_ + uppercase_)%nat in
  (negb (useDigits options)
   || JsNumber.geb (JsNumber.div (JsNumber.ofNat digits)
                                 (JsNumber.ofNat (String.length password)))
                   (minDigitProportion options))
  && (negb (useSymbols options && (0 <? String.length (symbols options))%nat)
      || JsNumber.geb (JsNumber.div (JsNumber.ofNat symbols_)
                                    (JsNumber.ofNat (String.length password)))
                      (minSymbolProportion options))
  && (negb ((0 <? letters)%nat && useUppercase options && useLowercase options)
      || JsNumber.leb
           (JsNumber.mul (JsNumber.ofZ 2)
              (JsNumber.abs
                 (JsNumber.sub (JsNumber.div (JsNumber.ofNat lowercase_)
                                             (JsNumber.ofNat letters))
                               (JsNumber.decimal 5 10))))
           (maxCaseVariance options)).

(** The divisions that a call of [passwordIsValid] evaluates, each with its
    numerator and its denominator, given the short-circuit order of [||]
    and [&&] in lines 142-152. *)
Definition evaluated_divisions (password : string)
           (options : PasswordGenerationOptions) : list (nat * nat) :=
  let digits := get_or_0 (characterCount password) digit in
  let symbols_ := get_or_0 (characterCount password) symbol in
  let lowercase_ := get_or_0 (characterCount password) lowercase in
  let uppercase_ := get_or_0 (characterCount password) uppercase in
  let letters := (lowercase_ + uppercase_)%nat in
  let len := String.length password in
  let check1 := negb (useDigits options)
                || JsNumber.geb (JsNumber.div (JsNumber.ofNat digits) (JsNumber.ofNat len))
                                (minDigitProportion options) in
  let check2 := negb (useSymbols options && (0 <? String.length (symbols options))%nat)
                || JsNumber.geb (JsNumber.div (JsNumber.ofNat symbols_) (JsNumber.ofNat len))
                                (minSymbolProportion options) in
  (if useDigits options then [(digits, len)] else [])
  ++ (if check1 && (useSymbols options && (0 <? String.length (symbols options))%nat)
      then [(symbols_, len)] else [])
  ++ (if check1 && check2
         && ((0 <? letters)%nat && useUppercase options && useLowercase options)
      then [(lowercase_, letters)] else []).

(** The quotients of these divisions. *)
Definition evaluated_quotients (password : string)
           (options : PasswordGenerationOptions) : list JsNumber.number :=
  map (fun d => JsNumber.div (JsNumber.ofNat (fst d)) (JsNumber.ofNat (snd d)))
      (evaluated_divisions password options).

(** *** The validator in the words of the specification *)

(** Number of characters of [password] in class [k]. *)
Definition classCount (k : classification) (password : string) : nat :=
  List.length
    (filter (fun c => classification_eqb (classifyCharacter (N_of_ascii c)) k)
            (list_ascii_of_string password)).

Definition letterCount (password : string) : nat :=
  (classCount lowercase password + classCount uppercase password)%nat.

(** The three conditions read over the rationals, without rounding: the
    quotient [a / b], the variance [2 * |lowercase / letters - 0.5|], and
    their comparison with the value of the threshold. *)
Definition exactProportion (a b : nat) : Q :=
  (inject_Z (Z.of_nat a) / inject_Z (Z.of_nat b))%Q.

Definition exactCaseVariance (lowercaseCount letterCount : nat) : Q :=
  (2 * Qabs (exactProportion lowercaseCount letterCount - (1 # 2)))%Q.

(** The validator that the three conditions describe when they are read
    over the rationals; a proportion of the empty password is left out, as
    the specification leaves out the checks with a zero denominator. *)
Definition passwordIsValid_exact (password : string)
           (options : PasswordGenerationOptions) : bool :=
  let len := String.length password in
  let letters := letterCount password in
  (negb ((0 <? len)%nat && useDigits options)
   || JsNumber.exactly_geb (exactProportion (classCount digit password) len)
                           (minDigitProportion options))
  && (negb ((0 <? len)%nat && useSymbols options
            && (0 <? String.length (symbols options))%nat)
      || JsNumber.exactly_geb (exactProportion (classCount symbol password) len)
                              (minSymbolProportion options))
  && (negb ((0 <? letters)%nat && useUppercase options && useLowercase options)
      || JsNumber.exactly_leb
           (exactCaseVariance (classCount lowercase password) letters)
           (maxCaseVariance options)).

(** The same quantities as the code computes them, in doubles.
    "[count / length]": the double nearest to the quotient; [0 / 0] is
    [NaN]. *)
Definition proportion (a b : nat) : JsNumber.number :=
  JsNumber.div (JsNumber.ofNat a) (JsNumber.ofNat b).

(** "[2 * |lowercase / letters - 0.5|]": the quotient is rounded, then the
    difference. *)
Definition caseVariance (lowercaseCount letterCount : nat) : JsNumber.number :=
  JsNumber.mul (JsNumber.ofZ 2)
    (JsNumber.abs (JsNumber.sub (proportion lowercaseCount letterCount)
                                (JsNumber.decimal 5 10))).




(** The validator in which, as the specification words it, every check
    with a zero denominator is skipped: the two proportion checks are
    guarded by the length of the password as the variance check is
    guarded by the number of letters. *)
Definition passwordIsValid_skipping_zero_denominators
           (password : string) (options : PasswordGenerationOptions) : bool :=
  let digits := classCount digit password in
  let symbols_ := classCount symbol password in
  let lowercase_ := classCount lowercase password in
  let letters := letterCount password in
  let len := String.length password in
  (negb ((0 <? len)%nat && useDigits options)
   || JsNumber.geb (proportion digits len) (minDigitProportion options))
  && (negb ((0 <? len)%nat && useSymbols options
            && (0 <? String.length (symbols options))%nat)
      || JsNumber.geb (proportion symbols_ len) (minSymbolProportion options))
  && (negb ((0 <? letters)%nat && useUppercase options && useLowercase options)
      || JsNumber.leb (caseVariance lowercase_ letters) (maxCaseVariance options)).

End Validator.

(** ** getRandomByteInRange: the arithmetic of lines 104-109 *)

(** The value of a byte read from the pool. *)
Definition byteValue (b : byte) : Z := Z.of_N (Byte.to_N b).

(** The result of the sampler: an integer, or [NaN] when [bound] is 0. *)
Inductive jsint : Type :=
| JInt (z : Z)
| JNaN.

(** [const bound = max - min + 1] *)
Definition bound (min max : Z) : Z := max - min + 1.

(** [Math.floor((0xff + 1) / bound) * bound - 1]. For [bound = 0] the
    quotient is [Infinity] and [Infinity * 0] is [NaN]. [Z.div] rounds
    towards minus infinity, as [Math.floor] of the quotient does. *)
Definition limit (bound : Z) : jsint :=
  if bound =? 0 then JNaN else JInt (256 / bound * bound - 1).

(** The loop condition [randomUint8 > limit]; false when the limit is [NaN]. *)
Definition rejected (bound randomUint8 : Z) : bool :=
  match limit bound with
  | JInt l => l <? randomUint8
  | JNaN => false
  end.

(** [(randomUint8 % bound) + min]; [%] takes the sign of the dividend, as
    [Z.rem] does, and [x % 0] is [NaN]. *)
Definition sampleOf (bound min randomUint8 : Z) : jsint :=
  if bound =? 0 then JNaN else JInt (Z.rem randomUint8 bound + min).

(** The 256 values a byte can take. *)
Definition byteValues : list Z := map Z.of_nat (seq 0 256).


(** The byte values that pass the rejection test. *)
Definition accepted (min max : Z) : list Z :=
  filter (fun v => negb (rejected (bound min max) v)) byteValues.

(** ** The worker's state and the protocol with the main thread *)

(** A promise is pending, fulfilled, or rejected with an [Error]. *)
Inductive promiseState : Type :=
| pending
| fulfilled
| rejectedWith (message : string).

(** [event.data.responseCode] of a RESPONSE_GET_RANDOM_BYTES message:
    ['OK'] or anything else. *)
Inductive responseCode : Type := OK | FAILED.

(** A RESPONSE_GET_RANDOM_BYTES message from the main thread:
    [responseBuffer] is [new Uint8Array(event.data.messageData.buffer)]. *)
Record response : Type := {
  code : responseCode;
  responseBuffer : list byte;
  responseMessage : string
}.

(** The messages the worker posts to the main thread. *)
Inductive postedMessage : Type :=
| REQUEST_GET_RANDOM_BYTES
| RESPONSE_GENERATE_PASSWORD_OK (password : string)
| RESPONSE_GENERATE_PASSWORD_TIMEOUT
| RESPONSE_GENERATE_PASSWORD_ERROR (message : string).

(** The state of the worker: [randomPool] (lines 12-21), the promises
    created by [regenerateRandomPool], the registered [onMessageListener]s
    (each named by the promise it settles), and the messages posted so far.
    [unanswered] belongs to the main thread: the REQUEST_GET_RANDOM_BYTES
    messages it has received and not answered yet. *)
Record worker : Type := {
  buffer : list byte;
  numRead : N;
  regenerationPromise : option nat;
  promises : list promiseState;
  listeners : list nat;
  posted : list postedMessage;
  unanswered : nat
}.

(** [randomPool.buffer.length] *)
Definition bufferLength (w : worker) : N := N.of_nat (List.length (buffer w)).

(** Lines 12-21: 65536 bytes, all read. *)
Definition capacity : N := 65536.

Definition initialWorker : worker := {|
  buffer := repeat x00 (N.to_nat capacity);
  numRead := capacity;
  regenerationPromise := None;
  promises := [];
  listeners := [];
  posted := [];
  unanswered := 0
|}.

(** The state of promise [p]; a promise that was never created stays pending. *)
Definition promiseStateOf (w : worker) (p : nat) : promiseState :=
  nth p (promises w) pending.

Fixpoint replaceNth {A : Type} (l : list A) (i : nat) (x : A) : list A :=
  match l, i with
  | [], _ => []
  | _ :: l', O => x :: l'
  | y :: l', S i' => y :: replaceNth l' i' x
  end.

(** [resolve()] or [reject(e)]: only a pending promise changes state. *)
Definition settle (ps : list promiseState) (p : nat) (s : promiseState)
  : list promiseState :=
  match nth p ps pending with
  | pending => replaceNth ps p s
  | _ => ps
  end.

(** Lines 28-66. When no regeneration is in progress a promise is created,
    its listener is registered and REQUEST_GET_RANDOM_BYTES is posted. The
    buffer is in the transfer list of [postMessage] (line 61): it is moved to
    the main thread, and the worker's array is left detached, with length 0.
    Returns [randomPool.regenerationPromise]. *)
Definition regenerateRandomPool (w : worker) : worker * nat :=
  match regenerationPromise w with
  | None =>
      let p := List.length (promises w) in
      ({| buffer := [];
          numRead := numRead w;
          regenerationPromise := Some p;
          promises := promises w ++ [pending];
          listeners := listeners w ++ [p];
          posted := posted w ++ [REQUEST_GET_RANDOM_BYTES];
          unanswered := S (unanswered w) |}, p)
  | Some p => (w, p)
  end.

(** Lines 33-51: the listener of promise [p] receives a
    RESPONSE_GET_RANDOM_BYTES message. *)
Definition onMessageListener (p : nat) (r : response) (w : worker) : worker :=
  {| buffer := responseBuffer r;
     numRead := 0;
     regenerationPromise := None;
     promises := settle (promises w) p
                        (match code r with
                         | OK => fulfilled
                         | FAILED => rejectedWith (responseMessage r)
                         end);
     listeners := List.remove Nat.eq_dec p (listeners w);
     posted := posted w;
     unanswered := unanswered w |}.

(** The main thread answers a request: the message is dispatched to the
    listeners registered at that time. Without an unanswered request the
    main thread sends nothing. *)
Definition respond (r : response) (w : worker) : worker :=
  match unanswered w with
  | O => w
  | S n =>
      fold_left (fun w' p => onMessageListener p r w') (listeners w)
                {| buffer := buffer w;
                   numRead := numRead w;
                   regenerationPromise := regenerationPromise w;
                   promises := promises w;
                   listeners := listeners w;
                   posted := posted w;
                   unanswered := n |}
  end.

(** ** getRandomByte as a suspendable call *)

(** Where a call of [getRandomByte] stands: about to run line 77, suspended
    at the [await] of line 78, returned, or thrown. *)
Inductive call : Type :=
| Entering
| Awaiting (p : nat)
| Resolved (randomByte : byte)
| Rejected (message : string).

(** Lines 82-89: read a byte, or call [getRandomByte] again. *)
Definition readOrRetry (w : worker) : worker * call :=
  if (numRead w <? bufferLength w)%N then
    ({| buffer := buffer w;
        numRead := numRead w + 1;
        regenerationPromise := regenerationPromise w;
        promises := promises w;
        listeners := listeners w;
        posted := posted w;
        unanswered := unanswered w |},
     Resolved (nth (N.to_nat (numRead w)) (buffer w) x00))
  else (w, Entering).

(** One step of a call. A suspended call continues once its promise is
    settled: with line 82 when fulfilled, by throwing when rejected. *)
Definition step (c : call) (w : worker) : worker * call :=
  match c with
  | Entering =>
      if (bufferLength w <=? numRead w)%N then
        let (w', p) := regenerateRandomPool w in (w', Awaiting p)
      else readOrRetry w
  | Awaiting p =>
      match promiseStateOf w p with
      | pending => (w, c)
      | fulfilled => readOrRetry w
      | rejectedWith m => (w, Rejected m)
      end
  | Resolved _ | Rejected _ => (w, c)
  end.

(** A turn of a call: it runs until it is suspended or finished. The
    recursive call of line 89 starts within the same turn. *)
Definition turn (c : call) (w : worker) : worker * call :=
  let (w1, c1) := step c w in
  match c1 with
  | Entering => step Entering w1
  | _ => (w1, c1)
  end.

(** The worker with the calls of [getRandomByte] made so far. *)
Record system : Type := {
  theWorker : worker;
  calls : list call
}.

Inductive event : Type :=
| Call                    (* a new call of getRandomByte *)
| Resume (i : nat)        (* the i-th call gets its turn *)
| Respond (r : response). (* the main thread answers *)

Definition exec (s : system) (e : event) : system :=
  match e with
  | Call =>
      let (w', c) := turn Entering (theWorker s) in
      {| theWorker := w'; calls := calls s ++ [c] |}
  | Resume i =>
      match nth_error (calls s) i with
      | Some c =>
          let (w', c') := turn c (theWorker s) in
          {| theWorker := w'; calls := replaceNth (calls s) i c' |}
      | None => s
      end
  | Respond r => {| theWorker := respond r (theWorker s); calls := calls s |}
  end.

Definition run (s : system) (es : list event) : system := fold_left exec es s.

Definition initialSystem : system := {| theWorker := initialWorker; calls := [] |}.

(** A refill request is outstanding: the main thread has an unanswered
    REQUEST_GET_RANDOM_BYTES. *)
Definition refillOutstanding (w : worker) : Prop := (0 < unanswered w)%nat.

(** The state invariant of the pool. *)
Record poolInvariant (w : worker) : Prop := {
  inv_idle :
    regenerationPromise w = None ->
    (numRead w <= bufferLength w)%N /\ listeners w = [] /\ unanswered w = 0%nat;
  inv_inflight :
    forall p, regenerationPromise w = Some p ->
    buffer w = [] /\ listeners w = [p] /\ unanswered w = 1%nat
    /\ (p < List.length (promises w))%nat /\ promiseStateOf w p = pending;
  inv_pending :
    forall q, (q < List.length (promises w))%nat ->
    promiseStateOf w q = pending -> regenerationPromise w = Some q
}.

(** ** One generation request run to its end *)

(** The world of a single request: the worker, the answers the main thread
    will give from now on, in order, and the number of [Date.now()] calls
    made so far. *)
Record world : Type := {
  wk : worker;
  inbox : list response;
  clockReads : nat
}.

(** How an asynchronous function ends: it returns, it throws an [Error], it
    stays suspended for ever because the main thread never answers, or the
    fuel that bounds the unfolding of its loops is used up. *)
Inductive outcome (A : Type) : Type :=
| Returned (a : A) (w : world)
| Threw (message : string) (w : world)
| Pending
| OutOfFuel.

Arguments Returned {A} a w.
Arguments Threw {A} message w.
Arguments Pending {A}.
Arguments OutOfFuel {A}.

Definition bind {A B : Type} (o : outcome A) (k : A -> world -> outcome B)
  : outcome B :=
  match o with
  | Returned a w => k a w
  | Threw m w => Threw m w
  | Pending => Pending
  | OutOfFuel => OutOfFuel
  end.

Notation "'let*' ( x , w ) ':=' o 'in' k" :=
  (bind o (fun x w => k))
    (at level 10, x name, w name, o at level 100, k at level 200,
     format "'[v' 'let*'  ( x ,  w )  ':='  o  'in' '/' k ']'").

(** What an [await] gives. *)
Inductive awaited : Type :=
| Continue (w : worker) (inbox : list response)
| Raise (message : string) (w : worker) (inbox : list response)
| Forever.

(** [await p] when no other call is running: the caller stays suspended
    while the main thread's answers arrive, until [p] is settled. *)
Fixpoint awaitPromise (p : nat) (inbox : list response) (w : worker) : awaited :=
  match promiseStateOf w p with
  | fulfilled => Continue w inbox
  | rejectedWith m => Raise m w inbox
  | pending =>
      match inbox with
      | [] => Forever
      | r :: inbox' => awaitPromise p inbox' (respond r w)
      end
  end.

(** Lines 75-90. *)
Fixpoint getRandomByte (fuel : nat) (w : world) : outcome byte :=
  match fuel with
  | O => OutOfFuel
  | S fuel' =>
      let afterIf :=
        if (bufferLength (wk w) <=? numRead (wk w))%N then
          let (w', p) := regenerateRandomPool (wk w) in
          awaitPromise p (inbox w) w'
        else Continue (wk w) (inbox w) in
      match afterIf with
      | Forever => Pending
      | Raise m w' inbox' =>
          Threw m {| wk := w'; inbox := inbox'; clockReads := clockReads w |}
      | Continue w' inbox' =>
          match readOrRetry w' with
          | (w'', Resolved randomByte) =>
              Returned randomByte
                       {| wk := w''; inbox := inbox'; clockReads := clockReads w |}
          | (w'', _) =>
              getRandomByte fuel'
                            {| wk := w''; inbox := inbox'; clockReads := clockReads w |}
          end
      end
  end.

(** Lines 103-110. *)
Fixpoint getRandomByteInRange (fuel : nat) (min max : Z) (w : world)
  : outcome jsint :=
  match fuel with
  | O => OutOfFuel
  | S fuel' =>
      let* (randomUint8, w1) := getRandomByte fuel w in
      if rejected (bound min max) (byteValue randomUint8)
      then getRandomByteInRange fuel' min max w1
      else Returned (sampleOf (bound min max) min (byteValue randomUint8)) w1
  end.

(** [randomString += characters[i]]: an index outside the string, or [NaN],
    gives [undefined], which is appended as the text "undefined". *)
Definition characterAt (characters : string) (i : jsint) : string :=
  match i with
  | JInt z =>
      if z <? 0 then "undefined"%string
      else match String.get (Z.to_nat z) characters with
           | Some c => String c EmptyString
           | None => "undefined"%string
           end
  | JNaN => "undefined"%string
  end.

(** The loop of lines 167-169 with [remaining] iterations to go. *)
Fixpoint generateRandomString_loop (fuel remaining : nat) (characters : string)
         (randomString : string) (w : world) : outcome string :=
  match remaining with
  | O => Returned randomString w
  | S remaining' =>
      let* (i, w1) :=
         getRandomByteInRange fuel 0 (Z.of_nat (String.length characters) - 1) w in
      generateRandomString_loop fuel remaining' characters
                                (randomString ++ characterAt characters i) w1
  end.

(** Lines 165-171. *)
Definition generateRandomString (fuel length : nat) (characters : string)
           (w : world) : outcome string :=
  generateRandomString_loop fuel length characters EmptyString w.

(** Lines 189-201: the characters to use. *)
Definition passwordChars (options : PasswordGenerationOptions) : string :=
  ((if useUppercase options then "ABCDEFGHIJKLMNOPQRSTUVWXYZ" else "")
   ++ (if useLowercase options then "abcdefghijklmnopqrstuvwxyz" else "")
   ++ (if useDigits options then "0123456789" else "")
   ++ (if useSymbols options then symbols options else ""))%string.

Section Generator.
Context `{CharacterClassifier} `{Clock}.

(** A call of [Date.now()]. *)
Definition readClock (w : world) : Z * world :=
  (Date_now (clockReads w),
   {| wk := wk w; inbox := inbox w; clockReads := S (clockReads w) |}).

(** [Date.now() - startTime >= timeout * 1000]: the difference of the two
    readings is an integer, the product is the double that the
    multiplication rounds to. *)
Definition timedOut (startTime now : Z) (timeout : JsNumber.number) : bool :=
  JsNumber.geb (JsNumber.ofZ (now - startTime))
               (JsNumber.mul timeout (JsNumber.ofZ 1000)).

(** The loop of lines 205-215. [None] is [null]. *)
Fixpoint generatePassword_loop (fuel : nat) (options : PasswordGenerationOptions)
         (timeout : JsNumber.number) (startTime : Z) (characters : string) (w : world)
  : outcome (option string) :=
  match fuel with
  | O => OutOfFuel
  | S fuel' =>
      let* (password, w1) :=
         generateRandomString fuel (passwordLength options) characters w in
      let (now, w2) := readClock w1 in
      if timedOut startTime now timeout then Returned None w2
      else if passwordIsValid password options then Returned (Some password) w2
           else generatePassword_loop fuel' options timeout startTime characters w2
  end.

(** Lines 184-217. *)
Definition generatePassword (fuel : nat) (options : PasswordGenerationOptions)
           (timeout : JsNumber.number) (w : world) : outcome (option string) :=
  let (startTime, w0) := readClock w in
  generatePassword_loop fuel options timeout startTime (passwordChars options) w0.

(** [n] iterations of the loop of lines 205-215 that all go round again:
    each generates a candidate, finds at the check of line 212 that the
    time is not up, and has its candidate refused by the validator. The
    result is the candidates and the world in which the next iteration
    starts; [None] when one of the [n] iterations ends otherwise. *)
Fixpoint refusedCandidates (fuel n : nat) (options : PasswordGenerationOptions)
         (timeout : JsNumber.number) (startTime : Z) (characters : string) (w : world)
  : option (list string * world) :=
  match n with
  | O => Some ([], w)
  | S n' =>
      match generateRandomString fuel (passwordLength options) characters w with
      | Returned password w1 =>
          let (now, w2) := readClock w1 in
          if timedOut startTime now timeout then None
          else if passwordIsValid password options then None
               else match refusedCandidates fuel n' options timeout startTime
                                            characters w2 with
                    | Some (passwords, w') => Some (password :: passwords, w')
                    | None => None
                    end
      | _ => None
      end
  end.

Definition post (m : postedMessage) (w : world) : world :=
  {| wk := {| buffer := buffer (wk w);
              numRead := numRead (wk w);
              regenerationPromise := regenerationPromise (wk w);
              promises := promises (wk w);
              listeners := listeners (wk w);
              posted := posted (wk w) ++ [m];
              unanswered := unanswered (wk w) |};
     inbox := inbox w;
     clockReads := clockReads w |}.

(** Lines 220-258: the handler of REQUEST_GENERATE_PASSWORD. *)
Definition onRequestGeneratePassword (fuel : nat)
           (options : PasswordGenerationOptions) (timeout : JsNumber.number) (w : world)
  : outcome unit :=
  match generatePassword fuel options timeout w with
  | Returned (Some password) w' =>
      Returned tt (post (RESPONSE_GENERATE_PASSWORD_OK password) w')
  | Returned None w' =>
      Returned tt (post RESPONSE_GENERATE_PASSWORD_TIMEOUT w')
  | Threw message w' =>
      Returned tt (post (RESPONSE_GENERATE_PASSWORD_ERROR message) w')
  | Pending => Pending
  | OutOfFuel => OutOfFuel
  end.

End Generator.

(** ** Sequences of calls, used to state what a loop consumed *)

(** [n] successive calls of [getRandomByte]: the bytes they return. *)
Fixpoint getRandomBytes (fuel n : nat) (w : world) : outcome (list byte) :=
  match n with
  | O => Returned [] w
  | S n' =>
      let* (b, w1) := getRandomByte fuel w in
      let* (bs, w2) := getRandomBytes fuel n' w1 in
      Returned (b :: bs) w2
  end.

(** [n] successive calls of [getRandomByteInRange min max]: the samples. *)
Fixpoint getSamples (fuel n : nat) (min max : Z) (w : world) : outcome (list jsint) :=
  match n with
  | O => Returned [] w
  | S n' =>
      let* (i, w1) := getRandomByteInRange fuel min max w in
      let* (is_, w2) := getSamples fuel n' min max w1 in
      Returned (i :: is_) w2
  end.

(** The string built from the samples: [characters[i]] for each, in order. *)
Definition stringOfSamples (characters : string) (samples : list jsint) : string :=
  fold_left (fun s i => (s ++ characterAt characters i)%string) samples EmptyString.

(** No refill is in progress: nothing is registered, awaited or unanswered. *)
Definition idle (w : worker) : Prop :=
  regenerationPromise w = None /\ listeners w = [] /\ unanswered w = 0%nat
  /\ forall q, (q < List.length (promises w))%nat -> promiseStateOf w q <> pending.

Definition isOK (r : response) : Prop := code r = OK.

(** Between [w] and [w'] the answers [rs] were consumed, each for one
    REQUEST_GET_RANDOM_BYTES posted. *)
Definition refills (w w' : world) (rs : list response) : Prop :=
  inbox w = rs ++ inbox w'
  /\ posted (wk w') = posted (wk w) ++ repeat REQUEST_GET_RANDOM_BYTES (List.length rs).

(** The worker after the refill requested from an idle state is answered. *)
Definition refilled (w : worker) (r : response) : worker :=
  {| buffer := responseBuffer r;
     numRead := 0;
     regenerationPromise := None;
     promises := promises w
                 ++ [match code r with
                     | OK => fulfilled
                     | FAILED => rejectedWith (responseMessage r)
                     end];
     listeners := [];
     posted := posted w ++ [REQUEST_GET_RANDOM_BYTES];
     unanswered := 0 |}.

(** What the outcome of a function says about the answers it consumed: a
    function that returns consumed successful answers only; a function that
    throws consumed successful answers and then one failure, whose message
    it throws; a function that stays suspended found nothing but successful
    answers. *)
Definition entropyAccount {A : Type} (w : world) (o : outcome A) : Prop :=
  match o with
  | Returned _ w' =>
      idle (wk w') /\ exists oks, refills w w' oks /\ Forall isOK oks
  | Threw m w' =>
      idle (wk w')
      /\ exists oks r, refills w w' (oks ++ [r]) /\ Forall isOK oks
                       /\ code r = FAILED /\ responseMessage r = m
  | Pending => Forall isOK (inbox w)
  | OutOfFuel => True
  end.

(** What a loop leaves unchanged on the way to a result. *)
Definition keepsClock {A : Type} (w : world) (o : outcome A) : Prop :=
  match o with
  | Returned _ w' | Threw _ w' => clockReads w' = clockReads w
  | _ => True
  end.

(** ** Concrete collaborators used in the examples *)

(** A classifier of the ASCII characters, to run the validator on concrete
    passwords: letters, digits, and the other printable characters as
    symbols. *)
Definition asciiClassifier : CharacterClassifier :=
  fun code =>
    if ((65 <=? code) && (code <=? 90))%N then uppercase
    else if ((97 <=? code) && (code <=? 122))%N then lowercase
    else if ((48 <=? code) && (code <=? 57))%N then digit
    else if ((33 <=? code) && (code <=? 126))%N then symbol
    else other.

(** A clock that advances by [ms] milliseconds between two readings. *)
Definition tickingClock (ms : Z) : Clock := fun k => Z.of_nat k * ms.

Definition okResponse (bytes : list byte) : response :=
  {| code := OK; responseBuffer := bytes; responseMessage := EmptyString |}.


(** ** Concrete inputs used in the examples *)

(** The value a call returned, if it returned. *)
Definition returned {A : Type} (o : outcome A) : option A :=
  match o with Returned a _ => Some a | _ => None end.

(** The value a call returned, or [d] if it did not return. *)
Definition returned_or {A : Type} (d : A) (o : outcome A) : A :=
  match o with Returned a _ => a | _ => d end.

(** The world in which a call ended. *)
Definition finalWorld {A : Type} (o : outcome A) (w : world) : world :=
  match o with Returned _ w' | Threw _ w' => w' | _ => w end.

(** A worker that has just started, and the answers the main thread will
    give. *)
Definition freshWorld (answers : list response) : world :=
  {| wk := initialWorker; inbox := answers; clockReads := 0 |}.

(** Options with the symbols of the application's defaults and no
    constraint on the proportions. *)
Definition optionsWith (length : nat) (upper lower digits syms : bool)
  : PasswordGenerationOptions :=
  {| passwordLength := length;
     useUppercase := upper;
     useLowercase := lower;
     useDigits := digits;
     useSymbols := syms;
     symbols := "!@#$%&*_?";
     minDigitProportion := JsNumber.ofZ 0;
     minSymbolProportion := JsNumber.ofZ 0;
     maxCaseVariance := JsNumber.ofZ 1 |}.

(** ** The options held by the application (src/components/App/index.jsx) *)

(** [removeDuplicateCharacters], imported by App from
    util/removeDuplicateCharacters: a function from strings to strings. The
    development is parametric in it; nothing below depends on what it
    returns. *)
Class DuplicateRemover : Type :=
  removeDuplicateCharacters : string -> string.

(** Lines 33-45: the options the constructor starts with. *)
Definition defaultOptions : PasswordGenerationOptions :=
  {| passwordLength := 9;
     useUppercase := true;
     useLowercase := true;
     useDigits := true;
     useSymbols := true;
     symbols := "!@#$%&*_?";
     minDigitProportion := JsNumber.decimal 1 100;
     minSymbolProportion := JsNumber.decimal 1 100;
     maxCaseVariance := JsNumber.decimal 1 100 |}.

(** The argument of [onOptionsChange]: a partial options object. A field
    that is present replaces the current one. *)
Record OptionsDelta : Type := {
  deltaPasswordLength : option nat;
  deltaUseUppercase : option bool;
  deltaUseLowercase : option bool;
  deltaUseDigits : option bool;
  deltaUseSymbols : option bool;
  deltaSymbols : option string;
  deltaMinDigitProportion : option JsNumber.number;
  deltaMinSymbolProportion : option JsNumber.number;
  deltaMaxCaseVariance : option JsNumber.number
}.

Definition orCurrent {A : Type} (delta : option A) (current : A) : A :=
  match delta with Some v => v | None => current end.

(** Lines 56-59: [{ ...currentOptions, ...optionsDelta }]. *)
Definition spreadOptions (currentOptions : PasswordGenerationOptions)
           (optionsDelta : OptionsDelta) : PasswordGenerationOptions :=
  {| passwordLength := orCurrent (deltaPasswordLength optionsDelta)
                                 (passwordLength currentOptions);
     useUppercase := orCurrent (deltaUseUppercase optionsDelta)
                               (useUppercase currentOptions);
     useLowercase := orCurrent (deltaUseLowercase optionsDelta)
                               (useLowercase currentOptions);
     useDigits := orCurrent (deltaUseDigits optionsDelta) (useDigits currentOptions);
     useSymbols := orCurrent (deltaUseSymbols optionsDelta) (useSymbols currentOptions);
     symbols := orCurrent (deltaSymbols optionsDelta) (symbols currentOptions);
     minDigitProportion := orCurrent (deltaMinDigitProportion optionsDelta)
                                     (minDigitProportion currentOptions);
     minSymbolProportion := orCurrent (deltaMinSymbolProportion optionsDelta)
                                      (minSymbolProportion currentOptions);
     maxCaseVariance := orCurrent (deltaMaxCaseVariance optionsDelta)
                                  (maxCaseVariance currentOptions) |}.

(** Line 61: [newOptions.symbols = ...]. *)
Definition withSymbols (options : PasswordGenerationOptions) (s : string)
  : PasswordGenerationOptions :=
  {| passwordLength := passwordLength options;
     useUppercase := useUppercase options;
     useLowercase := useLowercase options;
     useDigits := useDigits options;
     useSymbols := useSymbols options;
     symbols := s;
     minDigitProportion := minDigitProportion options;
     minSymbolProportion := minSymbolProportion options;
     maxCaseVariance := maxCaseVariance options |}.

Section App.
Context `{CharacterClassifier} `{DuplicateRemover}.

(** The loop of lines 65-73 from index [i] on, [rest] being the characters
    from [i]: it stops at the first character that is not a symbol. *)
Fixpoint hasValidSymbols_loop (hasValidSymbols : bool) (rest : list ascii) : bool :=
  match rest with
  | [] => hasValidSymbols
  | c :: rest' =>
      if hasValidSymbols
      then hasValidSymbols_loop
             (hasValidSymbols
              && classification_eqb (classifyCharacter (N_of_ascii c)) symbol)
             rest'
      else hasValidSymbols
  end.

(** The condition of lines 74-81. *)
Definition optionsGuard (newOptions : PasswordGenerationOptions) : bool :=
  (useUppercase newOptions
   || useLowercase newOptions
   || useDigits newOptions
   || (useSymbols newOptions && (1 <? String.length (symbols newOptions))%nat))
  && hasValidSymbols_loop true (list_ascii_of_string (symbols newOptions))
  && (0 <? String.length (symbols newOptions))%nat.

(** Lines 52-90: the state update of [onOptionsChange], from the previous
    options to the next. *)
Definition onOptionsChange (currentOptions : PasswordGenerationOptions)
           (optionsDelta : OptionsDelta) : PasswordGenerationOptions :=
  let newOptions := spreadOptions currentOptions optionsDelta in
  let newOptions :=
    withSymbols newOptions (removeDuplicateCharacters (symbols newOptions)) in
  if optionsGuard newOptions then newOptions else currentOptions.

(** The options after a sequence of changes. *)
Definition afterChanges (options : PasswordGenerationOptions)
           (deltas : list OptionsDelta) : PasswordGenerationOptions :=
  fold_left onOptionsChange deltas options.

End App.

(** What the guard of lines 74-81 grants: a class is enabled (symbols count
    when there are at least two), [symbols] is not empty and holds
    characters of class symbol only. *)
Definition acceptableOptions `{CharacterClassifier}
           (options : PasswordGenerationOptions) : Prop :=
  (useUppercase options = true \/ useLowercase options = true
   \/ useDigits options = true
   \/ (useSymbols options = true /\ (2 <= String.length (symbols options))%nat))
  /\ symbols options <> EmptyString
  /\ forall c, In c (list_ascii_of_string (symbols options)) ->
                classifyCharacter (N_of_ascii c) = symbol.

(** A delta that leaves the classes and the symbols as they are. *)
Definition numericOnly (optionsDelta : OptionsDelta) : Prop :=
  deltaUseUppercase optionsDelta = None /\ deltaUseLowercase optionsDelta = None
  /\ deltaUseDigits optionsDelta = None /\ deltaUseSymbols optionsDelta = None
  /\ deltaSymbols optionsDelta = None.

(** ** Further notions used to state what the worker does *)

(** [s] written [n] times. *)
Fixpoint repeatString (s : string) (n : nat) : string :=
  match n with
  | O => EmptyString
  | S n' => (s ++ repeatString s n')%string
  end.

(** The bytes of the pool that have not been read. *)
Definition unread (w : worker) : list byte :=
  skipn (N.to_nat (numRead w)) (buffer w).

(** The world after [k] more bytes of the pool were read. *)
Definition advanceRead (w : world) (k : N) : world :=
  {| wk := {| buffer := buffer (wk w);
              numRead := numRead (wk w) + k;
              regenerationPromise := regenerationPromise (wk w);
              promises := promises (wk w);
              listeners := listeners (wk w);
              posted := posted (wk w);
              unanswered := unanswered (wk w) |};
     inbox := inbox w;
     clockReads := clockReads w |}.

(** The world after the refill requested from an idle worker is answered
    by [r], the rest of the answers being [rest]. *)
Definition afterRefill (w : world) (r : response) (rest : list response) : world :=
  {| wk := refilled (wk w) r; inbox := rest; clockReads := clockReads w |}.

(** An answer that reports success and brings no byte. *)
Definition emptyAnswer (r : response) : Prop :=
  code r = OK /\ responseBuffer r = [].

(** Options that differ in the three thresholds only, those of [relaxed]
    being no stricter. *)
Definition relaxes (relaxed options : PasswordGenerationOptions) : Prop :=
  useUppercase relaxed = useUppercase options
  /\ useLowercase relaxed = useLowercase options
  /\ useDigits relaxed = useDigits options
  /\ useSymbols relaxed = useSymbols options
  /\ symbols relaxed = symbols options
  /\ JsNumber.leb (minDigitProportion relaxed) (minDigitProportion options) = true
  /\ JsNumber.leb (minSymbolProportion relaxed) (minSymbolProportion options) = true
  /\ JsNumber.leb (maxCaseVariance options) (maxCaseVariance relaxed) = true.

(** The worker after [k] more bytes of the pool were read. *)
Definition workerAfterReads (w : worker) (k : N) : worker :=
  {| buffer := buffer w;
     numRead := numRead w + k;
     regenerationPromise := regenerationPromise w;
     promises := promises w;
     listeners := listeners w;
     posted := posted w;
     unanswered := unanswered w |}.

(** [n] calls made one after the other, the answer [r] of the main thread,
    then the calls resumed in the order in which they were made. *)
Definition callsThenAnswer (n : nat) (r : response) : list event :=
  repeat Call n ++ [Respond r] ++ map Resume (seq 0 n).

(** The three answers to a REQUEST_GENERATE_PASSWORD. *)
Definition isGenerateResponse (m : postedMessage) : Prop :=
  match m with
  | REQUEST_GET_RANDOM_BYTES => False
  | _ => True
  end.

(** A delta that disables the four classes. *)
Definition disableAllClasses : OptionsDelta :=
  {| deltaPasswordLength := None;
     deltaUseUppercase := Some false;
     deltaUseLowercase := Some false;
     deltaUseDigits := Some false;
     deltaUseSymbols := Some false;
     deltaSymbols := None;
     deltaMinDigitProportion := None;
     deltaMinSymbolProportion := None;
     deltaMaxCaseVariance := None |}.

(** A delta that sets the length and the minimum proportion of digits. *)
Definition setLengthAndDigits (length : nat) (minDigits : JsNumber.number) : OptionsDelta :=
  {| deltaPasswordLength := Some length;
     deltaUseUppercase := None;
     deltaUseLowercase := None;
     deltaUseDigits := None;
     deltaUseSymbols := None;
     deltaSymbols := None;
     deltaMinDigitProportion := Some minDigits;
     deltaMinSymbolProportion := None;
     deltaMaxCaseVariance := None |}.

(** A delta that changes nothing. *)
Definition noChange : OptionsDelta :=
  {| deltaPasswordLength := None;
     deltaUseUppercase := None;
     deltaUseLowercase := None;
     deltaUseDigits := None;
     deltaUseSymbols := None;
     deltaSymbols := None;
     deltaMinDigitProportion := None;
     deltaMinSymbolProportion := None;
     deltaMaxCaseVariance := None |}.

(** A deduplication of the characters of a string that keeps the first
    occurrence of each, to run [onOptionsChange] on concrete options. *)
Fixpoint keepFirstOccurrences (seen : list ascii) (s : string) : string :=
  match s with
  | EmptyString => EmptyString
  | String c s' =>
      if existsb (Ascii.eqb c) seen then keepFirstOccurrences seen s'
      else String c (keepFirstOccurrences (c :: seen) s')
  end.

Definition firstOccurrences : DuplicateRemover := keepFirstOccurrences [].

(* ================================================================= *)
(** * Theorems *)
(* ================================================================= *)

(** ** Doubles *)

(** *** Signs *)

Lemma shr_1_nonneg (mrs : shr_record) : 0 <= shr_m mrs -> 0 <= shr_m (shr_1 mrs).
Proof.
  destruct mrs as [m r s0]. destruct m as [|p|p]; simpl; intros Hm; try lia.
  - destruct p; simpl; lia.
Qed.

Lemma iter_pos_shr_1_nonneg (p : positive) (mrs : shr_record) :
  0 <= shr_m mrs -> 0 <= shr_m (iter_pos shr_1 p mrs).
Proof.
  revert mrs. induction p as [p IH|p IH|]; intros mrs Hm; simpl.
  - apply IH, IH. now apply shr_1_nonneg.
  - now apply IH, IH.
  - now apply shr_1_nonneg.
Qed.

Lemma shr_fexp_nonneg (m e : Z) (l : location) :
  0 <= m -> 0 <= shr_m (fst (shr_fexp JsNumber.prec JsNumber.emax m e l)).
Proof.
  intros Hm. unfold shr_fexp, shr.
  assert (H0 : 0 <= shr_m (shr_record_of_loc m l)) by (destruct l as [|[]]; exact Hm).
  destruct (fexp JsNumber.prec JsNumber.emax (Zdigits2 m + e) - e) as [|p|p];
    simpl; try exact H0.
  now apply iter_pos_shr_1_nonneg.
Qed.

Lemma round_nearest_even_nonneg (m : Z) (l : location) :
  0 <= m -> 0 <= round_nearest_even m l.
Proof.
  intros Hm. destruct l as [|[]]; simpl; try lia. destruct (Z.even m); lia.
Qed.

(** Rounding keeps the sign, and never gives [NaN]. *)
Lemma binary_round_aux_signed (s : bool) (m e : Z) (l : location) :
  0 <= m -> signed s (binary_round_aux JsNumber.prec JsNumber.emax s m e l).
Proof.
  intros Hm. unfold binary_round_aux.
  pose proof (shr_fexp_nonneg m e l Hm) as H1.
  destruct (shr_fexp JsNumber.prec JsNumber.emax m e l) as [mrs' e'].
  simpl in H1.
  pose proof (shr_fexp_nonneg _ e' loc_Exact
                (round_nearest_even_nonneg _ (loc_of_shr_record mrs') H1)) as H2.
  destruct (shr_fexp JsNumber.prec JsNumber.emax
              (round_nearest_even (shr_m mrs') (loc_of_shr_record mrs')) e' loc_Exact)
    as [mrs'' e''].
  simpl in H2. destruct (shr_m mrs'') as [|p|p]; [reflexivity | | lia].
  destruct (e'' <=? JsNumber.emax - JsNumber.prec); reflexivity.
Qed.



Lemma leb_signed (x y : JsNumber.number) :
  signed true x -> signed false y -> JsNumber.leb x y = true.
Proof.
  destruct x as [sx|sx| |sx mx ex], y as [sy|sy| |sy my ey]; simpl;
    intros Hx Hy; try contradiction; subst; reflexivity.
Qed.


(** *** Comparisons *)

(** Every comparison with [NaN] is false. *)
Lemma geb_NaN (m : JsNumber.number) : JsNumber.geb JsNumber.NaN m = false.
Proof. now destruct m. Qed.

Lemma leb_NaN (m : JsNumber.number) : JsNumber.leb JsNumber.NaN m = false.
Proof. reflexivity. Qed.

Lemma geb_NaN_r (x : JsNumber.number) : JsNumber.geb x JsNumber.NaN = false.
Proof. reflexivity. Qed.

Lemma leb_NaN_r (x : JsNumber.number) : JsNumber.leb x JsNumber.NaN = false.
Proof. now destruct x. Qed.

(** [0 / 0] is [NaN]. *)
Lemma div_0_0 : JsNumber.div (JsNumber.ofNat 0) (JsNumber.ofNat 0) = JsNumber.NaN.
Proof. reflexivity. Qed.

(** The order of two numbers of the same sign is the order of their
    exponents and then of their mantissas. *)
Lemma lex_compare_trans (e1 e2 e3 : Z) (m1 m2 m3 : positive) :
  match e1 ?= e2 with Lt => Lt | Gt => Gt | Eq => Pos.compare_cont Eq m1 m2 end <> Gt ->
  match e2 ?= e3 with Lt => Lt | Gt => Gt | Eq => Pos.compare_cont Eq m2 m3 end <> Gt ->
  match e1 ?= e3 with Lt => Lt | Gt => Gt | Eq => Pos.compare_cont Eq m1 m3 end <> Gt.
Proof.
  change (Pos.compare_cont Eq m1 m2) with (Pos.compare m1 m2).
  change (Pos.compare_cont Eq m2 m3) with (Pos.compare m2 m3).
  change (Pos.compare_cont Eq m1 m3) with (Pos.compare m1 m3).
  destruct (Z.compare_spec e1 e2), (Z.compare_spec e2 e3), (Z.compare_spec e1 e3);
    try lia; try congruence;
    destruct (Pos.compare_spec m1 m2), (Pos.compare_spec m2 m3), (Pos.compare_spec m1 m3);
    try lia; congruence.
Qed.

Lemma leb_finite_pos (m1 m2 : positive) (e1 e2 : Z) :
  JsNumber.leb (S754_finite false m1 e1) (S754_finite false m2 e2) = true
  <-> match e1 ?= e2 with Lt => Lt | Gt => Gt | Eq => Pos.compare_cont Eq m1 m2 end <> Gt.
Proof.
  unfold JsNumber.leb, SFleb, SFcompare.
  destruct (match e1 ?= e2 with Lt => Lt | Gt => Gt | Eq => Pos.compare_cont Eq m1 m2 end);
    split; congruence.
Qed.

Lemma leb_finite_neg (m1 m2 : positive) (e1 e2 : Z) :
  JsNumber.leb (S754_finite true m1 e1) (S754_finite true m2 e2) = true
  <-> match e2 ?= e1 with Lt => Lt | Gt => Gt | Eq => Pos.compare_cont Eq m2 m1 end <> Gt.
Proof.
  unfold JsNumber.leb, SFleb, SFcompare.
  change (Pos.compare_cont Eq m1 m2) with (Pos.compare m1 m2).
  change (Pos.compare_cont Eq m2 m1) with (Pos.compare m2 m1).
  rewrite (Z.compare_antisym e1 e2), (Pos.compare_antisym m1 m2).
  destruct (e1 ?= e2); simpl; try (split; congruence).
  destruct (m1 ?= m2)%positive; simpl; split; congruence.
Qed.

(** [<=] on numbers is transitive. *)
Lemma leb_trans (x y z : JsNumber.number) :
  JsNumber.leb x y = true -> JsNumber.leb y z = true -> JsNumber.leb x z = true.
Proof.
  destruct x as [sx|sx| |sx mx ex], y as [sy|sy| |sy my ey], z as [sz|sz| |sz mz ez];
    try (destruct sx); try (destruct sy); try (destruct sz);
    try (intros; reflexivity); try (intros; discriminate).
  - rewrite !leb_finite_neg. intros H1 H2. eapply lex_compare_trans; eassumption.
  - rewrite !leb_finite_pos. apply lex_compare_trans.
Qed.

(** *** Rounding keeps the order *)

(** The number of binary digits of a positive integer. *)
Lemma digits2_pos_bounds (p : positive) :
  2 ^ (Z.pos (digits2_pos p) - 1) <= Z.pos p < 2 ^ Z.pos (digits2_pos p).
Proof.
  induction p as [p IH|p IH|]; cbn [digits2_pos].
  - rewrite Pos2Z.inj_succ. change (Z.pos p~1) with (2 * Z.pos p + 1).
    replace (Z.succ (Z.pos (digits2_pos p)) - 1)
      with (Z.succ (Z.pos (digits2_pos p) - 1)) by lia.
    rewrite !Z.pow_succ_r by lia.
    remember (2 ^ (Z.pos (digits2_pos p) - 1)) as A.
    remember (2 ^ Z.pos (digits2_pos p)) as B. clear HeqA HeqB. lia.
  - rewrite Pos2Z.inj_succ. change (Z.pos p~0) with (2 * Z.pos p).
    replace (Z.succ (Z.pos (digits2_pos p)) - 1)
      with (Z.succ (Z.pos (digits2_pos p) - 1)) by lia.
    rewrite !Z.pow_succ_r by lia.
    remember (2 ^ (Z.pos (digits2_pos p) - 1)) as A.
    remember (2 ^ Z.pos (digits2_pos p)) as B. clear HeqA HeqB. lia.
  - simpl. lia.
Qed.

Lemma shr_1_shifted (P k : Z) (mrs : shr_record) :
  0 <= k -> shifted P k mrs -> shifted P (k + 1) (shr_1 mrs).
Proof.
  intros Hk (t & HP & Ht & Hs & Hm). destruct mrs as [m r s]. cbn [shr_m shr_r shr_s] in *.
  assert (HK : 0 < 2 ^ k) by (apply Z.pow_pos_nonneg; lia).
  unfold shifted.
  replace (k + 1 + 1) with (Z.succ (Z.succ k)) by lia.
  replace (k + 1) with (Z.succ k) in * by lia.
  rewrite !Z.pow_succ_r in * by lia.
  remember (2 ^ k) as K eqn:HeqK. clear HeqK.
  exists ((if r then K else 0) + t).
  assert (Hs' : (r || s)%bool = true <-> 0 < (if r then K else 0) + t).
  { destruct r, s; simpl; split; intros Hx; try reflexivity; try lia;
      try discriminate; try (apply Hs; lia);
      try (assert (0 < t) by (now apply Hs); lia). }
  destruct m as [|[p|p|]|p]; cbn [shr_1 shr_m shr_r shr_s]; try lia.
  - repeat split; try (destruct r; lia); try apply Hs'; lia.
  - change (Z.pos p~1) with (2 * Z.pos p + 1) in HP. repeat split; try (destruct r; lia); try apply Hs'; lia.
  - change (Z.pos p~0) with (2 * Z.pos p) in HP. repeat split; try (destruct r; lia); try apply Hs'; lia.
  - repeat split; try (destruct r; lia); try apply Hs'; lia.
Qed.

Lemma iter_pos_shr_1_shifted (P : Z) (p : positive) :
  forall k mrs, 0 <= k -> shifted P k mrs ->
                shifted P (k + Z.pos p) (iter_pos shr_1 p mrs).
Proof.
  induction p as [p IH|p IH|]; intros k mrs Hk Hsh; cbn [iter_pos].
  - replace (k + Z.pos p~1) with (k + 1 + Z.pos p + Z.pos p) by lia.
    apply IH; [lia|]. apply IH; [lia|]. now apply shr_1_shifted.
  - replace (k + Z.pos p~0) with (k + Z.pos p + Z.pos p) by lia.
    apply IH; [lia|]. now apply IH.
  - now apply shr_1_shifted.
Qed.

Lemma shifted_rounds (P k : Z) (mrs : shr_record) :
  0 <= k -> shifted P k mrs ->
  rounds P k (round_nearest_even (shr_m mrs) (loc_of_shr_record mrs)).
Proof.
  intros Hk (t & HP & Ht & Hs & Hm). destruct mrs as [m r s]. cbn [shr_m shr_r shr_s] in *.
  assert (HK : 0 < 2 ^ k) by (apply Z.pow_pos_nonneg; lia).
  unfold rounds.
  replace (k + 1) with (Z.succ k) in * by lia.
  rewrite !Z.pow_succ_r in * by lia.
  remember (2 ^ k) as K eqn:HeqK. clear HeqK.
  destruct r, s; cbn [loc_of_shr_record round_nearest_even].
  - assert (0 < t) by now apply Hs. split; [lia|]. split; [nia|]. intros [H1|H1]; nia.
  - assert (t = 0).
    { destruct (Z.eq_dec t 0) as [|Hne]; [assumption|].
      assert (Ht0 : 0 < t) by lia. apply Hs in Ht0. discriminate. }
    subst t. destruct (Z.even m) eqn:Hev.
    + split; [lia|]. split; [nia|]. intros _. exact Hev.
    + split; [lia|]. split; [nia|]. intros _.
      rewrite Z.even_add, Hev. reflexivity.
  - assert (0 < t) by now apply Hs. split; [lia|]. split; [nia|]. intros [H1|H1]; nia.
  - assert (t = 0).
    { destruct (Z.eq_dec t 0) as [|Hne]; [assumption|].
      assert (Ht0 : 0 < t) by lia. apply Hs in Ht0. discriminate. }
    subst t. split; [lia|]. split; [nia|]. intros [H1|H1]; nia.
Qed.

Lemma fexp_eq (e : Z) :
  fexp JsNumber.prec JsNumber.emax e = Z.max (e - 53) (-1074).
Proof. reflexivity. Qed.

Lemma shifted_0 (P : Z) :
  0 <= P -> shifted P 0 {| shr_m := P; shr_r := false; shr_s := false |}.
Proof.
  intros HP. exists 0. cbn [shr_m shr_r shr_s]. change (2 ^ (0 + 1)) with 2.
  change (2 ^ 0) with 1. repeat split; try lia; discriminate.
Qed.

(** What [binary_round_aux] makes of an integer [P] at the exponent [E]
    when bits have to go. *)
Lemma binary_round_aux_rounded (P : positive) (E : Z) :
  let f := fexp JsNumber.prec JsNumber.emax (Z.pos (digits2_pos P) + E) in
  E < f ->
  exists N,
    rounds (Z.pos P) (f - E) N /\ N <= 2 ^ 53
    /\ forall s, binary_round_aux JsNumber.prec JsNumber.emax s (Z.pos P) E loc_Exact
                 = rounded s N f.
Proof.
  intros f HE.
  pose proof (fexp_eq (Z.pos (digits2_pos P) + E)) as Hf. fold f in Hf.
  pose proof (digits2_pos_bounds P) as HdP.
  assert (Hp : exists p, f - E = Z.pos p)
    by (destruct (f - E) as [|p|p] eqn:Hp; try lia; now exists p).
  destruct Hp as [p Hp].
  pose proof (iter_pos_shr_1_shifted (Z.pos P) p 0 _ (Z.le_refl 0)
                (shifted_0 (Z.pos P) ltac:(lia))) as Hsh.
  cbn [Z.add] in Hsh.
  set (mrs' := iter_pos shr_1 p {| shr_m := Z.pos P; shr_r := false; shr_s := false |}) in *.
  pose proof (shifted_rounds (Z.pos P) (Z.pos p) mrs' ltac:(lia) Hsh) as Hr.
  set (N := round_nearest_even (shr_m mrs') (loc_of_shr_record mrs')) in *.
  assert (HN : N <= 2 ^ 53).
  { destruct Hr as (HN0 & [Hlo Hhi] & _).
    assert (Hpow : 2 ^ Z.pos (digits2_pos P) <= 2 ^ Z.pos p * 2 ^ 53).
    { rewrite <- Z.pow_add_r by lia. apply Z.pow_le_mono_r; lia. }
    assert (HK : 0 < 2 ^ Z.pos p) by (apply Z.pow_pos_nonneg; lia).
    remember (2 ^ Z.pos p) as K eqn:HeqK. clear HeqK.
    remember (2 ^ Z.pos (digits2_pos P)) as D eqn:HeqD. clear HeqD.
    change (2 ^ 53) with 9007199254740992 in *. nia. }
  exists N. rewrite Hp. split; [exact Hr|]. split; [exact HN|].
  intros s.
  unfold binary_round_aux, shr_fexp. cbn [Zdigits2 shr_record_of_loc]. fold f.
  unfold shr at 1. rewrite Hp. fold mrs'. fold N.
  replace (E + Z.pos p) with f by lia.
  destruct Hr as (HN0 & _).
  unfold rounded. destruct N as [|q|q] eqn:HNq; [| | lia].
  - cbn [Zdigits2]. unfold shr.
    destruct (fexp JsNumber.prec JsNumber.emax (0 + f) - f) as [|p'|p'] eqn:Hp';
      try reflexivity.
    rewrite fexp_eq in Hp'. lia.
  - destruct (Z.ltb_spec (Z.pos q) (2 ^ 53)) as [Hlt|Hge].
    + cbn [Zdigits2]. unfold shr.
      pose proof (digits2_pos_bounds q) as Hdq.
      assert (Hd : Z.pos (digits2_pos q) <= 53).
      { destruct (Z.le_gt_cases (Z.pos (digits2_pos q)) 53) as [|Hgt]; [assumption|].
        assert (2 ^ 53 <= 2 ^ (Z.pos (digits2_pos q) - 1))
          by (apply Z.pow_le_mono_r; lia).
        lia. }
      destruct (fexp JsNumber.prec JsNumber.emax (Z.pos (digits2_pos q) + f) - f)
        as [|p'|p'] eqn:Hp'; try reflexivity.
      rewrite fexp_eq in Hp'. lia.
    + assert (Hq : q = 9007199254740992%positive).
      { change (2 ^ 53) with 9007199254740992 in *. lia. }
      subst q. cbn [Zdigits2].
      change (Z.pos (digits2_pos 9007199254740992)) with 54.
      unfold shr.
      replace (fexp JsNumber.prec JsNumber.emax (54 + f) - f) with 1
        by (rewrite fexp_eq; lia).
      reflexivity.
Qed.

(** Rounding to the same exponent keeps the order. *)
Lemma rounds_monotone (P P' k k' a a' N N' : Z) :
  0 <= k -> 0 <= k' -> 0 <= a -> 0 <= a' -> k + a = k' + a' ->
  P * 2 ^ a <= P' * 2 ^ a' ->
  rounds P k N -> rounds P' k' N' -> N <= N'.
Proof.
  intros Hk Hk' Ha Ha' Hg Hle (HN & [Hlo _] & Htie) (HN' & [_ Hhi'] & Htie').
  assert (HG : 2 ^ k * 2 ^ a = 2 ^ k' * 2 ^ a')
    by (rewrite <- !Z.pow_add_r by lia; now rewrite Hg).
  assert (HK : 0 < 2 ^ k) by (apply Z.pow_pos_nonneg; lia).
  assert (HK' : 0 < 2 ^ k') by (apply Z.pow_pos_nonneg; lia).
  assert (HA : 0 < 2 ^ a) by (apply Z.pow_pos_nonneg; lia).
  assert (HA' : 0 < 2 ^ a') by (apply Z.pow_pos_nonneg; lia).
  remember (2 ^ k) as K eqn:E1. remember (2 ^ k') as K' eqn:E2.
  remember (2 ^ a) as A eqn:E3. remember (2 ^ a') as A' eqn:E4.
  clear E1 E2 E3 E4.
  assert (H1 : (2 * N - 1) * (K * A) <= 2 * P * A) by nia.
  assert (H2 : 2 * P' * A' <= (2 * N' + 1) * (K * A)) by (rewrite HG; nia).
  assert (HGpos : 0 < K * A) by nia.
  destruct (Z.le_gt_cases N N') as [|Hgt]; [assumption | exfalso].
  assert (HNN : N = N' + 1) by nia. subst N.
  assert (HP : 2 * P = (2 * (N' + 1) - 1) * K) by nia.
  assert (HP' : 2 * P' = (2 * N' + 1) * K') by nia.
  specialize (Htie (or_introl HP)). specialize (Htie' (or_intror HP')).
  rewrite Z.even_add, Htie' in Htie. discriminate.
Qed.

Lemma digits_monotone (P P' : positive) (a a' : Z) :
  0 <= a -> 0 <= a' -> Z.pos P * 2 ^ a <= Z.pos P' * 2 ^ a' ->
  Z.pos (digits2_pos P) + a <= Z.pos (digits2_pos P') + a'.
Proof.
  intros Ha Ha' Hle.
  pose proof (digits2_pos_bounds P) as [HP _].
  pose proof (digits2_pos_bounds P') as [_ HP'].
  assert (H : 2 ^ (Z.pos (digits2_pos P) - 1 + a) < 2 ^ (Z.pos (digits2_pos P') + a')).
  { rewrite !Z.pow_add_r by lia.
    assert (HA : 0 < 2 ^ a) by (apply Z.pow_pos_nonneg; lia).
    assert (HA' : 0 < 2 ^ a') by (apply Z.pow_pos_nonneg; lia).
    remember (2 ^ a) as A eqn:E1. remember (2 ^ a') as A' eqn:E2.
    remember (2 ^ (Z.pos (digits2_pos P) - 1)) as D eqn:E3.
    remember (2 ^ Z.pos (digits2_pos P')) as D' eqn:E4.
    clear E1 E2 E3 E4. nia. }
  apply Z.pow_lt_mono_r_iff in H; lia.
Qed.

(** The order of exponents and mantissas, in arithmetic. *)
Lemma lex_compare_le (e1 e2 : Z) (m1 m2 : positive) :
  match e1 ?= e2 with Lt => Lt | Gt => Gt | Eq => Pos.compare_cont Eq m1 m2 end <> Gt
  <-> e1 < e2 \/ (e1 = e2 /\ Z.pos m1 <= Z.pos m2).
Proof.
  change (Pos.compare_cont Eq m1 m2) with (Pos.compare m1 m2).
  destruct (Z.compare_spec e1 e2); [| split; [intros _; lia | discriminate] |
                                    split; [congruence | lia]].
  destruct (Pos.compare_spec m1 m2); split; try congruence; try lia;
    intros _; right; split; lia.
Qed.

Lemma rounded_leb (N N' f f' : Z) :
  0 <= N <= 2 ^ 53 -> 0 <= N' <= 2 ^ 53 ->
  (f = f' /\ N <= N') \/ (f < f' /\ 2 ^ 52 <= N') ->
  JsNumber.leb (rounded false N f) (rounded false N' f') = true
  /\ JsNumber.leb (rounded true N' f') (rounded true N f) = true.
Proof.
  change (2 ^ 53) with 9007199254740992. change (2 ^ 52) with 4503599627370496.
  intros HN HN' Hcases. unfold rounded.
  destruct N as [|q|q], N' as [|q'|q']; try lia;
    repeat match goal with
           | |- context [Z.ltb ?a ?b] => destruct (Z.ltb_spec a b)
           | |- context [Z.leb ?a ?b] => destruct (Z.leb_spec a b)
           end;
    split; try reflexivity; try lia;
    rewrite ?leb_finite_pos, ?leb_finite_neg, ?lex_compare_le; lia.
Qed.

Lemma binary_round_aux_monotone (P P' : positive) (E E' e0 : Z) :
  e0 <= E -> e0 <= E' ->
  E < fexp JsNumber.prec JsNumber.emax (Z.pos (digits2_pos P) + E) ->
  E' < fexp JsNumber.prec JsNumber.emax (Z.pos (digits2_pos P') + E') ->
  Z.pos P * 2 ^ (E - e0) <= Z.pos P' * 2 ^ (E' - e0) ->
  JsNumber.leb
    (binary_round_aux JsNumber.prec JsNumber.emax false (Z.pos P) E loc_Exact)
    (binary_round_aux JsNumber.prec JsNumber.emax false (Z.pos P') E' loc_Exact) = true
  /\ JsNumber.leb
       (binary_round_aux JsNumber.prec JsNumber.emax true (Z.pos P') E' loc_Exact)
       (binary_round_aux JsNumber.prec JsNumber.emax true (Z.pos P) E loc_Exact) = true.
Proof.
  intros He He' Hf Hf' Hle.
  destruct (binary_round_aux_rounded P E Hf) as (N & Hr & HN & Heq).
  destruct (binary_round_aux_rounded P' E' Hf') as (N' & Hr' & HN' & Heq').
  rewrite !Heq, !Heq'. clear Heq Heq'.
  pose proof (digits_monotone P P' (E - e0) (E' - e0) ltac:(lia) ltac:(lia) Hle) as Ht.
  pose proof (digits2_pos_bounds P') as [HdP' _].
  rewrite !fexp_eq in *.
  set (f := Z.max (Z.pos (digits2_pos P) + E - 53) (-1074)) in *.
  set (f' := Z.max (Z.pos (digits2_pos P') + E' - 53) (-1074)) in *.
  apply rounded_leb.
  - destruct Hr as (H0 & _). lia.
  - destruct Hr' as (H0 & _). lia.
  - destruct (Z.eq_dec f f') as [Hff|Hff].
    + left. split; [exact Hff|].
      apply (rounds_monotone (Z.pos P) (Z.pos P') (f - E) (f' - E') (E - e0) (E' - e0));
        (lia || assumption).
    + right. split; [lia|].
      assert (Hk' : f' - E' = Z.pos (digits2_pos P') - 53) by lia.
      destruct Hr' as (H0 & [_ Hhi] & _). rewrite Hk' in Hhi.
      assert (Hpow : 2 ^ (Z.pos (digits2_pos P') - 1)
                     = 2 ^ (Z.pos (digits2_pos P') - 53) * 2 ^ 52).
      { rewrite <- Z.pow_add_r by lia. f_equal. lia. }
      rewrite Hpow in HdP'.
      assert (HK : 0 < 2 ^ (Z.pos (digits2_pos P') - 53))
        by (apply Z.pow_pos_nonneg; lia).
      remember (2 ^ (Z.pos (digits2_pos P') - 53)) as K eqn:EK. clear EK.
      change (2 ^ 52) with 4503599627370496 in *. nia.
Qed.

Lemma bounded_cases (m : positive) (e : Z) :
  bounded JsNumber.prec JsNumber.emax m e = true ->
  (e = -1074 /\ Z.pos (digits2_pos m) <= 53)
  \/ (Z.pos (digits2_pos m) = 53 /\ -1074 <= e).
Proof.
  unfold bounded, canonical_mantissa.
  rewrite andb_true_iff, Z.eqb_eq, fexp_eq. lia.
Qed.

(** The product of a double and of a double of 53 bits with a negative
    exponent has more bits than a double holds. *)
Lemma product_shifts (mx mc : positive) (ex ec : Z) :
  bounded JsNumber.prec JsNumber.emax mx ex = true ->
  2 ^ 52 <= Z.pos mc -> ec < 0 ->
  ex + ec < fexp JsNumber.prec JsNumber.emax (Z.pos (digits2_pos (mx * mc)) + (ex + ec)).
Proof.
  intros Hb Hmc Hec. rewrite fexp_eq.
  destruct (bounded_cases mx ex Hb) as [[He _]|[Hd He]]; [lia|].
  pose proof (digits2_pos_bounds mx) as [Hmx _]. rewrite Hd in Hmx.
  pose proof (digits2_pos_bounds (mx * mc)) as [_ HP].
  rewrite Pos2Z.inj_mul in HP.
  assert (Hlt : 2 ^ 104 < 2 ^ Z.pos (digits2_pos (mx * mc))).
  { change (53 - 1) with 52 in Hmx.
    change (2 ^ 104) with (2 ^ 52 * 2 ^ 52).
    remember (2 ^ Z.pos (digits2_pos (mx * mc))) as D eqn:ED. clear ED.
    change (2 ^ 52) with 4503599627370496 in *. nia. }
  apply Z.pow_lt_mono_r_iff in Hlt; lia.
Qed.

Lemma mul_finite_monotone (mx my mc : positive) (ex ey ec : Z) :
  bounded JsNumber.prec JsNumber.emax mx ex = true ->
  bounded JsNumber.prec JsNumber.emax my ey = true ->
  2 ^ 52 <= Z.pos mc -> ec < 0 ->
  ex < ey \/ (ex = ey /\ Z.pos mx <= Z.pos my) ->
  JsNumber.leb
    (binary_round_aux JsNumber.prec JsNumber.emax false (Z.pos (mx * mc)) (ex + ec)
                      loc_Exact)
    (binary_round_aux JsNumber.prec JsNumber.emax false (Z.pos (my * mc)) (ey + ec)
                      loc_Exact) = true
  /\ JsNumber.leb
       (binary_round_aux JsNumber.prec JsNumber.emax true (Z.pos (my * mc)) (ey + ec)
                         loc_Exact)
       (binary_round_aux JsNumber.prec JsNumber.emax true (Z.pos (mx * mc)) (ex + ec)
                         loc_Exact) = true.
Proof.
  intros Hbx Hby Hmc Hec Hle.
  apply (binary_round_aux_monotone _ _ _ _ (ex + ec)); try lia;
    try (apply product_shifts; assumption).
  replace (ex + ec - (ex + ec)) with 0 by lia.
  replace (ey + ec - (ex + ec)) with (ey - ex) by lia.
  rewrite !Pos2Z.inj_mul. change (2 ^ 0) with 1.
  destruct Hle as [Hlt|[-> Hm]].
  - pose proof (digits2_pos_bounds mx) as [_ Hmx].
    pose proof (digits2_pos_bounds my) as [Hmy _].
    assert (Hdx : Z.pos (digits2_pos mx) <= 53)
      by (destruct (bounded_cases mx ex Hbx) as [[_ H]|[H _]]; lia).
    assert (Hex : -1074 <= ex)
      by (destruct (bounded_cases mx ex Hbx) as [[H _]|[_ H]]; lia).
    assert (Hdy : Z.pos (digits2_pos my) = 53)
      by (destruct (bounded_cases my ey Hby) as [[H _]|[H _]]; lia).
    rewrite Hdy in Hmy. change (53 - 1) with 52 in Hmy.
    assert (Hmx' : Z.pos mx < 2 ^ 53).
    { eapply Z.lt_le_trans; [exact Hmx|]. apply Z.pow_le_mono_r; lia. }
    assert (H2 : 2 ^ 1 <= 2 ^ (ey - ex)) by (apply Z.pow_le_mono_r; lia).
    change (2 ^ 1) with 2 in H2.
    remember (2 ^ (ey - ex)) as A eqn:EA. clear EA.
    change (2 ^ 53) with 9007199254740992 in *.
    change (2 ^ 52) with 4503599627370496 in *.
    assert (Hxy : Z.pos mx <= Z.pos my * A) by nia.
    rewrite Z.mul_1_r, <- Z.mul_assoc, (Z.mul_comm (Z.pos mc) A), Z.mul_assoc.
    apply Z.mul_le_mono_nonneg_r; lia.
  - replace (ey - ey) with 0 by lia. change (2 ^ 0) with 1. nia.
Qed.

Lemma mul_finite_signed (s : bool) (x : JsNumber.number) (mc : positive) (ec : Z) :
  signed s x -> signed s (JsNumber.mul x (S754_finite false mc ec)).
Proof.
  destruct x as [sx|sx| |sx mx ex]; simpl; intros Hx; try contradiction; subst;
    try (destruct s; reflexivity).
  replace (xorb s false) with s by (now destruct s).
  apply binary_round_aux_signed. lia.
Qed.

Lemma leb_zero_signed (s : bool) (y : JsNumber.number) :
  signed false y -> JsNumber.leb (S754_zero s) y = true.
Proof. destruct y as [sy|sy| |sy my ey]; simpl; intros Hy; subst; easy. Qed.

Lemma leb_signed_zero (s : bool) (x : JsNumber.number) :
  signed true x -> JsNumber.leb x (S754_zero s) = true.
Proof. destruct x as [sx|sx| |sx mx ex]; simpl; intros Hx; subst; easy. Qed.

Lemma leb_signed_infinity (s : bool) (x : JsNumber.number) :
  signed s x -> JsNumber.leb x (S754_infinity false) = true.
Proof. destruct x as [[|]|[|]| |[|] mx ex]; simpl; intros Hx; subst; easy. Qed.

Lemma leb_infinity_signed (s : bool) (y : JsNumber.number) :
  signed s y -> JsNumber.leb (S754_infinity true) y = true.
Proof. destruct y as [[|]|[|]| |[|] my ey]; simpl; intros Hy; subst; easy. Qed.

(** The product by 1000 keeps the order of two doubles. *)
Lemma mul_1000_monotone (x y : JsNumber.number) :
  JsNumber.isDouble x -> JsNumber.isDouble y ->
  JsNumber.leb x y = true ->
  JsNumber.leb (JsNumber.mul x (JsNumber.ofZ 1000)) (JsNumber.mul y (JsNumber.ofZ 1000))
  = true.
Proof.
  change (JsNumber.ofZ 1000) with (S754_finite false 8796093022208000 (-43)).
  unfold JsNumber.isDouble.
  destruct x as [sx|sx| |sx mx ex], y as [sy|sy| |sy my ey];
    cbn [valid_binary]; intros Hx Hy Hle; try discriminate Hle;
    try (destruct sx, sy; try discriminate Hle; reflexivity).
  - destruct sy; [destruct sx; discriminate Hle|].
    apply leb_zero_signed. now apply mul_finite_signed.
  - destruct sx; [| discriminate Hle].
    apply (leb_infinity_signed sy). now apply mul_finite_signed.
  - destruct sx; [| discriminate Hle].
    apply leb_signed_zero. now apply mul_finite_signed.
  - destruct sy; [destruct sx; discriminate Hle|].
    apply (leb_signed_infinity sx). now apply mul_finite_signed.
  - destruct sx, sy; try discriminate Hle.
    + apply leb_finite_neg, lex_compare_le in Hle.
      apply (mul_finite_monotone my mx 8796093022208000 ey ex (-43)); (lia || assumption).
    + apply leb_signed; now apply mul_finite_signed.
    + apply leb_finite_pos, lex_compare_le in Hle.
      apply (mul_finite_monotone mx my 8796093022208000 ex ey (-43)); (lia || assumption).
Qed.

(** ** The validator *)

Lemma classification_eqb_eq (a b : classification) :
  classification_eqb a b = true <-> a = b.
Proof. destruct a, b; simpl; split; congruence. Qed.

Lemma classification_eqb_refl (a : classification) : classification_eqb a a = true.
Proof. now destruct a. Qed.

Section ValidatorFacts.
Context `{CharacterClassifier}.

Lemma count_character_get (m : Map) (c : ascii) (k : classification) :
  get_or_0 (count_character m c) k
  = (get_or_0 m k
     + if classification_eqb (classifyCharacter (N_of_ascii c)) k then 1 else 0)%nat.
Proof.
  unfold count_character, get_or_0, Map_get, Map_set.
  destruct (m (classifyCharacter (N_of_ascii c))) as [n|] eqn:Hm.
  - destruct (classification_eqb k (classifyCharacter (N_of_ascii c))) eqn:Hk.
    + apply classification_eqb_eq in Hk. subst k.
      rewrite classification_eqb_refl, Hm. reflexivity.
    + destruct (classification_eqb (classifyCharacter (N_of_ascii c)) k) eqn:Hk'.
      * apply classification_eqb_eq in Hk'. subst k.
        rewrite classification_eqb_refl in Hk. discriminate.
      * lia.
  - destruct (classification_eqb k (classifyCharacter (N_of_ascii c))) eqn:Hk.
    + apply classification_eqb_eq in Hk. subst k.
      rewrite classification_eqb_refl, Hm. reflexivity.
    + destruct (classification_eqb (classifyCharacter (N_of_ascii c)) k) eqn:Hk'.
      * apply classification_eqb_eq in Hk'. subst k.
        rewrite classification_eqb_refl in Hk. discriminate.
      * lia.
Qed.

Lemma fold_count_character (l : list ascii) (m : Map) (k : classification) :
  get_or_0 (fold_left count_character l m) k
  = (get_or_0 m k
     + List.length
         (filter (fun c => classification_eqb (classifyCharacter (N_of_ascii c)) k) l))%nat.
Proof.
  revert m. induction l as [|c l IH]; intros m; simpl.
  - lia.
  - rewrite IH, count_character_get.
    destruct (classification_eqb (classifyCharacter (N_of_ascii c)) k); simpl; lia.
Qed.

(** The map built by the counting loop holds, for every class, the number
    of characters of the password in that class. *)
Lemma characterCount_classCount (password : string) (k : classification) :
  get_or_0 (characterCount password) k = classCount k password.
Proof.
  unfold characterCount, classCount. rewrite fold_count_character. reflexivity.
Qed.

Lemma length_list_ascii (s : string) :
  List.length (list_ascii_of_string s) = String.length s.
Proof. induction s; simpl; congruence. Qed.

Lemma classCount_le_length (k : classification) (password : string) :
  (classCount k password <= String.length password)%nat.
Proof.
  unfold classCount. rewrite <- length_list_ascii. apply filter_length_le.
Qed.

Lemma symbols_nonempty (s : string) :
  (0 <? String.length s)%nat = true <-> s <> EmptyString.
Proof.
  destruct s; simpl; split; try congruence; try discriminate; reflexivity.
Qed.


End ValidatorFacts.

Section ZeroDenominators.
Context `{CharacterClassifier}.

Lemma length_pos_of_nonempty (s : string) :
  s <> EmptyString -> exists n, String.length s = S n.
Proof. destruct s as [|c s]; [congruence | intros _; now exists (String.length s)]. Qed.

(** C5, as the code has it. For every non-empty password no quotient with
    a zero denominator is evaluated, and [passwordIsValid] agrees with the
    validator that skips such checks; the case-variance quotient is only
    evaluated when there is a letter. The proportion checks are not
    guarded by the length: for the empty password an enabled digit check
    (or, after it, an enabled symbol check) evaluates [0 / 0], which is
    [NaN], the comparison is false, and [passwordIsValid] is true exactly
    when both proportion checks are disabled. *)
Theorem passwordIsValid_zero_denominators (password : string)
        (options : PasswordGenerationOptions) :
  (password <> EmptyString ->
   Forall (fun d => snd d <> 0%nat) (evaluated_divisions password options)
   /\ passwordIsValid password options
      = passwordIsValid_skipping_zero_denominators password options)
  /\ (password = EmptyString ->
      passwordIsValid password options
      = negb (useDigits options)
        && negb (useSymbols options && (0 <? String.length (symbols options))%nat)
      /\ evaluated_divisions password options
         = (if useDigits options then [(0%nat, 0%nat)]
            else if useSymbols options && (0 <? String.length (symbols options))%nat
                 then [(0%nat, 0%nat)] else [])
      /\ evaluated_quotients password options
         = if useDigits options then [JsNumber.NaN]
           else if useSymbols options && (0 <? String.length (symbols options))%nat
                then [JsNumber.NaN] else []).
Proof.
  split.
  - intros Hne. destruct (length_pos_of_nonempty password Hne) as [n Hn]. split.
    + unfold evaluated_divisions. rewrite Hn.
      apply Forall_app; split; [| apply Forall_app; split].
      * destruct (useDigits options); repeat constructor. discriminate.
      * match goal with |- Forall _ (if ?b then _ else _) => destruct b end;
          repeat constructor. discriminate.
      * destruct (get_or_0 (characterCount password) lowercase
                  + get_or_0 (characterCount password) uppercase)%nat as [|k].
        -- change (0 <? 0)%nat with false.
           rewrite andb_false_l, andb_false_r. constructor.
        -- match goal with |- Forall _ (if ?b then _ else _) => destruct b end;
             repeat constructor. discriminate.
    + unfold passwordIsValid, passwordIsValid_skipping_zero_denominators, letterCount,
        caseVariance, proportion.
      rewrite !characterCount_classCount, Hn. reflexivity.
  - intros ->. unfold evaluated_quotients, passwordIsValid, evaluated_divisions.
    change (characterCount EmptyString) with Map_new.
    change (String.length EmptyString) with 0%nat.
    change (get_or_0 Map_new digit) with 0%nat.
    change (get_or_0 Map_new symbol) with 0%nat.
    change (get_or_0 Map_new lowercase) with 0%nat.
    change (get_or_0 Map_new uppercase) with 0%nat.
    change (0 + 0)%nat with 0%nat. change (0 <? 0)%nat with false.
    rewrite div_0_0, !geb_NaN.
    destruct (useDigits options), (useSymbols options),
      (0 <? String.length (symbols options))%nat; repeat split; reflexivity.
Qed.

End ZeroDenominators.

(** ** The sampler: counting the byte values behind each result *)

Section Counting.
Variables span t : Z.
Hypothesis span_pos : 0 < span.
Hypothesis t_range : 0 <= t < span.


End Counting.

Lemma byteValues_split (K : nat) :
  (K <= 256)%nat ->
  byteValues = map Z.of_nat (seq 0 K) ++ map Z.of_nat (seq K (256 - K)).
Proof.
  intros HK. unfold byteValues.
  replace 256%nat with (K + (256 - K))%nat at 1 by lia.
  rewrite seq_app, map_app. reflexivity.
Qed.

Lemma filter_none {A : Type} (f : A -> bool) (l : list A) :
  (forall x, In x l -> f x = false) -> filter f l = [].
Proof.
  induction l as [|a l IH]; intros Hf; simpl; [reflexivity|].
  rewrite (Hf a (or_introl eq_refl)). apply IH. intros x Hx. apply Hf. now right.
Qed.

Lemma filter_all {A : Type} (f : A -> bool) (l : list A) :
  (forall x, In x l -> f x = true) -> filter f l = l.
Proof.
  induction l as [|a l IH]; intros Hf; simpl; [reflexivity|].
  rewrite (Hf a (or_introl eq_refl)). f_equal. apply IH. intros x Hx. apply Hf. now right.
Qed.

Lemma in_map_seq (v : Z) (start len : nat) :
  In v (map Z.of_nat (seq start len))
  <-> Z.of_nat start <= v < Z.of_nat start + Z.of_nat len.
Proof.
  rewrite in_map_iff. split.
  - intros (n & <- & Hn). apply in_seq in Hn. lia.
  - intros Hv. exists (Z.to_nat v). split; [lia | apply in_seq; lia].
Qed.

(** With a positive bound the limit is a number. *)
Lemma limit_pos (b : Z) : 0 < b -> limit b = JInt (256 / b * b - 1).
Proof. intros Hb. unfold limit. destruct (Z.eqb_spec b 0); [lia | reflexivity]. Qed.

Lemma rejected_pos (b v : Z) : 0 < b -> rejected b v = (256 / b * b - 1 <? v).
Proof. intros Hb. unfold rejected. now rewrite limit_pos. Qed.

Lemma sampleOf_pos (b min v : Z) :
  0 < b -> 0 <= v -> sampleOf b min v = JInt (v mod b + min).
Proof.
  intros Hb Hv. unfold sampleOf. destruct (Z.eqb_spec b 0); [lia|].
  now rewrite Z.rem_mod_nonneg by lia.
Qed.

Lemma multiple_le_256 (b : Z) : 0 < b -> 0 <= 256 / b * b <= 256.
Proof.
  intros Hb. pose proof (Z.mul_div_le 256 b Hb).
  pose proof (Z.div_pos 256 b ltac:(lia) Hb). nia.
Qed.

Lemma accepted_length (min max : Z) :
  min <= max ->
  Z.of_nat (List.length (accepted min max))
  = 256 / bound min max * bound min max.
Proof.
  intros Hmm. unfold accepted. set (b := bound min max).
  assert (Hb : 0 < b) by (unfold b, bound; lia).
  pose proof (multiple_le_256 b Hb) as HK.
  rewrite (byteValues_split (Z.to_nat (256 / b * b))) by lia.
  rewrite filter_app, length_app, filter_all, filter_none.
  - rewrite length_map, length_seq. simpl. lia.
  - intros v Hv. apply in_map_seq in Hv. rewrite rejected_pos by exact Hb.
    apply negb_false_iff, Z.ltb_lt. lia.
  - intros v Hv. apply in_map_seq in Hv. rewrite rejected_pos by exact Hb.
    apply negb_true_iff, Z.ltb_ge. lia.
Qed.



(** ** The sampler: what a call returns *)

Lemma byteValue_range (b : byte) : 0 <= byteValue b <= 255.
Proof. unfold byteValue. pose proof (Byte.to_N_bounded b). lia. Qed.

Lemma byteValue_in_byteValues (b : byte) : In (byteValue b) byteValues.
Proof.
  unfold byteValues. apply in_map_seq. pose proof (byteValue_range b). simpl. lia.
Qed.

(** More fuel does not change a result. *)
Lemma getRandomByte_fuel (fuel fuel' : nat) (w : world) :
  (fuel <= fuel')%nat -> getRandomByte fuel w <> OutOfFuel ->
  getRandomByte fuel' w = getRandomByte fuel w.
Proof.
  revert fuel' w. induction fuel as [|fuel IH]; intros fuel' w Hle Hres.
  - simpl in Hres. congruence.
  - destruct fuel' as [|fuel']; [lia|]. simpl in *.
    destruct (if (bufferLength (wk w) <=? numRead (wk w))%N
              then let (w', p) := regenerateRandomPool (wk w) in
                   awaitPromise p (inbox w) w'
              else Continue (wk w) (inbox w)) as [w1 ib|m w1 ib|]; try reflexivity.
    destruct (readOrRetry w1) as [w2 [ | p | b | m]]; try reflexivity;
      apply IH; (lia || assumption).
Qed.

Lemma getRandomByteInRange_unfold (fuel : nat) (min max : Z) (w : world) :
  getRandomByteInRange (S fuel) min max w
  = let* (randomUint8, w1) := getRandomByte (S fuel) w in
    if rejected (bound min max) (byteValue randomUint8)
    then getRandomByteInRange fuel min max w1
    else Returned (sampleOf (bound min max) min (byteValue randomUint8)) w1.
Proof. reflexivity. Qed.

Lemma getRandomByteInRange_in_range (fuel : nat) (min max : Z) (w w' : world) (r : jsint) :
  min <= max ->
  getRandomByteInRange fuel min max w = Returned r w' ->
  exists z, r = JInt z /\ min <= z <= max.
Proof.
  intros Hmm. revert w. induction fuel as [|fuel IH]; intros w Hret.
  - discriminate.
  - rewrite getRandomByteInRange_unfold in Hret.
    destruct (getRandomByte (S fuel) w) as [b w1|m w1| |]; try discriminate.
    cbn [bind] in Hret.
    destruct (rejected (bound min max) (byteValue b)).
    + now apply (IH w1).
    + injection Hret as <- _.
      assert (Hb : 0 < bound min max) by (unfold bound; lia).
      pose proof (byteValue_range b).
      rewrite sampleOf_pos by lia.
      pose proof (Z.mod_pos_bound (byteValue b) (bound min max) Hb).
      eexists; split; [reflexivity|]. unfold bound in *. lia.
Qed.

(** The bytes drawn by a call that returns: all but the last are rejected,
    the last is accepted and gives the result. *)
Lemma getRandomByteInRange_draws (fuel n : nat) (min max : Z) (w w' : world)
      (bs : list byte) (b : byte) :
  getRandomBytes fuel (S n) w = Returned (bs ++ [b]) w' ->
  Forall (fun x => rejected (bound min max) (byteValue x) = true) bs ->
  rejected (bound min max) (byteValue b) = false ->
  forall fuel', (fuel + n <= fuel')%nat ->
  getRandomByteInRange fuel' min max w
  = Returned (sampleOf (bound min max) min (byteValue b)) w'.
Proof.
  revert w bs. induction n as [|n IH]; intros w bs Hdraw Hrej Hacc fuel' Hfuel.
  - simpl in Hdraw.
    destruct (getRandomByte fuel w) as [b0 w1|m w1| |] eqn:Hb0; try discriminate.
    simpl in Hdraw. injection Hdraw as Hbs Hw. subst w1.
    destruct bs as [|x [|y bs]]; try discriminate.
    injection Hbs as ->.
    destruct fuel' as [|fuel']; [destruct fuel; [discriminate | lia]|].
    rewrite getRandomByteInRange_unfold.
    rewrite (getRandomByte_fuel fuel (S fuel')), Hb0 by (lia || congruence).
    cbn [bind]. now rewrite Hacc.
  - change (getRandomBytes fuel (S (S n)) w)
      with (let* (b, w1) := getRandomByte fuel w in
            let* (bs, w2) := getRandomBytes fuel (S n) w1 in
            Returned (b :: bs) w2) in Hdraw.
    destruct (getRandomByte fuel w) as [b0 w1|m w1| |] eqn:Hb0; try discriminate.
    cbn [bind] in Hdraw.
    destruct (getRandomBytes fuel (S n) w1) as [bs1 w2|m w2| |] eqn:Hrest;
      try discriminate.
    cbn [bind] in Hdraw. injection Hdraw as Hbs Hw. subst w2.
    destruct bs as [|x bs'].
    + simpl in Hbs. injection Hbs as _ Hnil. subst bs1. simpl in Hrest.
      destruct (getRandomByte fuel w1) as [b1 w3|? ?| |]; try discriminate.
      cbn [bind] in Hrest.
      destruct (getRandomBytes fuel n w3) as [? ?|? ?| |]; discriminate.
    + simpl in Hbs. injection Hbs as -> ->.
      inversion Hrej as [|? ? Hx Hrej']; subst.
      destruct fuel' as [|fuel']; [lia|].
      rewrite getRandomByteInRange_unfold.
      rewrite (getRandomByte_fuel fuel (S fuel')), Hb0 by (lia || congruence).
      cbn [bind]. rewrite Hx.
      apply (IH w1 bs'); (assumption || lia).
Qed.

(** C2. For [0 <= min <= max <= 255], with [span = max - min + 1] and
    [limit = floor(256 / span) * span - 1]: a call draws a byte from the pool,
    draws again while the byte is greater than [limit], and returns
    [(byte mod span) + min] for the first byte that is not; the result lies
    in [[min, max]]. When [span = 256] the limit is 255 and no byte is
    rejected. *)
Theorem getRandomByteInRange_rejection_sampling (min max : Z) :
  0 <= min -> min <= max -> max <= 255 ->
  let span := max - min + 1 in
  let limit_ := 256 / span * span - 1 in
  bound min max = span
  /\ limit span = JInt limit_
  /\ (forall fuel w,
         getRandomByteInRange (S fuel) min max w
         = let* (randomUint8, w1) := getRandomByte (S fuel) w in
           if limit_ <? byteValue randomUint8
           then getRandomByteInRange fuel min max w1
           else Returned (JInt (byteValue randomUint8 mod span + min)) w1)
  /\ (forall fuel n w w' bs b,
         getRandomBytes fuel (S n) w = Returned (bs ++ [b]) w' ->
         Forall (fun x => limit_ < byteValue x) bs ->
         byteValue b <= limit_ ->
         forall fuel', (fuel + n <= fuel')%nat ->
         getRandomByteInRange fuel' min max w
         = Returned (JInt (byteValue b mod span + min)) w'
           /\ min <= byteValue b mod span + min <= max)
  /\ (forall fuel w w' r,
         getRandomByteInRange fuel min max w = Returned r w' ->
         exists z, r = JInt z /\ min <= z <= max)
  /\ (span = 256 ->
      limit_ = 255 /\ forall b, rejected span (byteValue b) = false).
Proof.
  intros Hmin Hmm Hmax span limit_.
  assert (Hspan : 0 < span) by (unfold span; lia).
  split; [reflexivity|]. split; [now apply limit_pos|].
  split; [| split; [| split]].
  - intros fuel w. rewrite getRandomByteInRange_unfold.
    destruct (getRandomByte (S fuel) w) as [b w1|m w1| |]; try reflexivity.
    cbn [bind]. change (bound min max) with span.
    rewrite rejected_pos by exact Hspan. fold limit_.
    rewrite sampleOf_pos by (exact Hspan || apply byteValue_range). reflexivity.
  - intros fuel n w w' bs b Hdraw Hrej Hacc fuel' Hfuel.
    rewrite (getRandomByteInRange_draws fuel n min max w w' bs b Hdraw); try exact Hfuel.
    + change (bound min max) with span.
      rewrite sampleOf_pos by (exact Hspan || apply byteValue_range).
      split; [reflexivity|].
      pose proof (Z.mod_pos_bound (byteValue b) span Hspan). unfold span in *. lia.
    + eapply Forall_impl; [| exact Hrej]. intros x Hx. cbv beta in Hx.
      change (bound min max) with span. rewrite rejected_pos by exact Hspan.
      apply Z.ltb_lt. exact Hx.
    + change (bound min max) with span. rewrite rejected_pos by exact Hspan.
      apply Z.ltb_ge. exact Hacc.
  - intros fuel w w' r Hret.
    now apply (getRandomByteInRange_in_range fuel min max w w' r Hmm).
  - intros H256. split.
    + unfold limit_. rewrite H256. reflexivity.
    + intros b. rewrite rejected_pos by exact Hspan. rewrite H256.
      apply Z.ltb_ge. pose proof (byteValue_range b).
      change (256 / 256 * 256 - 1) with 255. lia.
Qed.

(** ** The generation loop *)

Lemma length_append (s1 s2 : string) :
  String.length (s1 ++ s2) = (String.length s1 + String.length s2)%nat.
Proof. induction s1 as [|c s1 IH]; simpl; congruence. Qed.

Lemma list_ascii_append (s1 s2 : string) :
  list_ascii_of_string (s1 ++ s2)
  = list_ascii_of_string s1 ++ list_ascii_of_string s2.
Proof. induction s1 as [|c s1 IH]; simpl; congruence. Qed.

Lemma get_some_in (s : string) (n : nat) (c : ascii) :
  String.get n s = Some c -> In c (list_ascii_of_string s).
Proof.
  revert n. induction s as [|a s IH]; intros n Hget; simpl in *.
  - discriminate.
  - destruct n as [|n]; [injection Hget as ->; now left | right; eauto].
Qed.

Lemma get_in_range (s : string) (n : nat) :
  (n < String.length s)%nat -> exists c, String.get n s = Some c.
Proof.
  revert n. induction s as [|a s IH]; intros n Hn; simpl in *.
  - lia.
  - destruct n as [|n]; [now exists a | apply IH; lia].
Qed.

(** With an index inside the string, [characters[i]] is one character of
    the string. *)
Lemma characterAt_in_range (characters : string) (z : Z) :
  0 <= z <= Z.of_nat (String.length characters) - 1 ->
  exists c, characterAt characters (JInt z) = String c EmptyString
            /\ In c (list_ascii_of_string characters).
Proof.
  intros Hz. unfold characterAt.
  destruct (Z.ltb_spec z 0); [lia|].
  destruct (get_in_range characters (Z.to_nat z)) as [c Hc]; [lia|].
  rewrite Hc. exists c. split; [reflexivity | eapply get_some_in; eassumption].
Qed.

(** The loop of [generateRandomString] appends one character of a non-empty
    alphabet per iteration. *)
Lemma generateRandomString_loop_spec (fuel remaining : nat) (characters acc : string)
      (w w' : world) (s : string) :
  characters <> EmptyString ->
  generateRandomString_loop fuel remaining characters acc w = Returned s w' ->
  String.length s = (String.length acc + remaining)%nat
  /\ forall c, In c (list_ascii_of_string s) ->
               In c (list_ascii_of_string acc) \/ In c (list_ascii_of_string characters).
Proof.
  intros Hne. revert acc w.
  induction remaining as [|remaining IH]; intros acc w Hret; simpl in Hret.
  - injection Hret as <- _. split; [lia | tauto].
  - destruct (getRandomByteInRange fuel 0 (Z.of_nat (String.length characters) - 1) w)
      as [i w1|m w1| |] eqn:Hi; try discriminate.
    cbn [bind] in Hret.
    assert (Hlen : (0 < String.length characters)%nat)
      by (destruct characters; [congruence | simpl; lia]).
    assert (Hmm : 0 <= Z.of_nat (String.length characters) - 1) by lia.
    destruct (getRandomByteInRange_in_range _ _ _ _ _ _ Hmm Hi) as (z & -> & Hz).
    destruct (characterAt_in_range characters z Hz) as (c & Hc & Hin).
    rewrite Hc in Hret. apply IH in Hret. destruct Hret as [Hl Hchars].
    rewrite length_append in Hl. simpl in Hl. split; [lia|].
    intros c' Hc'. destruct (Hchars c' Hc') as [Hacc|Hch]; [| now right].
    rewrite list_ascii_append in Hacc. apply in_app_or in Hacc.
    destruct Hacc as [Hacc|[<-|[]]]; [now left | now right].
Qed.

Section GeneratorFacts.
Context `{CharacterClassifier} `{Clock}.

Lemma generatePassword_loop_unfold (fuel : nat) (options : PasswordGenerationOptions)
      (timeout : JsNumber.number) (startTime : Z) (characters : string) (w : world) :
  generatePassword_loop (S fuel) options timeout startTime characters w
  = let* (password, w1) :=
       generateRandomString (S fuel) (passwordLength options) characters w in
    let (now, w2) := readClock w1 in
    if timedOut startTime now timeout then Returned None w2
    else if passwordIsValid password options then Returned (Some password) w2
         else generatePassword_loop fuel options timeout startTime characters w2.
Proof. reflexivity. Qed.

(** A password returned by the loop was produced by [generateRandomString]
    and accepted by [passwordIsValid]. *)
Lemma generatePassword_loop_returns (fuel : nat) (options : PasswordGenerationOptions)
      (timeout : JsNumber.number) (startTime : Z) (characters : string) (w w' : world) (p : string) :
  generatePassword_loop fuel options timeout startTime characters w
  = Returned (Some p) w' ->
  passwordIsValid p options = true
  /\ exists fuel' w0 w1,
      generateRandomString fuel' (passwordLength options) characters w0
      = Returned p w1.
Proof.
  revert w. induction fuel as [|fuel IH]; intros w Hret; [discriminate|].
  rewrite generatePassword_loop_unfold in Hret.
  destruct (generateRandomString (S fuel) (passwordLength options) characters w)
    as [password w1|m w1| |] eqn:Hgen; try discriminate.
  cbn [bind] in Hret. unfold readClock in Hret.
  destruct (timedOut startTime (Date_now (clockReads w1)) timeout); [discriminate|].
  destruct (passwordIsValid password options) eqn:Hvalid.
  - injection Hret as -> _. split; [assumption | eauto].
  - now apply IH in Hret.
Qed.

(** C1, for a non-empty alphabet. If [generatePassword] returns a password
    and the working alphabet (uppercase, lowercase, digits, then [symbols],
    each when enabled) is not empty, the password satisfies
    [passwordIsValid], has exactly [passwordLength] characters, and every
    character belongs to the working alphabet. *)
Theorem generatePassword_returns_valid (fuel : nat)
        (options : PasswordGenerationOptions) (timeout : JsNumber.number) (w w' : world)
        (p : string) :
  passwordChars options <> EmptyString ->
  generatePassword fuel options timeout w = Returned (Some p) w' ->
  passwordIsValid p options = true
  /\ String.length p = passwordLength options
  /\ (forall c, In c (list_ascii_of_string p) ->
                In c (list_ascii_of_string (passwordChars options)))
  /\ passwordChars options
     = ((if useUppercase options then "ABCDEFGHIJKLMNOPQRSTUVWXYZ" else "")
        ++ (if useLowercase options then "abcdefghijklmnopqrstuvwxyz" else "")
        ++ (if useDigits options then "0123456789" else "")
        ++ (if useSymbols options then symbols options else ""))%string.
Proof.
  intros Hne Hret. unfold generatePassword, readClock in Hret.
  apply generatePassword_loop_returns in Hret.
  destruct Hret as (Hvalid & fuel' & w0 & w1 & Hgen).
  unfold generateRandomString in Hgen.
  apply generateRandomString_loop_spec in Hgen; [| exact Hne].
  destruct Hgen as [Hlen Hchars]. simpl in Hlen, Hchars.
  split; [exact Hvalid|]. split; [exact Hlen|]. split; [| reflexivity].
  intros c Hc. destruct (Hchars c Hc) as [[]|Hin]. exact Hin.
Qed.

End GeneratorFacts.

(** ** The pool and its refill protocol *)

Lemma replaceNth_length {A : Type} (l : list A) (i : nat) (x : A) :
  List.length (replaceNth l i x) = List.length l.
Proof.
  revert i. induction l as [|a l IH]; intros [|i]; simpl; auto.
Qed.

Lemma replaceNth_nth {A : Type} (l : list A) (i j : nat) (x d : A) :
  nth j (replaceNth l i x) d
  = if (Nat.eqb j i && (i <? List.length l)%nat)%bool then x else nth j l d.
Proof.
  revert i j. induction l as [|a l IH]; intros i j; simpl.
  - destruct i, j; simpl; try reflexivity. now rewrite andb_false_r.
  - destruct i as [|i], j as [|j]; simpl; try reflexivity.
    rewrite IH. reflexivity.
Qed.

Lemma settle_length (ps : list promiseState) (p : nat) (s : promiseState) :
  List.length (settle ps p s) = List.length ps.
Proof.
  unfold settle. destruct (nth p ps pending); auto using replaceNth_length.
Qed.


Lemma settle_pending (ps : list promiseState) (p : nat) (s : promiseState) :
  (p < List.length ps)%nat -> nth p ps pending = pending ->
  nth p (settle ps p s) pending = s.
Proof.
  intros Hlt Hp. unfold settle. rewrite Hp, replaceNth_nth, Nat.eqb_refl.
  apply Nat.ltb_lt in Hlt. now rewrite Hlt.
Qed.

Lemma settle_nth (ps : list promiseState) (p q : nat) (s : promiseState) :
  q <> p -> nth q (settle ps p s) pending = nth q ps pending.
Proof.
  intros Hq. unfold settle. destruct (nth p ps pending); try reflexivity.
  rewrite replaceNth_nth. destruct (Nat.eqb_spec q p); [congruence | reflexivity].
Qed.


(** The answer to the outstanding request: what [respond] does when a
    refill is in flight. *)
Lemma respond_inflight (r : response) (w : worker) (p : nat) :
  poolInvariant w -> regenerationPromise w = Some p ->
  respond r w
  = {| buffer := responseBuffer r;
       numRead := 0;
       regenerationPromise := None;
       promises := settle (promises w) p
                          (match code r with
                           | OK => fulfilled
                           | FAILED => rejectedWith (responseMessage r)
                           end);
       listeners := [];
       posted := posted w;
       unanswered := 0 |}.
Proof.
  intros Hinv Hp. destruct (inv_inflight w Hinv p Hp) as (_ & Hl & Hu & _).
  unfold respond. rewrite Hu, Hl. simpl. unfold onMessageListener. simpl.
  destruct (Nat.eq_dec p p); [reflexivity | congruence].
Qed.

Lemma respond_idle (r : response) (w : worker) :
  poolInvariant w -> regenerationPromise w = None -> respond r w = w.
Proof.
  intros Hinv Hp. destruct (inv_idle w Hinv Hp) as (_ & _ & Hu).
  unfold respond. now rewrite Hu.
Qed.

Lemma initialWorker_invariant : poolInvariant initialWorker.
Proof.
  split.
  - intros _. repeat split. vm_compute. discriminate.
  - discriminate.
  - simpl. intros q Hq. lia.
Qed.

Lemma regenerateRandomPool_invariant (w : worker) :
  poolInvariant w -> poolInvariant (fst (regenerateRandomPool w)).
Proof.
  intros Hinv. unfold regenerateRandomPool.
  destruct (regenerationPromise w) as [p|] eqn:Hp; [exact Hinv|].
  destruct (inv_idle w Hinv Hp) as (_ & Hl & Hu).
  split; simpl.
  - discriminate.
  - intros p [= <-]. rewrite Hl, Hu, length_app. simpl.
    repeat split; try lia.
    unfold promiseStateOf. simpl. rewrite app_nth2, Nat.sub_diag by lia. reflexivity.
  - intros q Hq Hpend. rewrite length_app in Hq. simpl in Hq.
    destruct (Nat.eq_dec q (List.length (promises w))) as [->|Hne]; [reflexivity|].
    unfold promiseStateOf in Hpend. simpl in Hpend. rewrite app_nth1 in Hpend by lia.
    assert (Hq' : (q < List.length (promises w))%nat) by lia.
    pose proof (inv_pending w Hinv q Hq' Hpend). congruence.
Qed.

Lemma respond_invariant (r : response) (w : worker) :
  poolInvariant w -> poolInvariant (respond r w).
Proof.
  intros Hinv. destruct (regenerationPromise w) as [p|] eqn:Hp.
  - rewrite (respond_inflight r w p Hinv Hp).
    destruct (inv_inflight w Hinv p Hp) as (_ & _ & _ & Hlt & Hpend).
    split; simpl.
    + intros _. repeat split. unfold bufferLength. simpl. lia.
    + discriminate.
    + intros q Hq Hq'. exfalso. rewrite settle_length in Hq.
      unfold promiseStateOf in Hq'. simpl in Hq'.
      destruct (Nat.eq_dec q p) as [->|Hne].
      * rewrite settle_pending in Hq' by assumption. destruct (code r); discriminate.
      * rewrite settle_nth in Hq' by assumption.
        pose proof (inv_pending w Hinv q Hq Hq'). congruence.
  - now rewrite respond_idle.
Qed.

Lemma readOrRetry_invariant (w : worker) :
  poolInvariant w -> poolInvariant (fst (readOrRetry w)).
Proof.
  intros Hinv. unfold readOrRetry.
  destruct (N.ltb_spec (numRead w) (bufferLength w)) as [Hlt|Hge]; [| exact Hinv].
  split; simpl.
  - intros Hp. destruct (inv_idle w Hinv Hp) as (_ & Hl & Hu).
    repeat split; try assumption. unfold bufferLength in *. simpl. lia.
  - intros p Hp. destruct (inv_inflight w Hinv p Hp) as (Hb & _).
    unfold bufferLength in Hlt. rewrite Hb in Hlt. simpl in Hlt. lia.
  - exact (inv_pending w Hinv).
Qed.

Lemma step_invariant (c : call) (w : worker) :
  poolInvariant w -> poolInvariant (fst (step c w)).
Proof.
  intros Hinv. destruct c as [|p|b|m]; simpl; try exact Hinv.
  - destruct (bufferLength w <=? numRead w)%N.
    + pose proof (regenerateRandomPool_invariant w Hinv) as Hr.
      destruct (regenerateRandomPool w). exact Hr.
    + now apply readOrRetry_invariant.
  - destruct (promiseStateOf w p); try exact Hinv. now apply readOrRetry_invariant.
Qed.

Lemma turn_invariant (c : call) (w : worker) :
  poolInvariant w -> poolInvariant (fst (turn c w)).
Proof.
  intros Hinv. unfold turn. pose proof (step_invariant c w Hinv) as H1.
  destruct (step c w) as [w1 c1]. simpl in H1.
  destruct c1; try exact H1. now apply step_invariant.
Qed.

Lemma exec_invariant (s : system) (e : event) :
  poolInvariant (theWorker s) -> poolInvariant (theWorker (exec s e)).
Proof.
  intros Hinv. destruct e as [|i|r]; simpl.
  - pose proof (turn_invariant Entering _ Hinv) as Ht.
    destruct (turn Entering (theWorker s)). exact Ht.
  - destruct (nth_error (calls s) i) as [c|]; [| exact Hinv].
    pose proof (turn_invariant c _ Hinv) as Ht.
    destruct (turn c (theWorker s)). exact Ht.
  - now apply respond_invariant.
Qed.

Lemma run_invariant (es : list event) (s : system) :
  poolInvariant (theWorker s) -> poolInvariant (theWorker (run s es)).
Proof.
  revert s. induction es as [|e es IH]; intros s Hinv; simpl; [exact Hinv|].
  apply IH. now apply exec_invariant.
Qed.

(** On an exhausted pool a call goes to [regenerateRandomPool] and is
    suspended on the promise it returns. *)
Lemma turn_Entering_exhausted (w : worker) :
  (bufferLength w <= numRead w)%N ->
  turn Entering w
  = (fst (regenerateRandomPool w), Awaiting (snd (regenerateRandomPool w))).
Proof.
  intros Hex. unfold turn. cbn [step]. apply N.leb_le in Hex. rewrite Hex.
  now destruct (regenerateRandomPool w).
Qed.

Lemma inflight_exhausted (w : worker) (p : nat) :
  poolInvariant w -> regenerationPromise w = Some p ->
  (bufferLength w <= numRead w)%N.
Proof.
  intros Hinv Hp. destruct (inv_inflight w Hinv p Hp) as (Hb & _).
  unfold bufferLength. rewrite Hb. simpl. lia.
Qed.

(** C8, as the code has it. Initially [numRead] and [buffer.length] are both
    65536. The invariant of the pool is preserved by every step of a
    [getRandomByte] call, by [regenerateRandomPool] and by the answer of the
    main thread. In every reachable state: [numRead <= buffer.length] holds
    whenever no refill is outstanding; while one is outstanding the buffer has
    been transferred and its length is 0; and [regenerationPromise] is
    non-null exactly while a refill request is outstanding. When the refill
    completes, the buffer is replaced, [numRead] is reset to 0 and
    [regenerationPromise] is cleared in the same step. *)
Theorem pool_invariant_preserved :
  (numRead initialWorker = 65536%N /\ bufferLength initialWorker = 65536%N)
  /\ poolInvariant initialWorker
  /\ (forall s e, poolInvariant (theWorker s) -> poolInvariant (theWorker (exec s e)))
  /\ (forall es,
         let w := theWorker (run initialSystem es) in
         (regenerationPromise w = None -> (numRead w <= bufferLength w)%N)
         /\ (regenerationPromise w <> None -> bufferLength w = 0%N)
         /\ (regenerationPromise w <> None <-> refillOutstanding w))
  /\ (forall w r p,
         poolInvariant w -> regenerationPromise w = Some p ->
         buffer (respond r w) = responseBuffer r
         /\ numRead (respond r w) = 0%N
         /\ regenerationPromise (respond r w) = None
         /\ ~ refillOutstanding (respond r w)).
Proof.
  split; [split; vm_compute; reflexivity|].
  split; [exact initialWorker_invariant|].
  split; [exact exec_invariant|].
  split.
  - intros es w.
    assert (Hinv : poolInvariant w)
      by (apply run_invariant; exact initialWorker_invariant).
    unfold refillOutstanding. split; [| split; [| split]].
    + intros Hp. now destruct (inv_idle w Hinv Hp).
    + intros Hp. destruct (regenerationPromise w) as [p|] eqn:E; [| congruence].
      destruct (inv_inflight w Hinv p E) as (Hb & _).
      unfold bufferLength. now rewrite Hb.
    + intros Hp. destruct (regenerationPromise w) as [p|] eqn:E; [| congruence].
      destruct (inv_inflight w Hinv p E) as (_ & _ & Hu & _). lia.
    + intros Hu Hp. destruct (inv_idle w Hinv Hp) as (_ & _ & Hu'). lia.
  - intros w r p Hinv Hp. rewrite (respond_inflight r w p Hinv Hp).
    unfold refillOutstanding. simpl. repeat split. lia.
Qed.

(** C9. [n] calls of [getRandomByte] made while a refill is in flight post no
    message: one request stays outstanding and every call is suspended on the
    promise of that refill. Calls made on an exhausted pool without a refill
    in flight post one request, for the first of them. A call resumed after
    the refill checks the pool again: it reads a byte when one is left, and
    otherwise starts [getRandomByte] again, which suspends it on a pending
    refill; it does not throw. *)
Theorem concurrent_callers_share_one_refill (s : system) (n : nat) :
  poolInvariant (theWorker s) ->
  (forall p, regenerationPromise (theWorker s) = Some p ->
     let s' := run s (repeat Call n) in
     theWorker s' = theWorker s
     /\ calls s' = calls s ++ repeat (Awaiting p) n
     /\ posted (theWorker s') = posted (theWorker s)
     /\ unanswered (theWorker s') = 1%nat)
  /\ (regenerationPromise (theWorker s) = None ->
      (bufferLength (theWorker s) <= numRead (theWorker s))%N ->
      let s' := run s (repeat Call (S n)) in
      let p := List.length (promises (theWorker s)) in
      calls s' = calls s ++ repeat (Awaiting p) (S n)
      /\ posted (theWorker s') = posted (theWorker s) ++ [REQUEST_GET_RANDOM_BYTES]
      /\ unanswered (theWorker s') = 1%nat
      /\ regenerationPromise (theWorker s') = Some p)
  /\ (forall p, promiseStateOf (theWorker s) p = fulfilled ->
      let w := theWorker s in
      ((numRead w < bufferLength w)%N ->
       snd (turn (Awaiting p) w) = Resolved (nth (N.to_nat (numRead w)) (buffer w) x00)
       /\ numRead (fst (turn (Awaiting p) w)) = (numRead w + 1)%N
       /\ posted (fst (turn (Awaiting p) w)) = posted w)
      /\ ((bufferLength w <= numRead w)%N ->
          exists p', snd (turn (Awaiting p) w) = Awaiting p'
                     /\ regenerationPromise (fst (turn (Awaiting p) w)) = Some p'
                     /\ promiseStateOf (fst (turn (Awaiting p) w)) p' = pending
                     /\ unanswered (fst (turn (Awaiting p) w)) = 1%nat)).
Proof.
  intros Hinv.
  assert (Hflight : forall k s0 p,
             poolInvariant (theWorker s0) ->
             regenerationPromise (theWorker s0) = Some p ->
             theWorker (run s0 (repeat Call k)) = theWorker s0
             /\ calls (run s0 (repeat Call k)) = calls s0 ++ repeat (Awaiting p) k).
  { induction k as [|k IH]; intros s0 p Hinv0 Hp; simpl.
    - now rewrite app_nil_r.
    - assert (Hturn : turn Entering (theWorker s0) = (theWorker s0, Awaiting p)).
      { rewrite turn_Entering_exhausted by (eapply inflight_exhausted; eassumption).
        unfold regenerateRandomPool. now rewrite Hp. }
      rewrite Hturn.
      destruct (IH {| theWorker := theWorker s0; calls := calls s0 ++ [Awaiting p] |} p
                   Hinv0 Hp) as [Hw Hc].
      split; [exact Hw|]. rewrite Hc. simpl. now rewrite <- app_assoc. }
  split; [| split].
  - intros p Hp s'. destruct (Hflight n s p Hinv Hp) as [Hw Hc].
    destruct (inv_inflight _ Hinv p Hp) as (_ & _ & Hu & _).
    subst s'. rewrite Hw. repeat split; assumption.
  - intros Hp Hex s' p. subst s'. simpl.
    assert (Hturn : turn Entering (theWorker s)
                    = (fst (regenerateRandomPool (theWorker s)), Awaiting p)).
    { rewrite turn_Entering_exhausted by exact Hex.
      unfold regenerateRandomPool. now rewrite Hp. }
    rewrite Hturn.
    pose proof (regenerateRandomPool_invariant _ Hinv) as Hinv1.
    assert (Hp1 : regenerationPromise (fst (regenerateRandomPool (theWorker s))) = Some p)
      by (unfold regenerateRandomPool; rewrite Hp; reflexivity).
    destruct (Hflight n {| theWorker := fst (regenerateRandomPool (theWorker s));
                           calls := calls s ++ [Awaiting p] |} p Hinv1 Hp1) as [Hw Hc].
    rewrite Hw, Hc. simpl theWorker. simpl calls.
    destruct (inv_idle _ Hinv Hp) as (_ & _ & Hu).
    unfold regenerateRandomPool. rewrite Hp. simpl. rewrite Hu, <- app_assoc.
    repeat split.
  - intros p Hful w. change (promiseStateOf w p = fulfilled) in Hful.
    change (poolInvariant w) in Hinv. split.
    + intros Hlt. unfold turn, step. rewrite Hful. unfold readOrRetry.
      apply N.ltb_lt in Hlt. rewrite Hlt. simpl. repeat split.
    + intros Hge.
      assert (Hturn : turn (Awaiting p) w = turn Entering w).
      { unfold turn at 1. cbn [step]. rewrite Hful. unfold readOrRetry.
        destruct (N.ltb_spec (numRead w) (bufferLength w)) as [Hlt|_]; [lia|].
        rewrite turn_Entering_exhausted by exact Hge.
        cbn [step]. apply N.leb_le in Hge. rewrite Hge.
        now destruct (regenerateRandomPool w). }
      rewrite Hturn, turn_Entering_exhausted by exact Hge. simpl.
      pose proof (regenerateRandomPool_invariant w Hinv) as Hinv1.
      exists (snd (regenerateRandomPool w)).
      assert (Hp' : regenerationPromise (fst (regenerateRandomPool w))
                    = Some (snd (regenerateRandomPool w))).
      { unfold regenerateRandomPool.
        destruct (regenerationPromise w) eqn:Hq; [exact Hq | reflexivity]. }
      destruct (inv_inflight _ Hinv1 _ Hp') as (_ & _ & Hu & _ & Hpend).
      repeat split; assumption.
Qed.

(** ** Failure of the entropy source, at the level of the pool *)









(** ** Failure of the entropy source, through the generation call *)

Lemma awaitPromise_unfold (p : nat) (inbox : list response) (w : worker) :
  awaitPromise p inbox w
  = match promiseStateOf w p with
    | fulfilled => Continue w inbox
    | rejectedWith m => Raise m w inbox
    | pending =>
        match inbox with
        | [] => Forever
        | r :: inbox' => awaitPromise p inbox' (respond r w)
        end
    end.
Proof. destruct inbox; reflexivity. Qed.

Lemma replaceNth_last {A : Type} (l : list A) (x y : A) :
  replaceNth (l ++ [x]) (List.length l) y = l ++ [y].
Proof. induction l as [|a l IH]; simpl; congruence. Qed.

Lemma nth_last {A : Type} (l : list A) (x d : A) : nth (List.length l) (l ++ [x]) d = x.
Proof. rewrite app_nth2, Nat.sub_diag by lia. reflexivity. Qed.

(** From an idle worker, [await regenerateRandomPool()] waits for the next
    answer of the main thread and continues or throws according to it. *)
Lemma await_regenerate_idle (w : worker) (inbox : list response) :
  idle w ->
  (let (w', p) := regenerateRandomPool w in awaitPromise p inbox w')
  = match inbox with
    | [] => Forever
    | r :: inbox' =>
        match code r with
        | OK => Continue (refilled w r) inbox'
        | FAILED => Raise (responseMessage r) (refilled w r) inbox'
        end
    end.
Proof.
  intros (Hp & Hl & Hu & _). unfold regenerateRandomPool. rewrite Hp, Hl, Hu.
  rewrite awaitPromise_unfold. unfold promiseStateOf at 1. cbn [promises].
  rewrite nth_last. destruct inbox as [|r inbox']; [reflexivity|].
  assert (Hresp : respond r
                    {| buffer := []; numRead := numRead w;
                       regenerationPromise := Some (List.length (promises w));
                       promises := promises w ++ [pending];
                       listeners := [] ++ [List.length (promises w)];
                       posted := posted w ++ [REQUEST_GET_RANDOM_BYTES];
                       unanswered := 1 |}
                  = refilled w r).
  { unfold respond, refilled, onMessageListener. cbn.
    unfold settle. rewrite nth_last, replaceNth_last.
    destruct (Nat.eq_dec (List.length (promises w)) (List.length (promises w)));
      [reflexivity | congruence]. }
  rewrite Hresp, awaitPromise_unfold. unfold promiseStateOf, refilled. cbn [promises].
  rewrite nth_last. destruct (code r); reflexivity.
Qed.

Lemma refilled_idle (w : worker) (r : response) : idle w -> idle (refilled w r).
Proof.
  intros (Hp & Hl & Hu & Hs). unfold idle, refilled. cbn.
  repeat split. intros q Hq. rewrite length_app in Hq. simpl in Hq.
  unfold promiseStateOf. cbn [promises].
  destruct (Nat.eq_dec q (List.length (promises w))) as [->|Hne].
  - rewrite nth_last. destruct (code r); discriminate.
  - rewrite app_nth1 by lia. apply Hs. lia.
Qed.

Lemma refills_nil (w w' : world) :
  inbox w' = inbox w -> posted (wk w') = posted (wk w) -> refills w w' [].
Proof. intros Hi Hp. unfold refills. simpl. now rewrite Hi, Hp, app_nil_r. Qed.

Lemma refills_app (w w1 w' : world) (rs1 rs2 : list response) :
  refills w w1 rs1 -> refills w1 w' rs2 -> refills w w' (rs1 ++ rs2).
Proof.
  intros [Hi1 Hp1] [Hi2 Hp2]. unfold refills.
  rewrite Hi1, Hi2, Hp2, Hp1, length_app, repeat_app, !app_assoc. split; reflexivity.
Qed.

(** An account of the rest of a run extends to the whole run. *)
Lemma entropyAccount_prefix {A : Type} (w w1 : world) (oks : list response)
      (o : outcome A) :
  refills w w1 oks -> Forall isOK oks -> entropyAccount w1 o -> entropyAccount w o.
Proof.
  intros Href Hoks. destruct o as [a w'|m w'| |]; simpl; auto.
  - intros (Hidle & oks' & Href' & Hoks'). split; [exact Hidle|].
    exists (oks ++ oks'). split; [eapply refills_app; eassumption|].
    apply Forall_app; now split.
  - intros (Hidle & oks' & r & Href' & Hoks' & Hcode & Hm). split; [exact Hidle|].
    exists (oks ++ oks'), r. rewrite <- app_assoc.
    split; [eapply refills_app; eassumption|].
    split; [apply Forall_app; now split | now split].
  - intros Hall. destruct Href as [Hi _]. rewrite Hi. apply Forall_app; now split.
Qed.

Lemma entropyAccount_bind {A B : Type} (w : world) (o : outcome A)
      (k : A -> world -> outcome B) :
  entropyAccount w o ->
  (forall a w1, o = Returned a w1 -> idle (wk w1) -> entropyAccount w1 (k a w1)) ->
  entropyAccount w (bind o k).
Proof.
  intros Ho Hk. destruct o as [a w1|m w1| |]; simpl in *; auto.
  destruct Ho as (Hidle & oks & Href & Hoks).
  eapply entropyAccount_prefix; eauto.
Qed.

Lemma getRandomByte_account (fuel : nat) (w : world) :
  idle (wk w) -> entropyAccount w (getRandomByte fuel w).
Proof.
  revert w. induction fuel as [|fuel IH]; intros w Hidle; [exact I|].
  cbn [getRandomByte].
  destruct (bufferLength (wk w) <=? numRead (wk w))%N.
  - rewrite await_regenerate_idle by exact Hidle.
    destruct (inbox w) as [|r inbox'] eqn:Hin; [simpl; rewrite Hin; constructor|].
    set (w1 := {| wk := refilled (wk w) r; inbox := inbox'; clockReads := clockReads w |}).
    assert (Href : refills w w1 [r]) by (unfold refills; now rewrite Hin).
    pose proof (refilled_idle (wk w) r Hidle) as Hidle1.
    destruct (code r) eqn:Hcode.
    + assert (Hoks : Forall isOK [r]) by (constructor; [exact Hcode | constructor]).
      unfold readOrRetry.
      destruct (numRead (refilled (wk w) r) <? bufferLength (refilled (wk w) r))%N.
      * simpl. split; [exact Hidle1|]. exists [r]. split; [| exact Hoks].
        unfold refills. simpl. now rewrite Hin.
      * apply (entropyAccount_prefix w w1 [r]);
          [exact Href | exact Hoks | now apply IH].
    + simpl. split; [exact Hidle1|]. exists [], r. simpl.
      split; [exact Href|]. split; [constructor|]. split; [exact Hcode | reflexivity].
  - unfold readOrRetry.
    destruct (numRead (wk w) <? bufferLength (wk w))%N.
    + simpl. split; [exact Hidle|]. exists []. split; [| constructor].
      now apply refills_nil.
    + set (w1 := {| wk := wk w; inbox := inbox w; clockReads := clockReads w |}).
      apply (entropyAccount_prefix w w1 []);
        [now apply refills_nil | constructor | apply IH; exact Hidle].
Qed.

Lemma getRandomByteInRange_account (fuel : nat) (min max : Z) (w : world) :
  idle (wk w) -> entropyAccount w (getRandomByteInRange fuel min max w).
Proof.
  revert w. induction fuel as [|fuel IH]; intros w Hidle; [exact I|].
  rewrite getRandomByteInRange_unfold.
  apply entropyAccount_bind; [now apply getRandomByte_account|].
  intros b w1 _ Hidle1. destruct (rejected (bound min max) (byteValue b)).
  - now apply IH.
  - simpl. split; [exact Hidle1|]. exists []. split; [| constructor].
    now apply refills_nil.
Qed.

Lemma generateRandomString_loop_account (fuel remaining : nat) (characters acc : string)
      (w : world) :
  idle (wk w) ->
  entropyAccount w (generateRandomString_loop fuel remaining characters acc w).
Proof.
  revert acc w. induction remaining as [|remaining IH]; intros acc w Hidle; simpl.
  - split; [exact Hidle|]. exists []. split; [| constructor]. now apply refills_nil.
  - apply entropyAccount_bind; [now apply getRandomByteInRange_account|].
    intros i w1 _ Hidle1. now apply IH.
Qed.

Section FailurePropagation.
Context `{CharacterClassifier} `{Clock}.

Lemma generatePassword_loop_account (fuel : nat) (options : PasswordGenerationOptions)
      (timeout : JsNumber.number) (startTime : Z) (characters : string) (w : world) :
  idle (wk w) ->
  entropyAccount w (generatePassword_loop fuel options timeout startTime characters w).
Proof.
  revert w. induction fuel as [|fuel IH]; intros w Hidle; [exact I|].
  rewrite generatePassword_loop_unfold.
  apply entropyAccount_bind;
    [unfold generateRandomString; now apply generateRandomString_loop_account|].
  intros password w1 _ Hidle1. unfold readClock.
  set (w2 := {| wk := wk w1; inbox := inbox w1; clockReads := S (clockReads w1) |}).
  assert (Href : refills w1 w2 []) by now apply refills_nil.
  destruct (timedOut startTime (Date_now (clockReads w1)) timeout).
  - simpl. split; [exact Hidle1|]. exists []. split; [exact Href | constructor].
  - destruct (passwordIsValid password options).
    + simpl. split; [exact Hidle1|]. exists []. split; [exact Href | constructor].
    + apply (entropyAccount_prefix w1 w2 []);
        [exact Href | constructor | now apply IH].
Qed.

Lemma generatePassword_account (fuel : nat) (options : PasswordGenerationOptions)
      (timeout : JsNumber.number) (w : world) :
  idle (wk w) -> entropyAccount w (generatePassword fuel options timeout w).
Proof.
  intros Hidle. unfold generatePassword, readClock.
  apply (entropyAccount_prefix
           w {| wk := wk w; inbox := inbox w; clockReads := S (clockReads w) |} []);
    [now apply refills_nil | constructor |].
  now apply generatePassword_loop_account.
Qed.

End FailurePropagation.


(** ** The timeout *)

Lemma getRandomByte_clock (fuel : nat) (w : world) :
  keepsClock w (getRandomByte fuel w).
Proof.
  unfold keepsClock.
  revert w. induction fuel as [|fuel IH]; intros w; [exact I|].
  cbn [getRandomByte].
  destruct (if (bufferLength (wk w) <=? numRead (wk w))%N
            then let (w', p) := regenerateRandomPool (wk w) in
                 awaitPromise p (inbox w) w'
            else Continue (wk w) (inbox w)) as [w1 ib|m w1 ib|]; try exact I;
    [| reflexivity].
  destruct (readOrRetry w1) as [w2 [ | p | b | m]]; try reflexivity;
    match goal with
    | |- context [getRandomByte fuel ?w0] => specialize (IH w0)
    end; destruct (getRandomByte fuel _); exact IH.
Qed.

Lemma keepsClock_bind {A B : Type} (w : world) (o : outcome A)
      (k : A -> world -> outcome B) :
  keepsClock w o -> (forall a w1, keepsClock w1 (k a w1)) -> keepsClock w (bind o k).
Proof.
  intros Ho Hk. destruct o as [a w1|m w1| |]; simpl in *; auto.
  specialize (Hk a w1). destruct (k a w1); simpl in *; congruence.
Qed.

Lemma getRandomByteInRange_clock (fuel : nat) (min max : Z) (w : world) :
  keepsClock w (getRandomByteInRange fuel min max w).
Proof.
  revert w. induction fuel as [|fuel IH]; intros w; [exact I|].
  rewrite getRandomByteInRange_unfold.
  apply keepsClock_bind; [apply getRandomByte_clock|].
  intros b w1. destruct (rejected (bound min max) (byteValue b));
    [apply IH | reflexivity].
Qed.

Lemma generateRandomString_loop_clock (fuel remaining : nat) (characters acc : string)
      (w : world) :
  keepsClock w (generateRandomString_loop fuel remaining characters acc w).
Proof.
  revert acc w. induction remaining as [|remaining IH]; intros acc w; simpl.
  - reflexivity.
  - apply keepsClock_bind; [apply getRandomByteInRange_clock|].
    intros i w1. apply IH.
Qed.



Section Timeout.
Context `{CharacterClassifier} `{Clock}.




End Timeout.

(** ** At least one candidate before the timeout *)

Lemma generateRandomString_loop_samples (fuel remaining : nat) (characters acc : string)
      (w : world) :
  generateRandomString_loop fuel remaining characters acc w
  = let* (samples, w1) :=
       getSamples fuel remaining 0 (Z.of_nat (String.length characters) - 1) w in
    Returned (fold_left (fun s i => (s ++ characterAt characters i)%string) samples acc) w1.
Proof.
  revert acc w. induction remaining as [|remaining IH]; intros acc w; simpl.
  - reflexivity.
  - destruct (getRandomByteInRange fuel 0 (Z.of_nat (String.length characters) - 1) w)
      as [i w1|m w1| |]; try reflexivity.
    cbn [bind]. rewrite IH.
    destruct (getSamples fuel remaining 0 (Z.of_nat (String.length characters) - 1) w1);
      reflexivity.
Qed.

Lemma getSamples_length (fuel n : nat) (min max : Z) (w w' : world) (samples : list jsint) :
  getSamples fuel n min max w = Returned samples w' -> List.length samples = n.
Proof.
  revert w w' samples. induction n as [|n IH]; intros w w' samples Hret; simpl in Hret.
  - now injection Hret as <- _.
  - destruct (getRandomByteInRange fuel min max w) as [i w1|? ?| |]; try discriminate.
    cbn [bind] in Hret.
    destruct (getSamples fuel n min max w1) as [is_ w2|? ?| |] eqn:Hrest; try discriminate.
    cbn [bind] in Hret. injection Hret as <- _. simpl. f_equal. eapply IH; eassumption.
Qed.


(** ** The sequential call is the single-caller run of the interleaving model *)

Lemma respond_regenerate_idle (w : worker) (r : response) :
  idle w ->
  regenerateRandomPool w
  = (fst (regenerateRandomPool w), List.length (promises w))
  /\ respond r (fst (regenerateRandomPool w)) = refilled w r.
Proof.
  intros (Hp & Hl & Hu & _). unfold regenerateRandomPool. rewrite Hp, Hl, Hu.
  split; [reflexivity|].
  unfold respond, refilled, onMessageListener. cbn.
  unfold settle. rewrite nth_last, replaceNth_last.
  destruct (Nat.eq_dec (List.length (promises w)) (List.length (promises w)));
    [reflexivity | congruence].
Qed.

(** A call of [getRandomByte] that returns, made when nothing else is
    running, is a run of the interleaving model with one call: the call
    starts, and each answer of the main thread is followed by a turn of the
    call, until it has its byte. *)
Lemma getRandomByte_single_caller (fuel : nat) (w w' : world) (b : byte) :
  idle (wk w) -> getRandomByte fuel w = Returned b w' ->
  exists es,
    run {| theWorker := wk w; calls := [] |} (Call :: es)
    = {| theWorker := wk w'; calls := [Resolved b] |}.
Proof.
  intros Hidle Hret.
  enough (Hgen : exists es,
             run {| theWorker := fst (turn Entering (wk w));
                    calls := [snd (turn Entering (wk w))] |} es
             = {| theWorker := wk w'; calls := [Resolved b] |}).
  { destruct Hgen as [es Hes]. exists es. simpl.
    destruct (turn Entering (wk w)). exact Hes. }
  revert w Hidle Hret. induction fuel as [|fuel IH]; intros w Hidle Hret;
    [discriminate|].
  cbn [getRandomByte] in Hret.
  destruct (N.leb_spec (bufferLength (wk w)) (numRead (wk w))) as [Hex|Hne].
  - rewrite await_regenerate_idle in Hret by exact Hidle.
    destruct (inbox w) as [|r inbox'] eqn:Hin; [discriminate|].
    destruct (code r) eqn:Hcode; [| discriminate].
    destruct (respond_regenerate_idle (wk w) r Hidle) as [Hreg Hresp].
    rewrite turn_Entering_exhausted by exact Hex.
    rewrite Hreg. cbn [fst snd].
    assert (Hful : promiseStateOf (refilled (wk w) r) (List.length (promises (wk w)))
                   = fulfilled).
    { unfold promiseStateOf, refilled. cbn [promises]. now rewrite nth_last, Hcode. }
    unfold readOrRetry in Hret.
    destruct (N.ltb_spec (numRead (refilled (wk w) r)) (bufferLength (refilled (wk w) r)))
      as [Hlt|Hge].
    + injection Hret as <- <-. exists [Respond r; Resume 0]. cbn [run fold_left exec].
      cbn [theWorker calls nth_error]. rewrite Hresp.
      unfold turn. cbn [step]. rewrite Hful. unfold readOrRetry.
      apply N.ltb_lt in Hlt. rewrite Hlt. reflexivity.
    + apply IH in Hret; [| now apply refilled_idle].
      destruct Hret as [es Hes]. cbn [wk] in Hes.
      exists (Respond r :: Resume 0 :: es). cbn [run fold_left exec].
      cbn [theWorker calls nth_error]. rewrite Hresp.
      assert (Hturn : turn (Awaiting (List.length (promises (wk w)))) (refilled (wk w) r)
                      = turn Entering (refilled (wk w) r)).
      { unfold turn at 1. cbn [step]. rewrite Hful. unfold readOrRetry.
        destruct (N.ltb_spec (numRead (refilled (wk w) r))
                             (bufferLength (refilled (wk w) r))); [lia|].
        rewrite turn_Entering_exhausted by exact Hge.
        cbn [step]. apply N.leb_le in Hge. rewrite Hge.
        now destruct (regenerateRandomPool (refilled (wk w) r)). }
      rewrite Hturn. cbn [replaceNth].
      destruct (turn Entering (refilled (wk w) r)). exact Hes.
  - unfold readOrRetry in Hret. apply N.ltb_lt in Hne. rewrite Hne in Hret.
    injection Hret as <- <-. exists [].
    unfold turn. cbn [step]. apply N.ltb_lt in Hne.
    destruct (N.leb_spec (bufferLength (wk w)) (numRead (wk w))); [lia|].
    unfold readOrRetry. apply N.ltb_lt in Hne. rewrite Hne. reflexivity.
Qed.

(** ** Fuel *)

(** The fuel only bounds how far the loops are unfolded: an outcome reached
    with some fuel is the outcome with any larger fuel. *)

(** [getRandomByte] itself always ends: started with no refill in progress,
    it retries only after an answer that brought no byte, so one unit of
    fuel per answer of the main thread, and one more, is enough. *)
Lemma getRandomByte_total (fuel : nat) (w : world) :
  idle (wk w) -> (List.length (inbox w) < fuel)%nat ->
  getRandomByte fuel w <> OutOfFuel.
Proof.
  revert w. induction fuel as [|fuel IH]; intros w Hidle Hlen; [lia|].
  cbn [getRandomByte].
  destruct (N.leb_spec (bufferLength (wk w)) (numRead (wk w))) as [Hex|Hne].
  - rewrite await_regenerate_idle by exact Hidle.
    destruct (inbox w) as [|r inbox'] eqn:Hin; [discriminate|].
    destruct (code r); [| discriminate].
    unfold readOrRetry.
    destruct (numRead (refilled (wk w) r) <? bufferLength (refilled (wk w) r))%N;
      [discriminate|].
    apply IH; [now apply refilled_idle | simpl in *; lia].
  - unfold readOrRetry. apply N.ltb_lt in Hne. rewrite Hne. discriminate.
Qed.

Lemma bind_OutOfFuel {A B : Type} (o : outcome A) (k : A -> world -> outcome B) :
  bind o k <> OutOfFuel -> o <> OutOfFuel.
Proof. destruct o; simpl; congruence. Qed.

Lemma getRandomByteInRange_fuel (fuel fuel' : nat) (min max : Z) (w : world) :
  (fuel <= fuel')%nat -> getRandomByteInRange fuel min max w <> OutOfFuel ->
  getRandomByteInRange fuel' min max w = getRandomByteInRange fuel min max w.
Proof.
  revert fuel' w. induction fuel as [|fuel IH]; intros fuel' w Hle Hres.
  - simpl in Hres. congruence.
  - destruct fuel' as [|fuel']; [lia|].
    rewrite !getRandomByteInRange_unfold in *.
    rewrite (getRandomByte_fuel (S fuel) (S fuel')) by (lia || eapply bind_OutOfFuel; eauto).
    destruct (getRandomByte (S fuel) w) as [b w1|m w1| |]; try reflexivity.
    cbn [bind] in *. destruct (rejected (bound min max) (byteValue b)); [| reflexivity].
    apply IH; (lia || assumption).
Qed.

Lemma generateRandomString_loop_fuel (fuel fuel' remaining : nat)
      (characters acc : string) (w : world) :
  (fuel <= fuel')%nat ->
  generateRandomString_loop fuel remaining characters acc w <> OutOfFuel ->
  generateRandomString_loop fuel' remaining characters acc w
  = generateRandomString_loop fuel remaining characters acc w.
Proof.
  intros Hle. revert acc w.
  induction remaining as [|remaining IH]; intros acc w Hres; simpl in *.
  - reflexivity.
  - rewrite (getRandomByteInRange_fuel fuel fuel')
      by (lia || eapply bind_OutOfFuel; eauto).
    destruct (getRandomByteInRange fuel 0 (Z.of_nat (String.length characters) - 1) w)
      as [i w1|m w1| |]; try reflexivity.
    cbn [bind] in *. now apply IH.
Qed.

Section Fuel.
Context `{CharacterClassifier} `{Clock}.

Lemma generatePassword_loop_fuel (fuel fuel' : nat) (options : PasswordGenerationOptions)
      (timeout : JsNumber.number) (startTime : Z) (characters : string) (w : world) :
  (fuel <= fuel')%nat ->
  generatePassword_loop fuel options timeout startTime characters w <> OutOfFuel ->
  generatePassword_loop fuel' options timeout startTime characters w
  = generatePassword_loop fuel options timeout startTime characters w.
Proof.
  revert fuel' w. induction fuel as [|fuel IH]; intros fuel' w Hle Hres.
  - simpl in Hres. congruence.
  - destruct fuel' as [|fuel']; [lia|].
    rewrite !generatePassword_loop_unfold in *. unfold generateRandomString in *.
    rewrite (generateRandomString_loop_fuel (S fuel) (S fuel'))
      by (lia || eapply bind_OutOfFuel; eauto).
    destruct (generateRandomString_loop (S fuel) (passwordLength options) characters
                                        EmptyString w)
      as [password w1|m w1| |]; try reflexivity.
    cbn [bind] in *. unfold readClock in *.
    destruct (timedOut startTime (Date_now (clockReads w1)) timeout); [reflexivity|].
    destruct (passwordIsValid password options); [reflexivity|].
    apply IH; (lia || assumption).
Qed.

Lemma generatePassword_fuel (fuel fuel' : nat) (options : PasswordGenerationOptions)
      (timeout : JsNumber.number) (w : world) :
  (fuel <= fuel')%nat ->
  generatePassword fuel options timeout w <> OutOfFuel ->
  generatePassword fuel' options timeout w = generatePassword fuel options timeout w.
Proof.
  unfold generatePassword, readClock. apply generatePassword_loop_fuel.
Qed.

End Fuel.

(** ** Every candidate is complete before the check that drops it *)

Section CandidateFirst.
Context `{CharacterClassifier} `{Clock}.

(** The loop after [n] iterations that went round again. *)
Lemma generatePassword_loop_after_refused (fuel n : nat)
      (options : PasswordGenerationOptions) (timeout : JsNumber.number) (startTime : Z)
      (characters : string) (w wn : world) (candidates : list string) :
  refusedCandidates fuel n options timeout startTime characters w
  = Some (candidates, wn) ->
  forall fuel', (fuel <= fuel')%nat ->
  generatePassword_loop (fuel' + n) options timeout startTime characters w
  = generatePassword_loop fuel' options timeout startTime characters wn.
Proof.
  revert w candidates. induction n as [|n IH]; intros w candidates Href fuel' Hfuel.
  - simpl in Href. injection Href as _ <-. now rewrite Nat.add_0_r.
  - cbn [refusedCandidates] in Href.
    destruct (generateRandomString fuel (passwordLength options) characters w)
      as [password w1|? ?| |] eqn:Hgen; try discriminate.
    unfold readClock in Href.
    destruct (timedOut startTime (Date_now (clockReads w1)) timeout) eqn:Hto;
      [discriminate|].
    destruct (passwordIsValid password options) eqn:Hvalid; [discriminate|].
    destruct (refusedCandidates fuel n options timeout startTime characters _)
      as [[passwords w']|] eqn:Hrest; [| discriminate].
    injection Href as _ <-.
    rewrite Nat.add_succ_r, generatePassword_loop_unfold.
    unfold generateRandomString in *.
    rewrite (generateRandomString_loop_fuel fuel (S (fuel' + n)))
      by (lia || congruence).
    rewrite Hgen. cbn [bind]. unfold readClock. rewrite Hto, Hvalid.
    now apply (IH _ passwords).
Qed.

(** C10. Whatever the timeout (zero and negative values included), a call
    of [generatePassword] that returns [null] has first generated a
    complete candidate, made of [passwordLength] samples over the working
    alphabet: the clock is checked only after the candidate is built. And a
    candidate that is complete when the deadline has passed is dropped,
    the first candidate as well as any later one: after any number of
    iterations that went round again, the call returns [null] whether or
    not [passwordIsValid] would have accepted the candidate. *)
Theorem generatePassword_candidate_before_timeout (fuel : nat)
        (options : PasswordGenerationOptions) (timeout : JsNumber.number) (w : world) :
  let w0 := snd (readClock w) in
  let startTime := Date_now (clockReads w) in
  let characters := passwordChars options in
  (forall w',
      generatePassword fuel options timeout w = Returned None w' ->
      exists candidate samples w1,
        getSamples fuel (passwordLength options) 0
                   (Z.of_nat (String.length characters) - 1) w0
        = Returned samples w1
        /\ List.length samples = passwordLength options
        /\ candidate = stringOfSamples characters samples
        /\ generateRandomString fuel (passwordLength options) characters w0
           = Returned candidate w1)
  /\ (forall n candidates wn candidate w1,
         refusedCandidates (S fuel) n options timeout startTime characters w0
         = Some (candidates, wn) ->
         generateRandomString (S fuel) (passwordLength options) characters wn
         = Returned candidate w1 ->
         timedOut startTime (Date_now (clockReads w1)) timeout = true ->
         generatePassword (S fuel + n) options timeout w
         = Returned None (snd (readClock w1))).
Proof.
  intros w0 startTime characters. split.
  - intros w' Hret. unfold generatePassword in Hret.
    change (readClock w) with (startTime, w0) in Hret. cbv iota in Hret.
    destruct fuel as [|fuel]; [discriminate|].
    rewrite generatePassword_loop_unfold in Hret. fold characters in Hret.
    destruct (generateRandomString (S fuel) (passwordLength options) characters w0)
      as [candidate w1|? ?| |] eqn:Hgen; try discriminate.
    unfold generateRandomString in Hgen.
    rewrite generateRandomString_loop_samples in Hgen.
    destruct (getSamples (S fuel) (passwordLength options) 0
                         (Z.of_nat (String.length characters) - 1) w0)
      as [samples w2|? ?| |] eqn:Hs; try discriminate.
    cbn [bind] in Hgen. injection Hgen as <- <-.
    exists (stringOfSamples characters samples), samples, w2.
    split; [reflexivity|]. split; [eapply getSamples_length; eassumption|].
    split; reflexivity.
  - intros n candidates wn candidate w1 Href Hgen Hto.
    unfold generatePassword.
    change (readClock w) with (startTime, w0). cbv iota. fold characters.
    rewrite (generatePassword_loop_after_refused _ _ _ _ _ _ _ _ _ Href)
      by apply Nat.le_refl.
    rewrite generatePassword_loop_unfold, Hgen.
    cbn [bind]. unfold readClock at 1. now rewrite Hto.
Qed.

End CandidateFirst.

(* ================================================================= *)
(** * The theorems at concrete inputs *)
(* ================================================================= *)

(** C1 as stated fails when no character class is enabled. The alphabet is
    empty, [bound] is 0, the limit and the sample are [NaN], [''[NaN]] is
    [undefined], and the candidate of length 1 is the text "undefined": it
    passes the validator (no check is enabled) and is returned, with 9
    characters instead of 1, none of them in the alphabet. *)
Lemma generatePassword_empty_alphabet_counterexample :
  let options := optionsWith 1 false false false false in
  let w := freshWorld [okResponse [x07]] in
  passwordChars options = EmptyString
  /\ returned (@generatePassword asciiClassifier (tickingClock 1) 2 options (JsNumber.ofZ 10) w)
     = Some (Some "undefined"%string)
  /\ String.length "undefined" <> passwordLength options
  /\ ~ (forall c, In c (list_ascii_of_string "undefined") ->
                  In c (list_ascii_of_string (passwordChars options))).
Proof.
  cbv zeta. split; [reflexivity|]. split; [vm_compute; reflexivity|].
  split; [vm_compute; discriminate|].
  intros Hall. apply (Hall "u"%char). vm_compute. now left.
Qed.

Lemma generatePassword_returns_valid_witness :
  let options := optionsWith 2 true false false false in
  @passwordIsValid asciiClassifier "AB" options = true
  /\ String.length "AB" = passwordLength options
  /\ forall c, In c (list_ascii_of_string "AB") ->
               In c (list_ascii_of_string (passwordChars options)).
Proof.
  cbv zeta.
  pose (options := optionsWith 2 true false false false).
  pose (w := freshWorld [okResponse [x00; x01]]).
  pose (o := @generatePassword asciiClassifier (tickingClock 1) 3 options (JsNumber.ofZ 10) w).
  destruct (@generatePassword_returns_valid asciiClassifier (tickingClock 1) 3 options (JsNumber.ofZ 10)
              w (finalWorld o w) "AB") as (Hv & Hl & Hc & _).
  - vm_compute. discriminate.
  - vm_compute. reflexivity.
  - exact (conj Hv (conj Hl Hc)).
Defined.

Lemma getRandomByteInRange_rejection_sampling_witness :
  bound 0 25 = 26 /\ limit 26 = JInt 233.
Proof.
  destruct (getRandomByteInRange_rejection_sampling 0 25) as (Hb & Hl & _);
    [lia | lia | lia |].
  exact (conj Hb Hl).
Defined.


(** C4 as stated fails when it is read over the rationals. A password
    of 11 lowercase and 9 uppercase letters has the case variance
    [2 * |11/20 - 0.5|], which is 0.1, and [maxCaseVariance] is the literal
    0.1: the third condition holds, exactly and also against the double
    that the literal denotes, which is slightly above one tenth. The code
    rounds 11/20 to a double slightly above 0.55, and the variance it
    computes is 0.10000000000000009: the password is refused. *)
Lemma passwordIsValid_rounding_counterexample :
  let options := {| passwordLength := 20;
                    useUppercase := true; useLowercase := true;
                    useDigits := false; useSymbols := false;
                    symbols := "!";
                    minDigitProportion := JsNumber.ofZ 0;
                    minSymbolProportion := JsNumber.ofZ 0;
                    maxCaseVariance := JsNumber.decimal 1 10 |} in
  let password := "aaaaaaaaaaaBBBBBBBBB"%string in
  @classCount asciiClassifier lowercase password = 11%nat
  /\ @letterCount asciiClassifier password = 20%nat
  /\ (exactCaseVariance 11 20 == 1 # 10)%Q
  /\ @passwordIsValid_exact asciiClassifier password options = true
  /\ caseVariance 11 20 = S754_finite false 7205759403792800 (-56)
  /\ maxCaseVariance options = S754_finite false 7205759403792794 (-56)
  /\ @passwordIsValid asciiClassifier password options = false.
Proof.
  cbv zeta. repeat split; vm_compute; reflexivity.
Qed.


(** C5 as stated fails on the empty password with the digit check
    enabled: the code evaluates [0 / 0] and returns false, where the
    validator that skips the checks with a zero denominator returns true. *)
Lemma passwordIsValid_empty_password_counterexample :
  let options := optionsWith 0 false false true false in
  @passwordIsValid asciiClassifier EmptyString options = false
  /\ @passwordIsValid_skipping_zero_denominators asciiClassifier EmptyString options
     = true
  /\ @evaluated_divisions asciiClassifier EmptyString options = [(0%nat, 0%nat)]
  /\ @evaluated_quotients asciiClassifier EmptyString options = [JsNumber.NaN].
Proof. cbv zeta. repeat split. Qed.

Lemma passwordIsValid_zero_denominators_witness :
  let options := optionsWith 2 false true true false in
  Forall (fun d => snd d <> 0%nat)
         (@evaluated_divisions asciiClassifier "a1" options)
  /\ @passwordIsValid asciiClassifier EmptyString options = false.
Proof.
  cbv zeta. split.
  - apply (proj1 (@passwordIsValid_zero_denominators asciiClassifier "a1" _)).
    discriminate.
  - rewrite (proj1 (proj2 (@passwordIsValid_zero_denominators
                             asciiClassifier EmptyString _) eq_refl)).
    reflexivity.
Defined.


(** The product [timeout * 1000] is rounded. With a timeout of 2.007 it is
    2007.0000000000002: a check made exactly 2007 ms after the start is not
    timed out. With a timeout of 0.001, a double slightly above one
    thousandth, it is exactly 1: a check made after 1 ms is timed out. *)
Lemma timedOut_rounded_product :
  JsNumber.mul (JsNumber.decimal 2007 1000) (JsNumber.ofZ 1000)
  = S754_finite false 8826879347785729 (-42)
  /\ JsNumber.ofZ 2007 = S754_finite false 8826879347785728 (-42)
  /\ timedOut 0 2007 (JsNumber.decimal 2007 1000) = false
  /\ JsNumber.exactly_leb (1 # 1000) (JsNumber.decimal 1 1000) = true
  /\ JsNumber.exactly_geb (1 # 1000) (JsNumber.decimal 1 1000) = false
  /\ JsNumber.mul (JsNumber.decimal 1 1000) (JsNumber.ofZ 1000) = JsNumber.ofZ 1
  /\ timedOut 0 1 (JsNumber.decimal 1 1000) = true.
Proof. repeat split; vm_compute; reflexivity. Qed.



(** C8 as stated fails at the first call of [getRandomByte]: the pool is
    exhausted, [regenerateRandomPool] posts the request and transfers the
    buffer, and while the refill is outstanding [numRead] is 65536 and the
    length of the buffer is 0. *)
Lemma pool_invariant_counterexample :
  let w := theWorker (exec initialSystem Call) in
  regenerationPromise w = Some 0%nat
  /\ refillOutstanding w
  /\ numRead w = 65536%N
  /\ bufferLength w = 0%N
  /\ ~ (numRead w <= bufferLength w)%N.
Proof.
  cbv zeta. split; [vm_compute; reflexivity|].
  split; [vm_compute; lia|].
  split; [vm_compute; reflexivity|].
  split; [vm_compute; reflexivity|].
  vm_compute. intros Hle. now apply Hle.
Qed.

Lemma pool_invariant_preserved_witness :
  let w := theWorker (exec initialSystem Call) in
  let r := okResponse [x01; x02] in
  buffer (respond r w) = [x01; x02]
  /\ numRead (respond r w) = 0%N
  /\ regenerationPromise (respond r w) = None.
Proof.
  cbv zeta.
  destruct pool_invariant_preserved as (_ & Hinit & Hexec & _ & Hrefill).
  destruct (Hrefill (theWorker (exec initialSystem Call)) (okResponse [x01; x02]) 0%nat)
    as (Hb & Hn & Hp & _).
  - apply Hexec. exact Hinit.
  - vm_compute. reflexivity.
  - exact (conj Hb (conj Hn Hp)).
Defined.

Lemma concurrent_callers_share_one_refill_witness :
  let s := exec initialSystem Call in
  let s' := run s [Call; Call; Call] in
  calls s' = [Awaiting 0; Awaiting 0; Awaiting 0; Awaiting 0]
  /\ posted (theWorker s') = [REQUEST_GET_RANDOM_BYTES]
  /\ unanswered (theWorker s') = 1%nat.
Proof.
  cbv zeta.
  destruct (concurrent_callers_share_one_refill (exec initialSystem Call) 3)
    as (Hflight & _).
  - apply exec_invariant. exact initialWorker_invariant.
  - destruct (Hflight 0%nat) as (_ & Hc & Hp & Hu).
    + vm_compute. reflexivity.
    + exact (conj Hc (conj Hp Hu)).
Defined.

Lemma generatePassword_candidate_before_timeout_witness :
  let options := {| passwordLength := 1;
                    useUppercase := true; useLowercase := false;
                    useDigits := true; useSymbols := false;
                    symbols := "!";
                    minDigitProportion := JsNumber.ofZ 1;
                    minSymbolProportion := JsNumber.ofZ 0;
                    maxCaseVariance := JsNumber.ofZ 1 |} in
  let w := freshWorld [okResponse [x00; x1a]] in
  let w0 := snd (@readClock (tickingClock 600) w) in
  let first := generateRandomString 2 1 (passwordChars options) w0 in
  let wn := snd (@readClock (tickingClock 600) (finalWorld first w0)) in
  let second := generateRandomString 2 1 (passwordChars options) wn in
  returned first = Some "A"%string
  /\ returned second = Some "0"%string
  /\ @passwordIsValid asciiClassifier "0" options = true
  /\ returned (@generatePassword asciiClassifier (tickingClock 600) 3 options
                                 (JsNumber.ofZ 1) w)
     = Some None.
Proof.
  intros options w w0 first wn second.
  split; [vm_compute; reflexivity|]. split; [vm_compute; reflexivity|].
  split; [vm_compute; reflexivity|].
  change 3%nat with (2 + 1)%nat.
  rewrite (proj2 (@generatePassword_candidate_before_timeout
                    asciiClassifier (tickingClock 600) 1 options (JsNumber.ofZ 1) w)
                 1%nat ["A"%string] wn "0"%string (finalWorld second wn)).
  - reflexivity.
  - vm_compute. reflexivity.
  - vm_compute. reflexivity.
  - vm_compute. reflexivity.
Defined.

(* ================================================================= *)
(** * Further properties of the code *)
(* ================================================================= *)

(** ** The options guard of the application *)

Section AppFacts.
Context `{CharacterClassifier} `{DuplicateRemover}.

Lemma hasValidSymbols_loop_false (l : list ascii) : hasValidSymbols_loop false l = false.
Proof. now destruct l. Qed.

(** The loop accepts exactly the strings whose characters are all symbols. *)
Lemma hasValidSymbols_loop_iff (l : list ascii) :
  hasValidSymbols_loop true l = true
  <-> forall c, In c l -> classifyCharacter (N_of_ascii c) = symbol.
Proof.
  induction l as [|a l IH]; simpl.
  - split; [intros _ c [] | reflexivity].
  - destruct (classification_eqb (classifyCharacter (N_of_ascii a)) symbol) eqn:Ha.
    + apply classification_eqb_eq in Ha. rewrite IH. split.
      * intros Hl c [<-|Hc]; [exact Ha | now apply Hl].
      * intros Hl c Hc. apply Hl. now right.
    + rewrite hasValidSymbols_loop_false. split; [discriminate|].
      intros Hl. specialize (Hl a (or_introl eq_refl)).
      rewrite Hl in Ha. discriminate.
Qed.

Lemma optionsGuard_iff (options : PasswordGenerationOptions) :
  optionsGuard options = true <-> acceptableOptions options.
Proof.
  unfold optionsGuard, acceptableOptions.
  rewrite !andb_true_iff, !orb_true_iff, andb_true_iff, hasValidSymbols_loop_iff.
  rewrite symbols_nonempty, Nat.ltb_lt. tauto.
Qed.

Lemma onOptionsChange_acceptable (currentOptions : PasswordGenerationOptions)
      (optionsDelta : OptionsDelta) :
  acceptableOptions currentOptions ->
  acceptableOptions (onOptionsChange currentOptions optionsDelta).
Proof.
  intros Hcur. unfold onOptionsChange.
  destruct (optionsGuard _) eqn:Hguard; [now apply optionsGuard_iff | exact Hcur].
Qed.

(** X1. Whatever [removeDuplicateCharacters] and [classifyCharacter] are,
    options that satisfy the guard of [onOptionsChange] still satisfy it
    after any sequence of changes: some class stays enabled, [symbols] stays
    non-empty and made of symbols. A change that would break this is
    refused. *)
Theorem onOptionsChange_keeps_guard (options : PasswordGenerationOptions)
        (deltas : list OptionsDelta) :
  acceptableOptions options ->
  acceptableOptions (afterChanges options deltas)
  /\ optionsGuard (afterChanges options deltas) = true.
Proof.
  intros Hacc.
  assert (Hafter : acceptableOptions (afterChanges options deltas)).
  { unfold afterChanges. revert options Hacc.
    induction deltas as [|d deltas IH]; intros options Hacc; simpl; [exact Hacc|].
    apply IH. now apply onOptionsChange_acceptable. }
  split; [exact Hafter | now apply optionsGuard_iff].
Qed.

(** X2. Options that satisfy the guard give the worker an alphabet of at
    least two characters: the precondition under which a returned password
    has the requested length. *)
Theorem acceptable_options_alphabet (options : PasswordGenerationOptions) :
  acceptableOptions options ->
  (2 <= String.length (passwordChars options))%nat
  /\ passwordChars options <> EmptyString.
Proof.
  intros (Hclass & _ & _).
  assert (Hlen : (2 <= String.length (passwordChars options))%nat).
  { unfold passwordChars. rewrite !length_append.
    destruct Hclass as [Hu|[Hl|[Hd|[Hs Hn]]]].
    - rewrite Hu. simpl. lia.
    - rewrite Hl. simpl. lia.
    - rewrite Hd. simpl. lia.
    - rewrite Hs. lia. }
  split; [exact Hlen|]. intros Hempty. rewrite Hempty in Hlen. simpl in Hlen. lia.
Qed.

(** X3. The guard does not look at [passwordLength] nor at the three
    thresholds: when the current options satisfy the guard and their symbols
    are already without duplicates, a change of these fields alone is always
    applied, whatever the values. *)
Theorem onOptionsChange_numeric_unchecked (currentOptions : PasswordGenerationOptions)
        (optionsDelta : OptionsDelta) :
  acceptableOptions currentOptions ->
  removeDuplicateCharacters (symbols currentOptions) = symbols currentOptions ->
  numericOnly optionsDelta ->
  onOptionsChange currentOptions optionsDelta
  = spreadOptions currentOptions optionsDelta
  /\ passwordLength (onOptionsChange currentOptions optionsDelta)
     = orCurrent (deltaPasswordLength optionsDelta) (passwordLength currentOptions)
  /\ minDigitProportion (onOptionsChange currentOptions optionsDelta)
     = orCurrent (deltaMinDigitProportion optionsDelta)
                 (minDigitProportion currentOptions).
Proof.
  intros Hacc Hdedup (Hu & Hl & Hd & Hs & Hsym).
  assert (Hsame : withSymbols (spreadOptions currentOptions optionsDelta)
                    (removeDuplicateCharacters
                       (symbols (spreadOptions currentOptions optionsDelta)))
                  = spreadOptions currentOptions optionsDelta).
  { unfold withSymbols, spreadOptions. cbn [symbols].
    rewrite Hsym. cbn [orCurrent]. now rewrite Hdedup. }
  assert (Hres : onOptionsChange currentOptions optionsDelta
                 = spreadOptions currentOptions optionsDelta).
  { unfold onOptionsChange. rewrite Hsame.
    assert (Hguard : optionsGuard (spreadOptions currentOptions optionsDelta) = true).
    { apply optionsGuard_iff. unfold acceptableOptions, spreadOptions.
      cbn [useUppercase useLowercase useDigits useSymbols symbols].
      rewrite Hu, Hl, Hd, Hs, Hsym. exact Hacc. }
    now rewrite Hguard. }
  rewrite Hres. repeat split.
Qed.

End AppFacts.

(** ** The pool serves its bytes in order *)

Lemma advanceRead_0 (w : world) : advanceRead w 0 = w.
Proof.
  destruct w as [[b n p ps ls po u] ib c]. unfold advanceRead. simpl.
  now rewrite N.add_0_r.
Qed.

Lemma advanceRead_advanceRead (w : world) (j k : N) :
  advanceRead (advanceRead w j) k = advanceRead w (j + k).
Proof. unfold advanceRead. simpl. now rewrite N.add_assoc. Qed.

Lemma skipn_nth_cons {A : Type} (l : list A) (k : nat) (d : A) :
  (k < List.length l)%nat -> skipn k l = nth k l d :: skipn (S k) l.
Proof.
  revert k. induction l as [|a l IH]; intros k Hk; simpl in Hk; [lia|].
  destruct k as [|k]; [reflexivity|]. simpl. apply IH. lia.
Qed.

(** A call on a pool that has an unread byte returns it at once. *)
Lemma getRandomByte_reads (fuel : nat) (w : world) :
  (numRead (wk w) < bufferLength (wk w))%N ->
  getRandomByte (S fuel) w
  = Returned (nth (N.to_nat (numRead (wk w))) (buffer (wk w)) x00) (advanceRead w 1).
Proof.
  intros Hlt. cbn [getRandomByte].
  destruct (N.leb_spec (bufferLength (wk w)) (numRead (wk w))); [lia|].
  unfold readOrRetry. apply N.ltb_lt in Hlt. now rewrite Hlt.
Qed.

Lemma getRandomBytes_in_order (fuel n : nat) (w : world) :
  (numRead (wk w) + N.of_nat n <= bufferLength (wk w))%N ->
  getRandomBytes (S fuel) n w
  = Returned (firstn n (unread (wk w))) (advanceRead w (N.of_nat n)).
Proof.
  revert w. induction n as [|n IH]; intros w Hle.
  - simpl. now rewrite advanceRead_0.
  - cbn [getRandomBytes]. rewrite getRandomByte_reads by lia. cbn [bind].
    rewrite IH by (simpl; unfold bufferLength in *; simpl; lia).
    cbn [bind]. rewrite advanceRead_advanceRead.
    replace (1 + N.of_nat n)%N with (N.of_nat (S n)) by lia.
    f_equal. unfold unread. cbn [advanceRead wk numRead buffer].
    rewrite (skipn_nth_cons (buffer (wk w)) (N.to_nat (numRead (wk w))) x00)
      by (unfold bufferLength in Hle; lia).
    cbn [firstn]. do 2 f_equal.
    replace (N.to_nat (numRead (wk w) + 1)) with (S (N.to_nat (numRead (wk w)))) by lia.
    reflexivity.
Qed.

(** X4. While the pool holds [n] unread bytes, [n] successive calls of
    [getRandomByte] return these bytes in the order of the buffer, each
    once: [numRead] advances by [n]; no message is posted and no answer of
    the main thread is consumed. *)
Theorem getRandomByte_serves_buffer_in_order (fuel n : nat) (w : world) :
  (numRead (wk w) + N.of_nat n <= bufferLength (wk w))%N ->
  exists w',
    getRandomBytes (S fuel) n w = Returned (firstn n (unread (wk w))) w'
    /\ List.length (firstn n (unread (wk w))) = n
    /\ numRead (wk w') = (numRead (wk w) + N.of_nat n)%N
    /\ unread (wk w') = skipn n (unread (wk w))
    /\ buffer (wk w') = buffer (wk w)
    /\ posted (wk w') = posted (wk w)
    /\ inbox w' = inbox w.
Proof.
  intros Hle. exists (advanceRead w (N.of_nat n)).
  split; [now apply getRandomBytes_in_order|].
  split.
  { apply firstn_length_le. unfold unread. rewrite length_skipn.
    unfold bufferLength in Hle. lia. }
  split; [reflexivity|]. split; [| repeat split].
  unfold unread. cbn [advanceRead wk numRead buffer].
  rewrite skipn_skipn. f_equal. lia.
Qed.

(** From an idle worker with an exhausted pool, a call posts one request and
    takes the first byte of a successful answer that brings one. *)
Lemma getRandomByte_after_refill (fuel : nat) (w : world) (r : response)
      (rest : list response) :
  idle (wk w) -> (bufferLength (wk w) <= numRead (wk w))%N ->
  inbox w = r :: rest -> code r = OK -> responseBuffer r <> [] ->
  getRandomByte (S fuel) w
  = Returned (nth 0 (responseBuffer r) x00) (advanceRead (afterRefill w r rest) 1).
Proof.
  intros Hidle Hex Hin Hcode Hne. cbn [getRandomByte].
  apply N.leb_le in Hex. rewrite Hex.
  rewrite await_regenerate_idle by exact Hidle. rewrite Hin, Hcode.
  unfold readOrRetry.
  assert (Hlt : (numRead (refilled (wk w) r) <? bufferLength (refilled (wk w) r))%N = true).
  { apply N.ltb_lt. unfold bufferLength, refilled. cbn [numRead buffer].
    destruct (responseBuffer r); [congruence | simpl; lia]. }
  rewrite Hlt. reflexivity.
Qed.

(** X5. One refill serves the calls that follow it. From an idle worker
    whose pool is exhausted, when the next answer of the main thread is a
    success bringing at least [n >= 1] bytes, [n] successive calls of
    [getRandomByte] return the first [n] bytes of that answer, in order;
    exactly one REQUEST_GET_RANDOM_BYTES is posted and exactly that answer
    is consumed. *)
Theorem getRandomByte_one_refill_serves_many (fuel n : nat) (w : world)
        (r : response) (rest : list response) :
  idle (wk w) -> (bufferLength (wk w) <= numRead (wk w))%N ->
  inbox w = r :: rest -> code r = OK ->
  (1 <= n <= List.length (responseBuffer r))%nat ->
  exists w',
    getRandomBytes (S fuel) n w = Returned (firstn n (responseBuffer r)) w'
    /\ posted (wk w') = posted (wk w) ++ [REQUEST_GET_RANDOM_BYTES]
    /\ inbox w' = rest
    /\ buffer (wk w') = responseBuffer r
    /\ numRead (wk w') = N.of_nat n
    /\ idle (wk w').
Proof.
  intros Hidle Hex Hin Hcode [H1 Hn].
  destruct n as [|n]; [lia|].
  assert (Hne : responseBuffer r <> []) by (destruct (responseBuffer r); simpl in *; [lia | congruence]).
  exists (advanceRead (afterRefill w r rest) (N.of_nat (S n))).
  split.
  - cbn [getRandomBytes].
    rewrite (getRandomByte_after_refill fuel w r rest) by assumption. cbn [bind].
    rewrite getRandomBytes_in_order
      by (unfold bufferLength;
          cbn [advanceRead afterRefill refilled wk numRead buffer]; lia).
    cbn [bind]. rewrite advanceRead_advanceRead.
    replace (1 + N.of_nat n)%N with (N.of_nat (S n)) by lia.
    f_equal. unfold unread.
    cbn [advanceRead afterRefill refilled wk numRead buffer].
    destruct (responseBuffer r) as [|b bs]; [congruence | reflexivity].
  - cbn [advanceRead afterRefill refilled wk numRead buffer posted inbox].
    split; [reflexivity|]. split; [reflexivity|]. split; [reflexivity|].
    split; [lia|].
    pose proof (refilled_idle (wk w) r Hidle) as (Hp & Hl & Hu & Hs).
    repeat split; assumption.
Qed.

(** X6. A successful answer that brings no byte is not an error: the call
    asks again. After [k] such answers followed by a successful answer that
    brings bytes, [getRandomByte] returns the first byte of the latter,
    having posted [k + 1] requests and consumed these [k + 1] answers. *)
Theorem getRandomByte_retries_empty_answers (fuel : nat) (w : world)
        (empties : list response) (r : response) (rest : list response) :
  idle (wk w) -> (bufferLength (wk w) <= numRead (wk w))%N ->
  inbox w = empties ++ r :: rest ->
  Forall emptyAnswer empties ->
  code r = OK -> responseBuffer r <> [] ->
  (List.length empties < fuel)%nat ->
  exists w',
    getRandomByte fuel w = Returned (nth 0 (responseBuffer r) x00) w'
    /\ inbox w' = rest
    /\ posted (wk w')
       = posted (wk w) ++ repeat REQUEST_GET_RANDOM_BYTES (S (List.length empties))
    /\ numRead (wk w') = 1%N.
Proof.
  revert fuel w. induction empties as [|e empties IH];
    intros fuel w Hidle Hex Hin Hempty Hcode Hne Hfuel.
  - destruct fuel as [|fuel]; [simpl in Hfuel; lia|]. simpl in Hin.
    exists (advanceRead (afterRefill w r rest) 1).
    split; [now apply getRandomByte_after_refill|]. cbn. repeat split.
  - destruct fuel as [|fuel]; [simpl in Hfuel; lia|].
    inversion Hempty as [|? ? [He Hb] Hempty']; subst.
    simpl in Hin.
    destruct (IH fuel (afterRefill w e (empties ++ r :: rest))) as (w' & Hret & Hi & Hp & Hn);
      try assumption.
    + now apply refilled_idle.
    + unfold bufferLength. cbn. rewrite Hb. simpl. lia.
    + reflexivity.
    + simpl in Hfuel. lia.
    + exists w'. split; [| split; [exact Hi | split; [| exact Hn]]].
      * cbn [getRandomByte]. apply N.leb_le in Hex. rewrite Hex.
        rewrite await_regenerate_idle by exact Hidle. rewrite Hin, He.
        unfold readOrRetry.
        assert (Hge : (numRead (refilled (wk w) e) <? bufferLength (refilled (wk w) e))%N
                      = false).
        { apply N.ltb_ge. unfold bufferLength. cbn. rewrite Hb. simpl. lia. }
        rewrite Hge. exact Hret.
      * rewrite Hp. cbn. rewrite <- app_assoc. reflexivity.
Qed.

(** ** The sampler at and beyond its bounds *)

(** X7. For every range within a byte the rejection test accepts more than
    half of the 256 byte values: a draw is repeated with probability below
    one half. *)
Theorem getRandomByteInRange_accepts_most_bytes (min max : Z) :
  0 <= min -> min <= max -> max <= 255 ->
  (128 < List.length (accepted min max))%nat
  /\ (List.length (accepted min max) <= 256)%nat.
Proof.
  intros Hmin Hmm Hmax.
  pose proof (accepted_length min max Hmm) as Ha.
  set (b := bound min max) in *.
  assert (Hb : 0 < b <= 256) by (unfold b, bound; lia).
  pose proof (multiple_le_256 b ltac:(lia)) as Hm.
  assert (Hhalf : 128 < 256 / b * b).
  { pose proof (Z.div_mod 256 b ltac:(lia)) as Hdm.
    pose proof (Z.mod_pos_bound 256 b ltac:(lia)) as Hmod.
    destruct (Z_le_gt_dec b 128) as [Hsmall|Hbig]; [lia|].
    assert (Hq : 256 / b = 1).
    { symmetry. apply (Z.div_unique 256 b 1 (256 - b)); lia. }
    rewrite Hq. lia. }
  lia.
Qed.

Lemma rejected_beyond_256 (b : Z) (x : byte) :
  256 < b -> rejected b (byteValue x) = true.
Proof.
  intros Hb. rewrite rejected_pos by lia.
  rewrite Z.div_small by lia. apply Z.ltb_lt.
  pose proof (byteValue_range x). lia.
Qed.

Lemma getRandomByteInRange_never_returns (fuel : nat) (min max : Z) (w w' : world)
      (r : jsint) :
  256 < bound min max -> getRandomByteInRange fuel min max w <> Returned r w'.
Proof.
  intros Hb. revert w. induction fuel as [|fuel IH]; intros w; [discriminate|].
  rewrite getRandomByteInRange_unfold.
  destruct (getRandomByte (S fuel) w) as [x w1|m w1| |]; try discriminate.
  cbn [bind]. rewrite rejected_beyond_256 by exact Hb. apply IH.
Qed.

(** X8. A range of more than 256 values cannot be sampled from a byte: the
    limit is -1, every byte is rejected, and [getRandomByteInRange] never
    returns, however many bytes it draws. *)
Theorem getRandomByteInRange_range_too_wide (min max : Z) :
  256 <= max - min ->
  limit (bound min max) = JInt (-1)
  /\ (forall x, rejected (bound min max) (byteValue x) = true)
  /\ (forall fuel w r w', getRandomByteInRange fuel min max w <> Returned r w').
Proof.
  intros Hwide. assert (Hb : 256 < bound min max) by (unfold bound; lia).
  split; [| split].
  - rewrite limit_pos by lia. now rewrite Z.div_small by lia.
  - intros x. now apply rejected_beyond_256.
  - intros fuel w r w'. now apply getRandomByteInRange_never_returns.
Qed.

Lemma generateRandomString_loop_never_returns (fuel remaining : nat)
      (characters acc s : string) (w w' : world) :
  (256 < String.length characters)%nat ->
  generateRandomString_loop fuel (S remaining) characters acc w <> Returned s w'.
Proof.
  intros Hlen. cbn [generateRandomString_loop].
  destruct (getRandomByteInRange fuel 0 (Z.of_nat (String.length characters) - 1) w)
    as [i w1|m w1| |] eqn:Hi; try discriminate.
  exfalso. revert Hi. apply getRandomByteInRange_never_returns. unfold bound. lia.
Qed.

Section WideAlphabet.
Context `{CharacterClassifier} `{Clock}.

(** X9. With an alphabet of more than 256 characters and a positive
    [passwordLength], [generatePassword] never returns, neither a password
    nor [null]: the first candidate is never completed, so the clock is
    never checked and the timeout cannot end the call. *)
Theorem generatePassword_alphabet_too_large (fuel : nat)
        (options : PasswordGenerationOptions) (timeout : JsNumber.number) (w w' : world)
        (r : option string) :
  (256 < String.length (passwordChars options))%nat ->
  (0 < passwordLength options)%nat ->
  generatePassword fuel options timeout w <> Returned r w'
  /\ (clockReads (finalWorld (generatePassword fuel options timeout w) w)
      <= S (clockReads w))%nat.
Proof.
  intros Hlen Hpos.
  destruct (passwordLength options) as [|n] eqn:Hn; [lia|].
  unfold generatePassword, readClock.
  destruct fuel as [|fuel]; [split; [discriminate | simpl; lia]|].
  rewrite generatePassword_loop_unfold, Hn. unfold generateRandomString.
  pose proof (generateRandomString_loop_clock (S fuel) (S n) (passwordChars options)
                EmptyString
                {| wk := wk w; inbox := inbox w; clockReads := S (clockReads w) |})
    as Hclock.
  destruct (generateRandomString_loop (S fuel) (S n) (passwordChars options)
                                      EmptyString _)
    as [s w1|m w1| |] eqn:Hgen.
  - exfalso. revert Hgen. now apply generateRandomString_loop_never_returns.
  - cbn [bind finalWorld]. simpl in Hclock. split; [discriminate | lia].
  - cbn [bind finalWorld]. split; [discriminate | lia].
  - cbn [bind finalWorld]. split; [discriminate | lia].
Qed.

End WideAlphabet.

(** ** The empty alphabet *)

Lemma append_empty_r (s : string) : (s ++ "")%string = s.
Proof. induction s as [|c s IH]; simpl; congruence. Qed.

Lemma append_assoc (s1 s2 s3 : string) :
  ((s1 ++ s2) ++ s3)%string = (s1 ++ (s2 ++ s3))%string.
Proof. induction s1 as [|c s1 IH]; simpl; congruence. Qed.

Lemma repeatString_length (s : string) (n : nat) :
  String.length (repeatString s n) = (n * String.length s)%nat.
Proof. induction n as [|n IH]; simpl; [reflexivity|]. rewrite length_append, IH. lia. Qed.

(** With an empty range the sampler draws one byte and returns [NaN]. *)
Lemma getRandomByteInRange_empty_range (fuel : nat) (min max : Z) (w : world) :
  bound min max = 0 ->
  getRandomByteInRange fuel min max w
  = let* (b, w1) := getRandomByte fuel w in Returned JNaN w1.
Proof.
  intros Hb. destruct fuel as [|fuel]; [reflexivity|].
  rewrite getRandomByteInRange_unfold.
  destruct (getRandomByte (S fuel) w) as [x w1|m w1| |]; try reflexivity.
  cbn [bind]. unfold rejected, sampleOf, limit. rewrite Hb. reflexivity.
Qed.

Lemma generateRandomString_loop_empty_alphabet (fuel remaining : nat) (acc : string)
      (w : world) :
  generateRandomString_loop fuel remaining EmptyString acc w
  = let* (bs, w1) := getRandomBytes fuel remaining w in
    Returned (acc ++ repeatString "undefined" remaining)%string w1.
Proof.
  revert acc w. induction remaining as [|remaining IH]; intros acc w.
  - simpl. now rewrite append_empty_r.
  - cbn [generateRandomString_loop getRandomBytes].
    rewrite getRandomByteInRange_empty_range by reflexivity.
    destruct (getRandomByte fuel w) as [x w1|m w1| |]; try reflexivity.
    cbn [bind]. rewrite IH.
    destruct (getRandomBytes fuel remaining w1) as [bs w2|m w2| |]; try reflexivity.
    cbn [bind characterAt repeatString]. now rewrite append_assoc.
Qed.

(** X10. With an empty string of characters, [generateRandomString] does not
    fail: it reads one byte of the pool per requested character and returns
    the text "undefined" once per requested character, 9 characters each. *)
Theorem generateRandomString_empty_alphabet (fuel length : nat) (w : world) :
  generateRandomString fuel length EmptyString w
  = (let* (bs, w1) := getRandomBytes fuel length w in
     Returned (repeatString "undefined" length) w1)
  /\ String.length (repeatString "undefined" length) = (9 * length)%nat.
Proof.
  split.
  - unfold generateRandomString. now rewrite generateRandomString_loop_empty_alphabet.
  - rewrite repeatString_length. simpl. lia.
Qed.

Section EmptyAlphabet.
Context `{CharacterClassifier} `{Clock}.

Lemma passwordChars_empty (options : PasswordGenerationOptions) :
  passwordChars options = EmptyString ->
  useUppercase options = false /\ useLowercase options = false
  /\ useDigits options = false
  /\ (useSymbols options = false \/ symbols options = EmptyString).
Proof.
  unfold passwordChars.
  destruct (useUppercase options), (useLowercase options), (useDigits options);
    try discriminate.
  destruct (useSymbols options); simpl; intros Hs; repeat split; auto.
Qed.

(** No check applies when no class contributes a character. *)
Lemma passwordIsValid_no_class (password : string) (options : PasswordGenerationOptions) :
  passwordChars options = EmptyString -> passwordIsValid password options = true.
Proof.
  intros Hempty. destruct (passwordChars_empty options Hempty) as (Hu & Hl & Hd & Hs).
  unfold passwordIsValid. rewrite Hu, Hd. rewrite !andb_false_r.
  destruct Hs as [Hs|Hs]; rewrite Hs; [reflexivity|].
  change (0 <? String.length "")%nat with false. now rewrite andb_false_r.
Qed.

(** X11. When no class contributes a character to the alphabet,
    [generatePassword] makes exactly one candidate and one check of the
    clock: it returns [null] if the check is timed out and otherwise the text
    "undefined" repeated [passwordLength] times, which passes the validator
    because no check applies. *)
Theorem generatePassword_empty_alphabet (fuel : nat)
        (options : PasswordGenerationOptions) (timeout : JsNumber.number) (w w' : world)
        (r : option string) :
  passwordChars options = EmptyString ->
  generatePassword fuel options timeout w = Returned r w' ->
  clockReads w' = S (S (clockReads w))
  /\ (r = None \/ r = Some (repeatString "undefined" (passwordLength options)))
  /\ (r = None
      <-> timedOut (Date_now (clockReads w)) (Date_now (S (clockReads w))) timeout
          = true).
Proof.
  intros Hempty Hret. unfold generatePassword, readClock in Hret.
  destruct fuel as [|fuel]; [discriminate|].
  rewrite generatePassword_loop_unfold, Hempty in Hret.
  assert (Hgen : generateRandomString (S fuel) (passwordLength options) EmptyString
                   {| wk := wk w; inbox := inbox w; clockReads := S (clockReads w) |}
                 = (let* (bs, w1) :=
                       getRandomBytes (S fuel) (passwordLength options)
                         {| wk := wk w; inbox := inbox w;
                            clockReads := S (clockReads w) |} in
                    Returned (repeatString "undefined" (passwordLength options)) w1))
    by (unfold generateRandomString;
        now rewrite generateRandomString_loop_empty_alphabet).
  rewrite Hgen in Hret.
  pose proof (generateRandomString_loop_clock (S fuel) (passwordLength options)
                EmptyString EmptyString
                {| wk := wk w; inbox := inbox w; clockReads := S (clockReads w) |})
    as Hclock.
  unfold generateRandomString in Hgen. rewrite Hgen in Hclock.
  destruct (getRandomBytes (S fuel) (passwordLength options) _)
    as [bs w1|m w1| |]; try discriminate.
  cbn [bind keepsClock clockReads] in Hret, Hclock. unfold readClock in Hret.
  rewrite Hclock in Hret.
  destruct (timedOut (Date_now (clockReads w)) (Date_now (S (clockReads w))) timeout).
  - injection Hret as <- <-. simpl.
    split; [reflexivity|]. split; [now left|]. split; reflexivity.
  - rewrite passwordIsValid_no_class in Hret by exact Hempty.
    injection Hret as <- <-. simpl.
    split; [reflexivity|]. split; [now right|]. split; discriminate.
Qed.

End EmptyAlphabet.

(** ** What the validator depends on *)

Lemma filter_length_permutation {A : Type} (f : A -> bool) (l l' : list A) :
  Permutation l l' -> List.length (filter f l) = List.length (filter f l').
Proof.
  induction 1 as [|x l l' _ IH|x y l|l l' l'' _ IH1 _ IH2]; simpl.
  - reflexivity.
  - destruct (f x); simpl; congruence.
  - destruct (f x), (f y); reflexivity.
  - congruence.
Qed.

Lemma geb_relaxed (x m m' : JsNumber.number) :
  JsNumber.leb m' m = true -> JsNumber.geb x m = true -> JsNumber.geb x m' = true.
Proof. unfold JsNumber.geb. apply leb_trans. Qed.

Lemma leb_relaxed (x m m' : JsNumber.number) :
  JsNumber.leb m m' = true -> JsNumber.leb x m = true -> JsNumber.leb x m' = true.
Proof. intros Hm Hx. exact (leb_trans x m m' Hx Hm). Qed.

Section ValidatorDependence.
Context `{CharacterClassifier}.

(** X12. The validator looks at how many characters of each class the
    password has, not at where they are: two passwords with the same
    characters in a different order are both valid or both invalid. *)
Theorem passwordIsValid_permutation (password password' : string)
        (options : PasswordGenerationOptions) :
  Permutation (list_ascii_of_string password) (list_ascii_of_string password') ->
  passwordIsValid password options = passwordIsValid password' options.
Proof.
  intros Hperm. unfold passwordIsValid. rewrite !characterCount_classCount.
  assert (Hcount : forall k, classCount k password = classCount k password')
    by (intros k; unfold classCount; now apply filter_length_permutation).
  assert (Hlen : String.length password = String.length password')
    by (rewrite <- !length_list_ascii; now apply Permutation_length).
  now rewrite !Hcount, Hlen.
Qed.

(** X13. Relaxing the thresholds never invalidates a password: with the
    same classes and symbols, lower minimum proportions and a higher maximum
    case variance, a valid password stays valid. *)
Theorem passwordIsValid_relaxed (password : string)
        (relaxed options : PasswordGenerationOptions) :
  relaxes relaxed options ->
  passwordIsValid password options = true ->
  passwordIsValid password relaxed = true.
Proof.
  intros (Hu & Hl & Hd & Hs & Hsym & Hmd & Hms & Hmc).
  unfold passwordIsValid. rewrite Hu, Hl, Hd, Hs, Hsym.
  rewrite !andb_true_iff, !orb_true_iff.
  intros [[H1 H2] H3]. split; [split|].
  - destruct H1 as [H1|H1]; [now left | right; eapply geb_relaxed; eassumption].
  - destruct H2 as [H2|H2]; [now left | right; eapply geb_relaxed; eassumption].
  - destruct H3 as [H3|H3]; [now left | right; eapply leb_relaxed; eassumption].
Qed.

End ValidatorDependence.


(** ** A password of no character *)

Section ZeroLength.
Context `{CharacterClassifier} `{Clock}.

Lemma passwordIsValid_empty (options : PasswordGenerationOptions) :
  passwordIsValid EmptyString options
  = negb (useDigits options)
    && negb (useSymbols options && (0 <? String.length (symbols options))%nat).
Proof.
  unfold passwordIsValid.
  change (characterCount EmptyString) with Map_new.
  change (String.length EmptyString) with 0%nat.
  change (get_or_0 Map_new digit) with 0%nat.
  change (get_or_0 Map_new symbol) with 0%nat.
  change (get_or_0 Map_new lowercase) with 0%nat.
  change (get_or_0 Map_new uppercase) with 0%nat.
  change (0 + 0)%nat with 0%nat. change (0 <? 0)%nat with false.
  rewrite div_0_0, !geb_NaN.
  destruct (useDigits options), (useSymbols options),
    (0 <? String.length (symbols options))%nat; reflexivity.
Qed.

Lemma generatePassword_loop_zero_length (fuel : nat)
      (options : PasswordGenerationOptions) (timeout : JsNumber.number) (startTime : Z)
      (characters : string) (w w' : world) (r : option string) :
  passwordLength options = 0%nat ->
  generatePassword_loop fuel options timeout startTime characters w = Returned r w' ->
  wk w' = wk w /\ inbox w' = inbox w
  /\ (r = None
      \/ (r = Some EmptyString /\ passwordIsValid EmptyString options = true)).
Proof.
  intros Hzero. revert w. induction fuel as [|fuel IH]; intros w Hret; [discriminate|].
  rewrite generatePassword_loop_unfold, Hzero in Hret.
  cbn [generateRandomString generateRandomString_loop bind] in Hret.
  unfold readClock in Hret.
  destruct (timedOut startTime (Date_now (clockReads w)) timeout).
  - injection Hret as <- <-. simpl. auto.
  - destruct (passwordIsValid EmptyString options) eqn:Hvalid.
    + injection Hret as <- <-. simpl. auto.
    + apply IH in Hret. simpl in Hret. exact Hret.
Qed.

(** X18. With [passwordLength] 0 the candidate is the empty string and no
    byte is read: the pool and the answers of the main thread are left
    untouched. The empty string fails every enabled proportion check, so
    with digits required, or symbols required from a non-empty set, the call
    can only return [null]; otherwise it returns the empty string. *)
Theorem generatePassword_zero_length (fuel : nat)
        (options : PasswordGenerationOptions) (timeout : JsNumber.number) (w w' : world)
        (r : option string) :
  passwordLength options = 0%nat ->
  generatePassword fuel options timeout w = Returned r w' ->
  wk w' = wk w /\ inbox w' = inbox w
  /\ (r = None \/ r = Some EmptyString)
  /\ (useDigits options = true
      \/ (useSymbols options = true /\ symbols options <> EmptyString) ->
      r = None).
Proof.
  intros Hzero Hret. unfold generatePassword, readClock in Hret.
  apply generatePassword_loop_zero_length in Hret; [| exact Hzero].
  destruct Hret as (Hwk & Hin & Hr). simpl in Hwk, Hin.
  split; [exact Hwk|]. split; [exact Hin|]. split.
  - destruct Hr as [Hr|[Hr _]]; auto.
  - intros Hreq. destruct Hr as [Hr|[_ Hvalid]]; [exact Hr | exfalso].
    rewrite passwordIsValid_empty in Hvalid.
    apply andb_true_iff in Hvalid. destruct Hvalid as [Hd Hs].
    apply negb_true_iff in Hd, Hs.
    destruct Hreq as [Hd'|[Hs' Hne]]; [congruence|].
    apply symbols_nonempty in Hne. rewrite Hs', Hne in Hs. discriminate.
Qed.

End ZeroLength.

(** ** From the application's options to the password *)

Section AppToWorker.
Context `{CharacterClassifier} `{Clock} `{DuplicateRemover}.

Lemma afterChanges_acceptable (options : PasswordGenerationOptions)
      (deltas : list OptionsDelta) :
  acceptableOptions options -> acceptableOptions (afterChanges options deltas).
Proof.
  unfold afterChanges. revert options.
  induction deltas as [|d deltas IH]; intros options Hacc; simpl; [exact Hacc|].
  apply IH. now apply onOptionsChange_acceptable.
Qed.

Lemma acceptable_alphabet_nonempty (options : PasswordGenerationOptions) :
  acceptableOptions options -> passwordChars options <> EmptyString.
Proof.
  intros (Hclass & _ & _) Hempty.
  assert (Hlen : String.length (passwordChars options) = 0%nat) by now rewrite Hempty.
  unfold passwordChars in Hlen. rewrite !length_append in Hlen.
  destruct Hclass as [Hu|[Hl|[Hd|[Hs Hn]]]].
  - rewrite Hu in Hlen. simpl in Hlen. lia.
  - rewrite Hl in Hlen. simpl in Hlen. lia.
  - rewrite Hd in Hlen. simpl in Hlen. lia.
  - rewrite Hs in Hlen. lia.
Qed.

(** X19. Options that went through [onOptionsChange], starting from options
    that satisfy its guard, never give the worker an empty alphabet: a
    password that [generatePassword] returns for them has exactly
    [passwordLength] characters, all taken from the alphabet, and passes the
    validator. The text "undefined" is never returned for such options. *)
Theorem application_options_give_requested_length
        (start : PasswordGenerationOptions) (deltas : list OptionsDelta)
        (fuel : nat) (timeout : JsNumber.number) (w w' : world) (p : string) :
  acceptableOptions start ->
  let options := afterChanges start deltas in
  generatePassword fuel options timeout w = Returned (Some p) w' ->
  String.length p = passwordLength options
  /\ (forall c, In c (list_ascii_of_string p) ->
                In c (list_ascii_of_string (passwordChars options)))
  /\ passwordIsValid p options = true.
Proof.
  intros Hacc options Hret.
  pose proof (acceptable_alphabet_nonempty options
                (afterChanges_acceptable start deltas Hacc)) as Hne.
  unfold generatePassword, readClock in Hret.
  apply generatePassword_loop_returns in Hret.
  destruct Hret as (Hvalid & fuel' & w0 & w1 & Hgen).
  unfold generateRandomString in Hgen.
  apply generateRandomString_loop_spec in Hgen; [| exact Hne].
  destruct Hgen as [Hlen Hchars]. simpl in Hlen.
  split; [exact Hlen|]. split; [| exact Hvalid].
  intros c Hc. destruct (Hchars c Hc) as [[]|Hin]. exact Hin.
Qed.

End AppToWorker.

(** ** What the handler posts *)

Section Handler.
Context `{CharacterClassifier} `{Clock}.

(** X20. A REQUEST_GENERATE_PASSWORD handled from a worker with no refill in
    progress never throws. When it ends, the worker has posted one
    REQUEST_GET_RANDOM_BYTES per answer consumed and then exactly one
    response (OK, TIMEOUT or ERROR), and no refill is in progress: the next
    request starts from a clean pool state. *)
Theorem onRequestGeneratePassword_posts_one_response (fuel : nat)
        (options : PasswordGenerationOptions) (timeout : JsNumber.number) (w : world) :
  idle (wk w) ->
  (forall m w', onRequestGeneratePassword fuel options timeout w <> Threw m w')
  /\ (forall u w',
         onRequestGeneratePassword fuel options timeout w = Returned u w' ->
         idle (wk w')
         /\ exists consumed response,
             inbox w = consumed ++ inbox w'
             /\ posted (wk w')
                = posted (wk w)
                  ++ repeat REQUEST_GET_RANDOM_BYTES (List.length consumed)
                  ++ [response]
             /\ isGenerateResponse response).
Proof.
  intros Hidle.
  pose proof (generatePassword_account fuel options timeout w Hidle) as Hacc.
  unfold onRequestGeneratePassword.
  destruct (generatePassword fuel options timeout w) as [[p|] w1|m w1| |];
    (split; [intros m' w''; discriminate|]); intros u w' Hret;
    try discriminate; injection Hret as <- <-; simpl in Hacc.
  - destruct Hacc as (Hi & oks & [Hin Hp] & _). split; [exact Hi|].
    exists oks, (RESPONSE_GENERATE_PASSWORD_OK p).
    split; [exact Hin|]. split; [| exact I].
    cbn. rewrite Hp, <- app_assoc. reflexivity.
  - destruct Hacc as (Hi & oks & [Hin Hp] & _). split; [exact Hi|].
    exists oks, RESPONSE_GENERATE_PASSWORD_TIMEOUT.
    split; [exact Hin|]. split; [| exact I].
    cbn. rewrite Hp, <- app_assoc. reflexivity.
  - destruct Hacc as (Hi & oks & r & [Hin Hp] & _). split; [exact Hi|].
    exists (oks ++ [r]), (RESPONSE_GENERATE_PASSWORD_ERROR m).
    split; [exact Hin|]. split; [| exact I].
    cbn. rewrite Hp, <- app_assoc. reflexivity.
Qed.

End Handler.

(** ** Several callers and one refill, from the calls to the bytes *)

Lemma calls_while_inflight (k : nat) (w : worker) (cs : list call) (p : nat) :
  regenerationPromise w = Some p -> buffer w = [] ->
  run {| theWorker := w; calls := cs |} (repeat Call k)
  = {| theWorker := w; calls := cs ++ repeat (Awaiting p) k |}.
Proof.
  intros Hp Hb. revert cs. induction k as [|k IH]; intros cs; simpl.
  - now rewrite app_nil_r.
  - assert (Hturn : turn Entering w = (w, Awaiting p)).
    { rewrite turn_Entering_exhausted
        by (unfold bufferLength; rewrite Hb; simpl; lia).
      unfold regenerateRandomPool. now rewrite Hp. }
    rewrite Hturn, IH, <- app_assoc. reflexivity.
Qed.

Lemma replaceNth_middle {A : Type} (l1 l2 : list A) (x y : A) :
  replaceNth (l1 ++ x :: l2) (List.length l1) y = l1 ++ y :: l2.
Proof. induction l1 as [|a l1 IH]; simpl; congruence. Qed.

Lemma nth_error_middle {A : Type} (l1 l2 : list A) (x : A) :
  nth_error (l1 ++ x :: l2) (List.length l1) = Some x.
Proof. induction l1 as [|a l1 IH]; simpl; auto. Qed.

Lemma firstn_succ_nth {A : Type} (l : list A) (j : nat) (d : A) :
  (j < List.length l)%nat -> firstn (S j) l = firstn j l ++ [nth j l d].
Proof.
  revert j. induction l as [|a l IH]; intros j Hj; simpl in Hj; [lia|].
  destruct j as [|j]; [reflexivity|].
  change (firstn (S (S j)) (a :: l)) with (a :: firstn (S j) l).
  rewrite (IH j) by lia. reflexivity.
Qed.

(** A suspended call resumed after its refill was fulfilled takes the next
    unread byte. *)
Lemma turn_Awaiting_reads (w : worker) (p : nat) :
  promiseStateOf w p = fulfilled -> (numRead w < bufferLength w)%N ->
  turn (Awaiting p) w
  = (workerAfterReads w 1, Resolved (nth (N.to_nat (numRead w)) (buffer w) x00)).
Proof.
  intros Hful Hlt. unfold turn. cbn [step]. rewrite Hful. unfold readOrRetry.
  apply N.ltb_lt in Hlt. now rewrite Hlt.
Qed.

Lemma workerAfterReads_add (w : worker) (j k : N) :
  workerAfterReads (workerAfterReads w j) k = workerAfterReads w (j + k).
Proof. unfold workerAfterReads. simpl. now rewrite N.add_assoc. Qed.

Lemma resume_in_order (w : worker) (p : nat) (m : nat) :
  promiseStateOf w p = fulfilled -> numRead w = 0%N ->
  forall j,
    (j + m <= List.length (buffer w))%nat ->
    run {| theWorker := workerAfterReads w (N.of_nat j);
           calls := map Resolved (firstn j (buffer w)) ++ repeat (Awaiting p) m |}
        (map Resume (seq j m))
    = {| theWorker := workerAfterReads w (N.of_nat (j + m));
         calls := map Resolved (firstn (j + m) (buffer w)) |}.
Proof.
  intros Hful Hzero. induction m as [|m IH]; intros j Hle.
  - simpl. now rewrite app_nil_r, Nat.add_0_r.
  - cbn [seq map repeat run fold_left exec theWorker calls].
    assert (Hlen : List.length (map Resolved (firstn j (buffer w))) = j)
      by (rewrite length_map, firstn_length_le; lia).
    pose proof (nth_error_middle (map Resolved (firstn j (buffer w)))
                                 (repeat (Awaiting p) m) (Awaiting p)) as Hnth.
    rewrite Hlen in Hnth. rewrite Hnth.
    rewrite turn_Awaiting_reads;
      [| exact Hful
       | unfold bufferLength; cbn [workerAfterReads numRead buffer]; lia].
    pose proof (fun y => replaceNth_middle (map Resolved (firstn j (buffer w)))
                                           (repeat (Awaiting p) m) (Awaiting p) y)
      as Hrep.
    rewrite Hlen in Hrep. rewrite Hrep.
    rewrite workerAfterReads_add.
    cbn [workerAfterReads numRead buffer]. rewrite Hzero, N.add_0_l, Nat2N.id.
    replace (N.of_nat j + 1)%N with (N.of_nat (S j)) by lia.
    specialize (IH (S j) ltac:(lia)).
    rewrite (firstn_succ_nth (buffer w) j x00) in IH by lia.
    rewrite map_app in IH. cbn [map] in IH. rewrite <- app_assoc in IH.
    cbn [app] in IH. unfold run in IH. rewrite IH.
    replace (S j + m)%nat with (j + S m)%nat by lia. reflexivity.
Qed.

(** X21. [n >= 1] calls of [getRandomByte] made at once on an exhausted pool
    with no refill in progress post a single REQUEST_GET_RANDOM_BYTES. When
    the main thread answers it with at least [n] bytes and the calls are
    resumed in the order in which they were made, every call returns, the
    i-th with the i-th byte of the answer: no byte is given twice and none
    is skipped. *)
Theorem concurrent_callers_get_successive_bytes (n : nat) (w : worker)
        (r : response) :
  idle w -> (bufferLength w <= numRead w)%N ->
  code r = OK -> (1 <= n <= List.length (responseBuffer r))%nat ->
  let s := run {| theWorker := w; calls := [] |} (callsThenAnswer n r) in
  calls s = map Resolved (firstn n (responseBuffer r))
  /\ posted (theWorker s) = posted w ++ [REQUEST_GET_RANDOM_BYTES]
  /\ numRead (theWorker s) = N.of_nat n
  /\ buffer (theWorker s) = responseBuffer r
  /\ regenerationPromise (theWorker s) = None.
Proof.
  intros Hidle Hex Hcode [H1 Hn] s.
  destruct n as [|n]; [lia|].
  destruct (respond_regenerate_idle w r Hidle) as [Hreg Hresp].
  set (p := List.length (promises w)) in *.
  set (w1 := fst (regenerateRandomPool w)) in *.
  assert (Hp1 : regenerationPromise w1 = Some p /\ buffer w1 = []).
  { destruct Hidle as (Hp & _). subst w1 p. unfold regenerateRandomPool.
    rewrite Hp. split; reflexivity. }
  assert (Hcalls : run {| theWorker := w; calls := [] |} (repeat Call (S n))
                   = {| theWorker := w1; calls := repeat (Awaiting p) (S n) |}).
  { cbn [repeat run fold_left exec theWorker calls app].
    rewrite turn_Entering_exhausted by exact Hex. rewrite Hreg. cbn [fst snd].
    apply (calls_while_inflight n w1 [Awaiting p] p); apply Hp1. }
  assert (Hful : promiseStateOf (refilled w r) p = fulfilled).
  { unfold promiseStateOf, refilled. cbn [promises]. subst p.
    now rewrite nth_last, Hcode. }
  assert (Hle : (0 + S n <= List.length (buffer (refilled w r)))%nat)
    by (cbn [refilled buffer]; lia).
  pose proof (resume_in_order (refilled w r) p (S n) Hful eq_refl 0%nat Hle) as Hres.
  assert (Hrun : s = {| theWorker := workerAfterReads (refilled w r) (N.of_nat (S n));
                        calls := map Resolved (firstn (S n) (responseBuffer r)) |}).
  { subst s. unfold callsThenAnswer.
    change (run {| theWorker := w; calls := [] |}
                (repeat Call (S n) ++ [Respond r] ++ map Resume (seq 0 (S n))))
      with (fold_left exec (repeat Call (S n) ++ [Respond r] ++ map Resume (seq 0 (S n)))
                      {| theWorker := w; calls := [] |}).
    rewrite !fold_left_app.
    change (fold_left exec (repeat Call (S n)) {| theWorker := w; calls := [] |})
      with (run {| theWorker := w; calls := [] |} (repeat Call (S n))).
    rewrite Hcalls.
    change (fold_left exec [Respond r]
                      {| theWorker := w1; calls := repeat (Awaiting p) (S n) |})
      with {| theWorker := respond r w1; calls := repeat (Awaiting p) (S n) |}.
    rewrite Hresp. exact Hres. }
  rewrite Hrun. cbn [theWorker calls workerAfterReads refilled posted numRead buffer
                     regenerationPromise].
  repeat split.
Qed.

(** ** A longer timeout *)

Lemma timedOut_longer (startTime now : Z) (timeout timeout' : JsNumber.number) :
  JsNumber.isDouble timeout -> JsNumber.isDouble timeout' ->
  JsNumber.leb timeout timeout' = true ->
  timedOut startTime now timeout = false -> timedOut startTime now timeout' = false.
Proof.
  intros Hd Hd' Hle Hnot.
  destruct (timedOut startTime now timeout') eqn:Hto; [| reflexivity].
  unfold timedOut, JsNumber.geb in *.
  pose proof (leb_trans _ _ _ (mul_1000_monotone timeout timeout' Hd Hd' Hle) Hto) as Hto'.
  unfold JsNumber.leb in Hto'. congruence.
Qed.

Section LongerTimeout.
Context `{CharacterClassifier} `{Clock}.

Lemma generatePassword_loop_longer_timeout (fuel : nat)
      (options : PasswordGenerationOptions) (timeout timeout' : JsNumber.number)
      (startTime : Z) (characters : string) (w w' : world) (p : string) :
  JsNumber.isDouble timeout -> JsNumber.isDouble timeout' ->
  JsNumber.leb timeout timeout' = true ->
  generatePassword_loop fuel options timeout startTime characters w
  = Returned (Some p) w' ->
  generatePassword_loop fuel options timeout' startTime characters w
  = Returned (Some p) w'.
Proof.
  intros Hd Hd' Hle. revert w.
  induction fuel as [|fuel IH]; intros w Hret; [discriminate|].
  rewrite generatePassword_loop_unfold in *.
  destruct (generateRandomString (S fuel) (passwordLength options) characters w)
    as [password w1|m w1| |]; try discriminate.
  cbn [bind] in *. unfold readClock in *.
  destruct (timedOut startTime (Date_now (clockReads w1)) timeout) eqn:Hto;
    [discriminate|].
  rewrite (timedOut_longer _ _ _ _ Hd Hd' Hle Hto).
  destruct (passwordIsValid password options); [exact Hret | now apply IH].
Qed.

(** X22. Raising the timeout never loses a password: when
    [generatePassword] returns a password with some timeout, it returns the
    same password, in the same final state, with any longer timeout (the
    bytes and the clock being the same). The two timeouts are doubles, and
    the second is at least the first: the product [timeout * 1000] is
    rounded, and rounding keeps the order. *)
Theorem generatePassword_longer_timeout (fuel : nat)
        (options : PasswordGenerationOptions) (timeout timeout' : JsNumber.number)
        (w w' : world) (p : string) :
  JsNumber.isDouble timeout -> JsNumber.isDouble timeout' ->
  JsNumber.leb timeout timeout' = true ->
  generatePassword fuel options timeout w = Returned (Some p) w' ->
  generatePassword fuel options timeout' w = Returned (Some p) w'.
Proof.
  intros Hd Hd' Hle. unfold generatePassword, readClock.
  now apply generatePassword_loop_longer_timeout.
Qed.

End LongerTimeout.

(* ================================================================= *)
(** * The further properties at concrete inputs *)
(* ================================================================= *)

Lemma defaultOptions_acceptable : @acceptableOptions asciiClassifier defaultOptions.
Proof.
  split; [left; reflexivity|]. split; [discriminate|].
  intros c Hc. simpl in Hc.
  repeat (destruct Hc as [<-|Hc]; [reflexivity|]). destruct Hc.
Qed.

Lemma asciiClassifier_uppercase (c : ascii) :
  In c (list_ascii_of_string "ABCDEFGHIJKLMNOPQRSTUVWXYZ") ->
  @classifyCharacter asciiClassifier (N_of_ascii c) = uppercase.
Proof.
  intros Hc. simpl in Hc.
  repeat (destruct Hc as [<-|Hc]; [reflexivity|]). destruct Hc.
Qed.

Lemma asciiClassifier_lowercase (c : ascii) :
  In c (list_ascii_of_string "abcdefghijklmnopqrstuvwxyz") ->
  @classifyCharacter asciiClassifier (N_of_ascii c) = lowercase.
Proof.
  intros Hc. simpl in Hc.
  repeat (destruct Hc as [<-|Hc]; [reflexivity|]). destruct Hc.
Qed.

Lemma freshWorld_idle (answers : list response) : idle (wk (freshWorld answers)).
Proof. unfold idle. simpl. repeat split. intros q Hq. lia. Qed.

Lemma freshWorld_exhausted (answers : list response) :
  (bufferLength (wk (freshWorld answers)) <= numRead (wk (freshWorld answers)))%N.
Proof. vm_compute. discriminate. Qed.

Lemma onOptionsChange_keeps_guard_witness :
  @optionsGuard asciiClassifier
     (@afterChanges asciiClassifier firstOccurrences defaultOptions
                    [disableAllClasses; setLengthAndDigits 12 (JsNumber.decimal 5 10)])
  = true
  /\ passwordLength (@afterChanges asciiClassifier firstOccurrences defaultOptions
                                   [disableAllClasses; setLengthAndDigits 12 (JsNumber.decimal 5 10)])
     = 12%nat
  /\ useDigits (@afterChanges asciiClassifier firstOccurrences defaultOptions
                              [disableAllClasses; setLengthAndDigits 12 (JsNumber.decimal 5 10)])
     = true.
Proof.
  split; [| split; reflexivity].
  exact (proj2 (@onOptionsChange_keeps_guard asciiClassifier firstOccurrences
                  defaultOptions [disableAllClasses; setLengthAndDigits 12 (JsNumber.decimal 5 10)]
                  defaultOptions_acceptable)).
Defined.

Lemma acceptable_options_alphabet_witness :
  (2 <= String.length (passwordChars defaultOptions))%nat.
Proof.
  exact (proj1 (@acceptable_options_alphabet asciiClassifier defaultOptions
                  defaultOptions_acceptable)).
Defined.

Lemma onOptionsChange_numeric_unchecked_witness :
  passwordLength (@onOptionsChange asciiClassifier firstOccurrences defaultOptions
                                   (setLengthAndDigits 0 (JsNumber.ofZ 5)))
  = 0%nat
  /\ minDigitProportion (@onOptionsChange asciiClassifier firstOccurrences
                                          defaultOptions (setLengthAndDigits 0 (JsNumber.ofZ 5)))
     = JsNumber.ofZ 5.
Proof.
  destruct (@onOptionsChange_numeric_unchecked asciiClassifier firstOccurrences
              defaultOptions (setLengthAndDigits 0 (JsNumber.ofZ 5)))
    as (_ & Hl & Hd).
  - exact defaultOptions_acceptable.
  - reflexivity.
  - repeat split.
  - exact (conj Hl Hd).
Defined.

Lemma getRandomByte_serves_buffer_in_order_witness :
  let w := {| wk := refilled initialWorker (okResponse [x0a; x0b; x0c]);
              inbox := []; clockReads := 0 |} in
  exists w', getRandomBytes 1 2 w = Returned [x0a; x0b] w'
             /\ numRead (wk w') = 2%N /\ posted (wk w') = posted (wk w).
Proof.
  cbv zeta.
  destruct (getRandomByte_serves_buffer_in_order
              0 2 {| wk := refilled initialWorker (okResponse [x0a; x0b; x0c]);
                     inbox := []; clockReads := 0 |})
    as (w' & Hret & _ & Hn & _ & _ & Hp & _).
  - vm_compute. discriminate.
  - exists w'. exact (conj Hret (conj Hn Hp)).
Defined.

Lemma getRandomByte_one_refill_serves_many_witness :
  exists w', getRandomBytes 1 2 (freshWorld [okResponse [x0a; x0b; x0c]])
             = Returned [x0a; x0b] w'
             /\ posted (wk w') = [REQUEST_GET_RANDOM_BYTES].
Proof.
  destruct (getRandomByte_one_refill_serves_many
              0 2 (freshWorld [okResponse [x0a; x0b; x0c]])
              (okResponse [x0a; x0b; x0c]) [])
    as (w' & Hret & Hp & _).
  - apply freshWorld_idle.
  - apply freshWorld_exhausted.
  - reflexivity.
  - reflexivity.
  - simpl. lia.
  - exists w'. exact (conj Hret Hp).
Defined.

Lemma getRandomByte_retries_empty_answers_witness :
  exists w', getRandomByte 3 (freshWorld [okResponse []; okResponse []; okResponse [x05]])
             = Returned x05 w'
             /\ posted (wk w')
                = [REQUEST_GET_RANDOM_BYTES; REQUEST_GET_RANDOM_BYTES;
                   REQUEST_GET_RANDOM_BYTES].
Proof.
  destruct (getRandomByte_retries_empty_answers
              3 (freshWorld [okResponse []; okResponse []; okResponse [x05]])
              [okResponse []; okResponse []] (okResponse [x05]) [])
    as (w' & Hret & _ & Hp & _).
  - apply freshWorld_idle.
  - apply freshWorld_exhausted.
  - reflexivity.
  - repeat constructor.
  - reflexivity.
  - discriminate.
  - simpl. lia.
  - exists w'. exact (conj Hret Hp).
Defined.

Lemma getRandomByteInRange_accepts_most_bytes_witness :
  (128 < List.length (accepted 0 99))%nat.
Proof.
  destruct (getRandomByteInRange_accepts_most_bytes 0 99) as [Hlt _];
    [lia | lia | lia | exact Hlt].
Defined.

Lemma getRandomByteInRange_range_too_wide_witness :
  limit (bound 0 256) = JInt (-1).
Proof.
  destruct (getRandomByteInRange_range_too_wide 0 256) as [Hl _]; [lia | exact Hl].
Defined.

Lemma generatePassword_alphabet_too_large_witness :
  let options := {| passwordLength := 1;
                    useUppercase := true; useLowercase := true;
                    useDigits := true; useSymbols := true;
                    symbols := repeatString "!@#$%&*_?" 22;
                    minDigitProportion := JsNumber.ofZ 0; minSymbolProportion := JsNumber.ofZ 0;
                    maxCaseVariance := JsNumber.ofZ 1 |} in
  @generatePassword asciiClassifier (tickingClock 1) 5 options (JsNumber.ofZ 0)
                    (freshWorld [okResponse [x00; x01; x02]])
  <> Returned None (freshWorld []).
Proof.
  cbv zeta.
  refine (proj1 (@generatePassword_alphabet_too_large asciiClassifier (tickingClock 1)
                   5 _ (JsNumber.ofZ 0) (freshWorld [okResponse [x00; x01; x02]]) (freshWorld [])
                   None _ _)).
  - vm_compute. lia.
  - vm_compute. lia.
Defined.

Lemma generatePassword_empty_alphabet_witness :
  let options := optionsWith 2 false false false false in
  let w := freshWorld [okResponse [x00; x01]] in
  let o := @generatePassword asciiClassifier (tickingClock 1) 2 options (JsNumber.ofZ 10) w in
  clockReads (finalWorld o w) = 2%nat
  /\ (Some "undefinedundefined"%string = None
      \/ Some "undefinedundefined"%string
         = Some (repeatString "undefined" (passwordLength options))).
Proof.
  cbv zeta.
  pose (options := optionsWith 2 false false false false).
  pose (w := freshWorld [okResponse [x00; x01]]).
  pose (o := @generatePassword asciiClassifier (tickingClock 1) 2 options (JsNumber.ofZ 10) w).
  destruct (@generatePassword_empty_alphabet asciiClassifier (tickingClock 1) 2
              options (JsNumber.ofZ 10) w (finalWorld o w) (Some "undefinedundefined"%string))
    as (Hc & Hr & _).
  - reflexivity.
  - vm_compute. reflexivity.
  - exact (conj Hc Hr).
Defined.

Lemma passwordIsValid_permutation_witness :
  @passwordIsValid asciiClassifier "a1" defaultOptions
  = @passwordIsValid asciiClassifier "1a" defaultOptions.
Proof.
  apply (@passwordIsValid_permutation asciiClassifier "a1" "1a" defaultOptions).
  apply perm_swap.
Defined.

Lemma passwordIsValid_relaxed_witness :
  @passwordIsValid asciiClassifier "aB1!" (optionsWith 4 true true true true) = true.
Proof.
  apply (@passwordIsValid_relaxed asciiClassifier "aB1!"
           (optionsWith 4 true true true true)
           {| passwordLength := 4;
              useUppercase := true; useLowercase := true;
              useDigits := true; useSymbols := true;
              symbols := "!@#$%&*_?";
              minDigitProportion := JsNumber.decimal 1 4; minSymbolProportion := JsNumber.decimal 1 4;
              maxCaseVariance := JsNumber.ofZ 0 |}).
  - unfold relaxes. simpl. repeat split; unfold Qle; simpl; lia.
  - vm_compute. reflexivity.
Defined.

Lemma generatePassword_zero_length_witness :
  let options := optionsWith 0 true true false false in
  let w := afterRefill (freshWorld []) (okResponse [x00]) [] in
  let o := @generatePassword asciiClassifier (tickingClock 1) 2 options (JsNumber.ofZ 1) w in
  returned o = Some (Some EmptyString)
  /\ wk (finalWorld o w) = wk w /\ inbox (finalWorld o w) = inbox w.
Proof.
  intros options w o.
  destruct (@generatePassword_zero_length asciiClassifier (tickingClock 1) 2
              options (JsNumber.ofZ 1) w (finalWorld o w) (Some EmptyString))
    as (Hwk & Hin & _).
  - reflexivity.
  - vm_compute. reflexivity.
  - split; [vm_compute; reflexivity | exact (conj Hwk Hin)].
Defined.

Lemma application_options_give_requested_length_witness :
  let options := @afterChanges asciiClassifier firstOccurrences defaultOptions
                               [setLengthAndDigits 2 (JsNumber.ofZ 0)] in
  String.length "AB" = passwordLength options.
Proof.
  cbv zeta.
  pose (options := @afterChanges asciiClassifier firstOccurrences defaultOptions
                                 [setLengthAndDigits 2 (JsNumber.ofZ 0)]).
  pose (relaxedOptions :=
          @afterChanges asciiClassifier firstOccurrences defaultOptions
            [setLengthAndDigits 2 (JsNumber.ofZ 0);
             {| deltaPasswordLength := None;
                deltaUseUppercase := None; deltaUseLowercase := None;
                deltaUseDigits := None; deltaUseSymbols := None;
                deltaSymbols := None;
                deltaMinDigitProportion := None;
                deltaMinSymbolProportion := Some (JsNumber.ofZ 0);
                deltaMaxCaseVariance := Some (JsNumber.ofZ 1) |}]).
  pose (w := freshWorld [okResponse [x00; x01]]).
  pose (o := @generatePassword asciiClassifier (tickingClock 1) 3 relaxedOptions (JsNumber.ofZ 10) w).
  destruct (@application_options_give_requested_length
              asciiClassifier (tickingClock 1) firstOccurrences defaultOptions
              [setLengthAndDigits 2 (JsNumber.ofZ 0);
               {| deltaPasswordLength := None;
                  deltaUseUppercase := None; deltaUseLowercase := None;
                  deltaUseDigits := None; deltaUseSymbols := None;
                  deltaSymbols := None;
                  deltaMinDigitProportion := None;
                  deltaMinSymbolProportion := Some (JsNumber.ofZ 0);
                  deltaMaxCaseVariance := Some (JsNumber.ofZ 1) |}]
              3 (JsNumber.ofZ 10) w (finalWorld o w) "AB")
    as (Hlen & _).
  - exact defaultOptions_acceptable.
  - vm_compute. reflexivity.
  - exact Hlen.
Defined.

Lemma onRequestGeneratePassword_posts_one_response_witness :
  let options := optionsWith 1 true false false false in
  let w := freshWorld [okResponse [x00]] in
  let o := @onRequestGeneratePassword asciiClassifier (tickingClock 1) 2 options (JsNumber.ofZ 10) w in
  posted (wk (finalWorld o w))
  = [REQUEST_GET_RANDOM_BYTES; RESPONSE_GENERATE_PASSWORD_OK "A"]
  /\ idle (wk (finalWorld o w)).
Proof.
  cbv zeta.
  pose (options := optionsWith 1 true false false false).
  pose (w := freshWorld [okResponse [x00]]).
  pose (o := @onRequestGeneratePassword asciiClassifier (tickingClock 1) 2 options (JsNumber.ofZ 10) w).
  destruct (proj2 (@onRequestGeneratePassword_posts_one_response
                     asciiClassifier (tickingClock 1) 2 options (JsNumber.ofZ 10) w
                     (freshWorld_idle _))
                  tt (finalWorld o w))
    as (Hidle & _).
  - vm_compute. reflexivity.
  - split; [vm_compute; reflexivity | exact Hidle].
Defined.

Lemma concurrent_callers_get_successive_bytes_witness :
  let s := run initialSystem (callsThenAnswer 3 (okResponse [x0a; x0b; x0c; x0d])) in
  calls s = [Resolved x0a; Resolved x0b; Resolved x0c]
  /\ posted (theWorker s) = [REQUEST_GET_RANDOM_BYTES]
  /\ numRead (theWorker s) = 3%N.
Proof.
  cbv zeta.
  destruct (concurrent_callers_get_successive_bytes
              3 initialWorker (okResponse [x0a; x0b; x0c; x0d]))
    as (Hc & Hp & Hn & _).
  - apply (freshWorld_idle []).
  - apply (freshWorld_exhausted []).
  - reflexivity.
  - simpl. lia.
  - exact (conj Hc (conj Hp Hn)).
Defined.

Lemma generatePassword_longer_timeout_witness :
  let options := optionsWith 2 true false false false in
  let w := freshWorld [okResponse [x00; x01]] in
  returned (@generatePassword asciiClassifier (tickingClock 1) 3 options
                              (JsNumber.decimal 36005 10) w)
  = Some (Some "AB"%string).
Proof.
  intros options w.
  pose (o := @generatePassword asciiClassifier (tickingClock 1) 3 options
                               (JsNumber.decimal 1 10) w).
  rewrite (@generatePassword_longer_timeout asciiClassifier (tickingClock 1) 3
             options (JsNumber.decimal 1 10) (JsNumber.decimal 36005 10) w
             (finalWorld o w) "AB").
  - reflexivity.
  - vm_compute. reflexivity.
  - vm_compute. reflexivity.
  - vm_compute. reflexivity.
  - vm_compute. reflexivity.
Defined.
